(** * Voice assistant pipeline: a shallow embedding of the Go sources

    The development follows the packages of the repository:
    [llm] (conversation client), [audio] (capture ring, resamplers),
    [config] (thread counts), [tts] (sentence splitter), [stt] (wake word
    gate) and [main] (the STT processing loop).  Part I holds the
    definitions, translated function by function from the Go code; Part II
    holds the lemmas and the theorems about them. *)

From Stdlib Require Import ZArith Lia.
From stdpp Require Import base list numbers strings.
From Stdlib Require Import SpecFloat.

Local Open Scope Z_scope.

(* ===================================================================== *)
(** * Part I: definitions                                                 *)
(* ===================================================================== *)

(** ** Go machine integers and control outcomes *)

(** Go's [int] is a 64-bit two's complement integer on the supported
    platforms; arithmetic wraps around silently. *)
Definition wrap_int (z : Z) : Z := (z + 2 ^ 63) mod 2 ^ 64 - 2 ^ 63.

(** [uint64] arithmetic (the counters behind [atomic.Uint64]). *)
Definition wrap_uint64 (z : Z) : Z := z mod 2 ^ 64.

Definition MaxInt : Z := 2 ^ 63 - 1.

(** A Go call either returns or stops the goroutine with a run-time panic
    (index or slice bounds out of range). *)
Inductive run (A : Type) : Type :=
  | Returns (a : A)
  | Panics.
Arguments Returns {A} a.
Arguments Panics {A}.

(** The [(value, error)] pair of a fallible Go function; the error carries
    its message. *)
Inductive result (E A : Type) : Type :=
  | Ok (a : A)
  | Err (e : E).
Arguments Ok {E A} a.
Arguments Err {E A} e.

(** A [float32] is carried as its IEEE-754 bit pattern
    ([math.Float32bits]).  The capture path only copies samples; where
    the resampler computes with them, the [float32] operations are
    parameters of the model. *)
Abbreviation float32 := Z (only parsing).

(** ** Go strings *)

Module GoStrings.

(** A string value stands for the sequence of runes that [range] yields
    on it; [rune] is Go's [int32] code point. *)
Abbreviation rune := Z (only parsing).
Abbreviation gostring := (list Z) (only parsing).

(** String literals of the sources (all of them ASCII). *)
Definition runes (s : String.string) : gostring :=
  map (fun a => Z.of_N (Ascii.N_of_ascii a)) (String.list_ascii_of_string s).
Arguments runes s%_string.

(** [unicode.IsSpace]: the White_Space property. *)
Definition isSpace (r : rune) : bool :=
  ((9 <=? r) && (r <=? 13)) || (r =? 32) || (r =? 0x85) || (r =? 0xA0)
  || (r =? 0x1680) || ((0x2000 <=? r) && (r <=? 0x200a))
  || (r =? 0x2028) || (r =? 0x2029) || (r =? 0x202f) || (r =? 0x205f)
  || (r =? 0x3000).

(** [strings.TrimLeftFunc] and [strings.TrimRightFunc]. *)
Fixpoint TrimLeftFunc (f : rune -> bool) (s : gostring) : gostring :=
  match s with
  | [] => []
  | r :: t => if f r then TrimLeftFunc f t else s
  end.

Definition TrimRightFunc (f : rune -> bool) (s : gostring) : gostring :=
  rev (TrimLeftFunc f (rev s)).

(** [strings.TrimSpace]. *)
Definition TrimSpace (s : gostring) : gostring :=
  TrimRightFunc isSpace (TrimLeftFunc isSpace s).

(** Membership of a rune in a cutset, and [strings.TrimLeft]. *)
Definition inCutset (cutset : gostring) (r : rune) : bool :=
  existsb (Z.eqb r) cutset.

Definition TrimLeft (s cutset : gostring) : gostring :=
  TrimLeftFunc (inCutset cutset) s.

(** [strings.HasPrefix] and [strings.TrimSuffix]. *)
Fixpoint HasPrefix (s prefix : gostring) : bool :=
  match prefix, s with
  | [], _ => true
  | _ :: _, [] => false
  | p :: prefix', r :: s' => (r =? p) && HasPrefix s' prefix'
  end.

Definition HasSuffix (s suffix : gostring) : bool :=
  HasPrefix (rev s) (rev suffix).

Definition TrimSuffix (s suffix : gostring) : gostring :=
  if HasSuffix s suffix
  then take (length s - length suffix)%nat s
  else s.

(** [utf8.RuneLen]: the number of bytes of the UTF-8 encoding. *)
Definition RuneLen (r : rune) : Z :=
  if r <? 0x80 then 1
  else if r <? 0x800 then 2
  else if r <? 0x10000 then 3
  else 4.

(** [len(s)]: the length in bytes, for a string that is valid UTF-8. *)
Definition len (s : gostring) : Z :=
  fold_right (fun r n => RuneLen r + n) 0 s.

(** [utf8.RuneError], which [range] yields for every byte that does not
    decode.  The runes determine the bytes of a string, and with them its
    length and its byte offsets, only if the string is valid UTF-8:
    [decodable s] says that every rune of [s] is a Unicode scalar value
    other than [RuneError].  This holds for the valid UTF-8 strings
    without an encoded U+FFFD and for no string with an invalid byte. *)
Definition RuneError : rune := 0xFFFD.

Definition scalar (r : rune) : bool :=
  (((0 <=? r) && (r <? 0xD800)) || ((0xE000 <=? r) && (r <=? 0x10FFFF)))
  && negb (r =? RuneError).

Definition decodable (s : gostring) : Prop :=
  Forall (fun r => scalar r = true) s.

(** [unicode.ToLower]: ASCII is mapped in place, every other rune goes
    through the case tables of the Go library, which are a parameter
    [caseTable] of the model ([unicode.To(unicode.LowerCase, r)]). *)
Definition toLowerRune (caseTable : rune -> rune) (r : rune) : rune :=
  if r <=? 0x7F
  then (if (65 <=? r) && (r <=? 90) then r + 32 else r)
  else caseTable r.

(** [strings.ToLower] maps every rune by [unicode.ToLower]. *)
Definition ToLower (caseTable : rune -> rune) (s : gostring) : gostring :=
  map (toLowerRune caseTable) s.

(** [strings.Index]: the byte offset of the first occurrence of [substr]
    in [s], or -1.  [acc] is the byte offset of the current position. *)
Fixpoint IndexFrom (acc : Z) (s substr : gostring) : Z :=
  if HasPrefix s substr then acc
  else match s with
       | [] => -1
       | r :: t => IndexFrom (acc + RuneLen r) t substr
       end.

Definition Index (s substr : gostring) : Z := IndexFrom 0 s substr.

(** [strings.Contains]. *)
Definition Contains (s substr : gostring) : bool := 0 <=? Index s substr.

(** Byte slices [s[:n]] and [s[n:]] of a string.  The offset [n] is a
    byte offset; it must fall between two runes for the slice to be a
    rune sequence again, otherwise the cut leaves a torn encoding and the
    model answers [None]. *)
Fixpoint sliceTo (s : gostring) (n : Z) : option gostring :=
  if n =? 0 then Some []
  else match s with
       | [] => None
       | r :: t =>
           if n <? RuneLen r then None
           else option_map (cons r) (sliceTo t (n - RuneLen r))
       end.

Fixpoint sliceFrom (s : gostring) (n : Z) : option gostring :=
  if n =? 0 then Some s
  else match s with
       | [] => None
       | r :: t =>
           if n <? RuneLen r then None
           else sliceFrom t (n - RuneLen r)
       end.

End GoStrings.

Import GoStrings.

(** ** Package llm: the conversation client *)

Module Llm.

(** [api.Message]. *)
Record Message : Type := mkMessage {
  Role : gostring;
  Content : gostring
}.

(** [Client]; the Ollama handle is kept as the base URL it was built
    with. *)
Record Client : Type := mkClient {
  client : gostring;
  model : gostring;
  history : list Message;
  verbose : bool;
  maxHistory : Z;
  temperature : float32
}.

Record Config : Type := mkConfig {
  Host : gostring;
  Model : gostring;
  SystemPrompt : gostring;
  Verbose : bool;
  MaxHistory : Z;
  Temperature : float32
}.

(** [api.ChatRequest] as [Chat] fills it. *)
Record ChatRequest : Type := mkChatRequest {
  req_Model : gostring;
  req_Messages : list Message;
  req_Stream : bool;
  opt_temperature : float32;
  opt_num_predict : Z;
  opt_num_ctx : Z
}.

(** The remote end of one call of [api.Client.Chat]: the content of the
    response message, or the error of the request. *)
Definition server : Type := ChatRequest -> result gostring gostring.

Definition set_history (c : Client) (h : list Message) : Client :=
  mkClient (client c) (model c) h (verbose c) (maxHistory c)
           (temperature c).

Section NewClient.

(** [url.Parse] of the Go library. *)
Variable url_Parse : gostring -> result gostring gostring.

Definition NewClient (cfg : Config) : result gostring Client :=
  let maxHistory :=
    if MaxHistory cfg <=? 0 then 10 else MaxHistory cfg in
  let host := TrimSuffix (Host cfg) (runes "/") in
  match url_Parse host with
  | Err e => Err (runes "invalid host URL: " ++ e)
  | Ok parsedURL =>
      let history := [] ++ [mkMessage (runes "system") (SystemPrompt cfg)] in
      Ok (mkClient parsedURL (Model cfg) history (Verbose cfg)
                   maxHistory (Temperature cfg))
  end.

End NewClient.

(** [trimHistory]: the slice expression panics when its low bound is
    negative or beyond the length. *)
Definition trimHistory (c : Client) : run Client :=
  let maxMessages := wrap_int (1 + wrap_int (maxHistory c * 2)) in
  let n := Z.of_nat (length (history c)) in
  if n >? maxMessages then
    match history c with
    | [] => Panics
    | systemMsg :: _ =>
        let lo := wrap_int (n - wrap_int (maxHistory c * 2)) in
        if (lo <? 0) || (n <? lo) then Panics
        else Returns (set_history c
                        ([systemMsg] ++ drop (Z.to_nat lo) (history c)))
    end
  else Returns c.

(** [Chat]: the user turn is appended before the request is sent. *)
Definition Chat (srv : server) (c : Client) (userMessage : gostring)
  : run (result gostring gostring * Client) :=
  let c1 :=
    set_history c (history c ++ [mkMessage (runes "user") userMessage]) in
  let stream := false in
  match srv (mkChatRequest (model c1) (history c1) stream
                           (temperature c1) 150 1024) with
  | Err e => Returns (Err (runes "chat request failed: " ++ e), c1)
  | Ok content =>
      let finalResponse := TrimSpace content in
      let c2 :=
        set_history c1
          (history c1 ++ [mkMessage (runes "assistant") finalResponse]) in
      match trimHistory c2 with
      | Panics => Panics
      | Returns c3 => Returns (Ok finalResponse, c3)
      end
  end.

(** [ClearHistory]: [c.history[:1]]; an empty history has no first
    element to keep (the constructor never builds one). *)
Definition ClearHistory (c : Client) : run Client :=
  match history c with
  | [] => Panics
  | systemMsg :: _ => Returns (set_history c [systemMsg])
  end.

(** [K] consecutive calls of [Chat] that all returned a reply. *)
Inductive successful_turns : Client -> nat -> Client -> Prop :=
  | turns_done c : successful_turns c 0 c
  | turns_chat c srv userMessage reply c1 K c2 :
      Chat srv c userMessage = Returns (Ok reply, c1) ->
      successful_turns c1 K c2 ->
      successful_turns c (S K) c2.

(** The invariant of the client: the bound is the configured one and
    the system turn is pinned at index 0. *)
Definition pinned (sys : Message) (M : Z) (c : Client) : Prop :=
  maxHistory c = M /\ exists rest, history c = sys :: rest.

End Llm.

(** ** Package audio: the capture ring *)

Module Capture.

(** Ring buffer configuration constants. *)
Definition ringBufferSize : Z := 128.
Definition maxSamplesPerChunk : Z := 2048.

(** [audioChunk]: a pre-allocated buffer and the number of valid samples. *)
Record audioChunk : Type := mkAudioChunk {
  samples : list float32;
  chunk_len : Z
}.

#[global] Instance audioChunk_inhabited : Inhabited audioChunk :=
  populate (mkAudioChunk [] 0).

(** [ringBuffer]: the array of slots and the three [atomic.Uint64]
    counters. *)
Record ringBuffer : Type := mkRingBuffer {
  chunks : list audioChunk;
  head : Z;
  tail : Z;
  dropCount : Z
}.

(** [make([]float32, n)]: [n] zero samples. *)
Definition make (n : Z) : list float32 := replicate (Z.to_nat n) 0.

Definition newRingBuffer : ringBuffer :=
  mkRingBuffer
    (replicate (Z.to_nat ringBufferSize)
               (mkAudioChunk (make maxSamplesPerChunk) 0))
    0 0 0.

(** The builtin [copy(dst, src)]: the first [min (len dst) (len src)]
    elements of [dst] are overwritten; the count is returned. *)
Definition copy (dst src : list float32) : list float32 * Z :=
  let n := Nat.min (length dst) (length src) in
  (take n src ++ drop n dst, Z.of_nat n).

(** What a call of [push] leaves behind: its return value, the count it
    logged (every 100th drop), and the ring. *)
Record pushed : Type := mkPushed {
  accepted : bool;
  logged : option Z;
  ring : ringBuffer
}.

(** [push]. *)
Definition push (rb : ringBuffer) (samples0 : list float32) : pushed :=
  let head0 := head rb in
  let tail0 := tail rb in
  if wrap_uint64 (head0 - tail0) >=? ringBufferSize then
    let count := wrap_uint64 (dropCount rb + 1) in
    mkPushed false
             (if count mod 100 =? 0 then Some count else None)
             (mkRingBuffer (chunks rb) (head rb) (tail rb) count)
  else
    let i := Z.to_nat (head0 mod ringBufferSize) in
    let slot := chunks rb !!! i in
    let '(buf, n) := copy (samples slot) samples0 in
    mkPushed true None
             (mkRingBuffer (<[i := mkAudioChunk buf n]> (chunks rb))
                           (wrap_uint64 (head rb + 1)) (tail rb)
                           (dropCount rb)).

(** [pop]: [None] is the [nil] slice of an empty ring. *)
Definition pop (rb : ringBuffer) : option (list float32) * ringBuffer :=
  let head0 := head rb in
  let tail0 := tail rb in
  if head0 =? tail0 then (None, rb)
  else
    let slot := chunks rb !!! Z.to_nat (tail0 mod ringBufferSize) in
    let samples0 := take (Z.to_nat (chunk_len slot)) (samples slot) in
    (Some samples0,
     mkRingBuffer (chunks rb) (head rb) (wrap_uint64 (tail rb + 1))
                  (dropCount rb)).

(** [n] calls of [pop] in a row (the consumer loop), with what they
    returned. *)
Fixpoint pops (n : nat) (rb : ringBuffer)
  : list (option (list float32)) * ringBuffer :=
  match n with
  | O => ([], rb)
  | S n' =>
      let '(x, rb1) := pop rb in
      let '(xs, rb2) := pops n' rb1 in
      (x :: xs, rb2)
  end.

(** The state invariant of the ring: 128 slots of 2048 samples each, a
    valid length in every slot, counters in the [uint64] range and at
    most 128 unread chunks. *)
Definition occupancy (rb : ringBuffer) : Z :=
  wrap_uint64 (head rb - tail rb).

Definition wf_chunk (ch : audioChunk) : Prop :=
  Z.of_nat (length (samples ch)) = maxSamplesPerChunk
  /\ 0 <= chunk_len ch <= maxSamplesPerChunk.

Definition wf (rb : ringBuffer) : Prop :=
  Z.of_nat (length (chunks rb)) = ringBufferSize
  /\ Forall wf_chunk (chunks rb)
  /\ 0 <= head rb < 2 ^ 64
  /\ 0 <= tail rb < 2 ^ 64
  /\ 0 <= dropCount rb < 2 ^ 64
  /\ occupancy rb <= ringBufferSize.

(** The unread chunks, oldest first: what the consumer is still to
    receive. *)
Definition unread_at (rb : ringBuffer) (k : nat) : list float32 :=
  let slot :=
    chunks rb !!! Z.to_nat ((tail rb + Z.of_nat k) mod ringBufferSize) in
  take (Z.to_nat (chunk_len slot)) (samples slot).

Definition unread (rb : ringBuffer) : list (list float32) :=
  map (unread_at rb) (seq 0 (Z.to_nat (occupancy rb))).



End Capture.

Module CaptureDec.
Import Capture.

(** The invariant is decidable, so that it can be checked on a concrete
    ring by evaluation. *)
#[global] Instance wf_chunk_dec ch : Decision (wf_chunk ch).
Proof. unfold wf_chunk. apply _. Defined.

#[global] Instance wf_dec rb : Decision (wf rb).
Proof. unfold wf. apply _. Defined.

End CaptureDec.

(** ** Package config: thread counts *)

Module Config.

(** [config.Config]: the fields that reach the recognizer and the
    synthesizer, and the thread counts (0 = auto-detect). *)
Record Config : Type := mkConfig {
  WakeWord : gostring;
  SampleRate : Z;
  STTProvider : gostring;
  TTSProvider : gostring;
  Verbose : bool;
  NumThreads : Z;
  VADThreads : Z;
  STTThreads : Z;
  TTSThreads : Z
}.

Definition set_threads (c : Config) (n v s t : Z) : Config :=
  mkConfig (WakeWord c) (SampleRate c) (STTProvider c) (TTSProvider c)
           (Verbose c) n v s t.

(** [normalizeThreadCounts]; [cpuCores] is what [runtime.NumCPU] answers.
    Go's [/] on [int] truncates towards zero. *)
Definition normalizeThreadCounts (cpuCores : Z) (c : Config) : Config :=
  let c1 :=
    if NumThreads c =? 0
    then set_threads c (Z.max 1 (cpuCores ÷ 3)) (VADThreads c)
                     (STTThreads c) (TTSThreads c)
    else c in
  let c2 :=
    if VADThreads c1 =? 0
    then set_threads c1 (NumThreads c1) 1 (STTThreads c1) (TTSThreads c1)
    else c1 in
  let c3 :=
    if STTThreads c2 =? 0
    then set_threads c2 (NumThreads c2) (VADThreads c2) (NumThreads c2)
                     (TTSThreads c2)
    else c2 in
  if TTSThreads c3 =? 0
  then set_threads c3 (NumThreads c3) (VADThreads c3) (STTThreads c3)
                   (NumThreads c3)
  else c3.

End Config.

(** ** Package tts: the synthesizer configuration and the sentence
    splitter *)

Module Tts.

(** The fields of [tts.Config] that [NewSynthesizer] reads into the model
    configuration. *)
Record Config : Type := mkConfig {
  Provider : gostring;
  Verbose : bool;
  TTSThreads : Z
}.

(** [sherpa.OfflineTtsConfig], the part that [NewSynthesizer] fills with
    integers and strings. *)
Record OfflineTtsConfig : Type := mkOfflineTtsConfig {
  Model_NumThreads : Z;
  Model_Provider : gostring;
  MaxNumSentences : Z;
  Model_Debug : Z
}.

(** The configuration that [NewSynthesizer] hands to
    [sherpa.NewOfflineTts]. *)
Definition NewSynthesizer_config (cfg : Config) : OfflineTtsConfig :=
  mkOfflineTtsConfig 2 (Provider cfg) 1 (if Verbose cfg then 1 else 0).

(** The sentence boundaries of [SplitSentences]. *)
Definition isTerminator (c : rune) : bool :=
  (c =? 46) || (c =? 33) || (c =? 63) || (c =? 10).

(** The loop of [SplitSentences]: [current] is the string builder,
    [sentences] the slice built so far. *)
Fixpoint splitLoop (text current : gostring) (sentences : list gostring)
  : list gostring :=
  match text with
  | [] =>
      let trimmed := TrimSpace current in
      match trimmed with
      | [] => sentences
      | _ :: _ => sentences ++ [trimmed]
      end
  | c :: text' =>
      let current := current ++ [c] in
      if isTerminator c then
        let trimmed := TrimSpace current in
        splitLoop text' []
          match trimmed with
          | [] => sentences
          | _ :: _ => sentences ++ [trimmed]
          end
      else splitLoop text' current sentences
  end.

Definition SplitSentences (text : gostring) : list gostring :=
  splitLoop text [] [].

(** The pieces of a text in the words of the specification: the text is
    cut after every terminator, and every piece keeps its terminator. *)
Fixpoint pieces (text current : gostring) : list gostring :=
  match text with
  | [] => [current]
  | c :: text' =>
      if isTerminator c then (current ++ [c]) :: pieces text' []
      else pieces text' (current ++ [c])
  end.

(** The sentence a piece gives: the piece without the blanks around it,
    unless nothing is left. *)
Definition sentence_of (piece : gostring) : list gostring :=
  match TrimSpace piece with
  | [] => []
  | trimmed => [trimmed]
  end.

(** In a piece, a terminator can only be the last rune. *)
Definition terminator_only_last (piece : gostring) : Prop :=
  forall before c rest,
    piece = before ++ c :: rest -> isTerminator c = true -> rest = [].

Definition no_terminator (text : gostring) : Prop :=
  Forall (fun c => isTerminator c = false) text.

Definition only_whitespace (text : gostring) : Prop :=
  Forall (fun c => isSpace c = true) text.

(** A sentence keeps its terminator when its last rune is one. *)
Definition ends_with_terminator (sentence : gostring) : Prop :=
  exists c, last sentence = Some c /\ isTerminator c = true.

End Tts.

(** ** Package stt: the recognizer configuration and the wake word gate *)

Module Stt.

(** The outcome of an expression that slices a string at byte offsets:
    the runes of the result, a cut inside the encoding of a rune (the
    result is no rune sequence), or a slice-bounds panic. *)
Inductive sliced (A : Type) : Type :=
  | Runes (a : A)
  | Torn
  | SlicePanic.
Arguments Runes {A} a.
Arguments Torn {A}.
Arguments SlicePanic {A}.

(** [s[:n]] and [s[n:]] for a byte offset [n]. *)
Definition slice_to (s : gostring) (n : Z) : sliced gostring :=
  if (n <? 0) || (len s <? n) then SlicePanic
  else match sliceTo s n with Some a => Runes a | None => Torn end.

Definition slice_from (s : gostring) (n : Z) : sliced gostring :=
  if (n <? 0) || (len s <? n) then SlicePanic
  else match sliceFrom s n with Some a => Runes a | None => Torn end.

(** The fields of [stt.Config] that [NewRecognizer] reads into the model
    configurations and the recognizer. *)
Record Config : Type := mkConfig {
  SampleRate : Z;
  WakeWord : gostring;
  Provider : gostring;
  Verbose : bool;
  VADThreads : Z;
  STTThreads : Z
}.

(** [Recognizer], with the thread counts of the two model configurations
    it was created from. *)
Record Recognizer : Type := mkRecognizer {
  wakeWord : gostring;
  verbose : bool;
  sampleRate : Z;
  vadConfig_NumThreads : Z;
  recognizerConfig_NumThreads : Z;
  recognizerConfig_Provider : gostring
}.

Section CaseTable.

(** The case tables of Go's [unicode] package for the runes above
    U+007F. *)
Variable caseTable : rune -> rune.

(** [NewRecognizer]; [vadCreated] and [recognizerCreated] tell whether
    the sherpa constructors returned a handle. *)
Definition NewRecognizer (vadCreated recognizerCreated : bool) (cfg : Config)
  : result gostring Recognizer :=
  if negb vadCreated then Err (runes "failed to create VAD")
  else if negb recognizerCreated
       then Err (runes "failed to create offline recognizer")
       else Ok (mkRecognizer (ToLower caseTable (WakeWord cfg)) (Verbose cfg)
                             (SampleRate cfg) (VADThreads cfg)
                             (STTThreads cfg) (Provider cfg)).

(** The cutset of [removeWakeWord]: space , . ! ? ; : - ' and the double
    quote. *)
Definition wakeCutset : gostring := runes " ,.!?;:-'" ++ [34].

(** [removeWakeWord].  The byte offsets are computed from the runes, as
    they are in a string that is valid UTF-8 ([decodable]). *)
Definition removeWakeWord (text wakeWord0 : gostring) : sliced gostring :=
  let lowerText := ToLower caseTable text in
  let lowerWake := ToLower caseTable wakeWord0 in
  let idx := Index lowerText lowerWake in
  if idx =? -1 then Runes text
  else
    match slice_to text idx, slice_from text (idx + len wakeWord0) with
    | Runes before, Runes after =>
        let result := before ++ after in
        let result := TrimLeft result wakeCutset in
        Runes (TrimSpace result)
    | SlicePanic, _ | _, SlicePanic => SlicePanic
    | _, _ => Torn
    end.

(** [TranscribeSegment]; [decode] stands for the offline stream and the
    Whisper decoder: [None] when no stream could be created, the text of
    the result otherwise. *)
Definition TranscribeSegment (r : Recognizer)
           (decode : list float32 -> option gostring)
           (samples : list float32) : sliced gostring :=
  if (length samples =? 0)%nat then Runes []
  else
    match decode samples with
    | None => Runes []
    | Some resultText =>
        let text := TrimSpace resultText in
        match text with
        | [] => Runes []
        | _ :: _ =>
            match wakeWord r with
            | [] => Runes text
            | _ :: _ =>
                let lowerText := ToLower caseTable text in
                if negb (Contains lowerText (wakeWord r)) then Runes []
                else
                  match removeWakeWord text (wakeWord r) with
                  | Runes text1 =>
                      match TrimSpace text1 with
                      | [] => Runes (runes "Hello")
                      | text2 => Runes text2
                      end
                  | Torn => Torn
                  | SlicePanic => SlicePanic
                  end
            end
        end
    end.

(** The wake word gate in the words of the specification: the first
    place where the transcript reads as the trigger, case folded, is cut
    out, then punctuation and blanks are taken from the front and blanks
    from both ends. *)
Fixpoint cutTrigger (text trigger : gostring) : option gostring :=
  if HasPrefix (ToLower caseTable text) trigger
  then Some (drop (length trigger) text)
  else match text with
       | [] => None
       | r :: t => option_map (cons r) (cutTrigger t trigger)
       end.

Definition stripTrigger (text trigger : gostring) : option gostring :=
  option_map (fun s => TrimSpace (TrimLeft s wakeCutset))
             (cutTrigger text trigger).

(** Lower-casing keeps the width of the encoding of every rune of [s]. *)
Definition width_preserving (s : gostring) : Prop :=
  Forall (fun c => RuneLen (toLowerRune caseTable c) = RuneLen c) s.

End CaseTable.

(** The entry of Go's case tables for U+0130 (LATIN CAPITAL LETTER I
    WITH DOT ABOVE), whose lower case is U+0069; every other rune above
    U+007F is left as it is. *)
Definition caseTable_U0130 (r : rune) : rune :=
  if r =? 0x130 then 0x69 else r.

End Stt.

(** ** Package main: the wiring of thread counts and the STT loop *)

Module Main.

(** The configurations that [main] passes to [stt.NewRecognizer] and to
    [tts.NewSynthesizer]. *)
Definition stt_config (cfg : Config.Config) : Stt.Config :=
  Stt.mkConfig (Config.SampleRate cfg) (Config.WakeWord cfg)
               (Config.STTProvider cfg) (Config.Verbose cfg)
               (Config.VADThreads cfg) (Config.STTThreads cfg).

Definition tts_config (cfg : Config.Config) : Tts.Config :=
  Tts.mkConfig (Config.TTSProvider cfg) (Config.Verbose cfg)
               (Config.TTSThreads cfg).

(** One iteration of the loop of [sttProcessor].  The loop either ends
    (the context is done, or the segment channel is closed) or receives a
    segment; for a segment, [speech] is the answer of [IsSpeechDetected],
    [text] the result of [TranscribeSegment], and [delivered] tells
    whether the send on [out] went through before the context was done. *)
Inductive input : Type :=
  | CtxDone
  | SegmentsClosed
  | Segment (speech : bool) (text : gostring) (delivered : bool).

(** The shared state the loop acts on: the interrupt flag and the
    transcripts handed to the LLM processor. *)
Record state : Type := mkState {
  interrupt : bool;
  out : list gostring
}.

(** The body of the loop; the boolean tells whether the loop goes on. *)
Definition sttProcessor_iteration (st : state) (i : input) : state * bool :=
  match i with
  | CtxDone => (st, false)
  | SegmentsClosed => (st, false)
  | Segment speech text delivered =>
      let st1 := if speech then mkState true (out st) else st in
      match text with
      | [] => (st1, true)
      | _ :: _ =>
          if delivered
          then (mkState false (out st1 ++ [text]), true)
          else (st1, false)
      end
  end.

(** The loop over a sequence of inputs. *)
Fixpoint sttProcessor (st : state) (inputs : list input) : state :=
  match inputs with
  | [] => st
  | i :: inputs' =>
      let '(st1, continue) := sttProcessor_iteration st i in
      if continue then sttProcessor st1 inputs' else st1
  end.

(** What [llmProcessor] sends to the TTS stage for the outcome of one
    call of [Chat]. *)
Definition llmProcessor_reply (r : result gostring gostring) : gostring :=
  match r with
  | Err _ => runes "I'm sorry, I encountered an error."
  | Ok response => response
  end.

End Main.

(** ** Go float64 *)

(** [float64] is IEEE-754 binary64: 53 bits of precision, exponents below
    1024.  Values are the Standard Library's [spec_float] and the
    operations are its correctly rounded ones (to nearest, ties to even),
    which is what the Go compiler emits for [*], [/] and [-]. *)
Abbreviation float64 := spec_float (only parsing).

(** [float64(z)] for an [int]. *)
Definition float64_of_int (z : Z) : float64 :=
  binary_normalize 53 1024 z 0 false.

Definition float64_mul : float64 -> float64 -> float64 := SFmul 53 1024.
Definition float64_div : float64 -> float64 -> float64 := SFdiv 53 1024.
Definition float64_sub : float64 -> float64 -> float64 := SFsub 53 1024.

(** The constants [0], [0.5], [1.0] and [2.0]. *)
Definition float64_zero : float64 := S754_zero false.
Definition float64_half : float64 :=
  S754_finite false 4503599627370496 (-53).
Definition float64_one : float64 :=
  S754_finite false 4503599627370496 (-52).
Definition float64_two : float64 :=
  S754_finite false 4503599627370496 (-51).

(** [int(f)]: the fraction is discarded (truncation towards zero).  When
    the truncated value does not fit [int] (and for a NaN or an infinity)
    the language leaves the result to the implementation: [None]. *)
Definition int_of_float64 (f : float64) : option Z :=
  match f with
  | S754_zero _ => Some 0
  | S754_finite s m e =>
      let magnitude :=
        if 0 <=? e then Zpos m * 2 ^ e else Zpos m / 2 ^ (- e) in
      let z := if s then - magnitude else magnitude in
      if (- 2 ^ 63 <=? z) && (z <? 2 ^ 63) then Some z else None
  | _ => None
  end.

(** ** Package audio: the polyphase resampler *)

Module Polyphase.

(** How a call ends: with a value, with a run-time panic, or in a way
    the language does not fix (an out-of-range [int] conversion). *)
Inductive outcome (A : Type) : Type :=
  | Done (a : A)
  | Panic
  | Unspecified.
Arguments Done {A} a.
Arguments Panic {A}.
Arguments Unspecified {A}.

Definition bind {A B : Type} (x : outcome A) (f : A -> outcome B)
  : outcome B :=
  match x with
  | Done a => f a
  | Panic => Panic
  | Unspecified => Unspecified
  end.

Notation "'do' x <- e ; f" := (bind e (fun x => f))
  (at level 10, x name, e at level 100, f at level 200).

Definition to_int (f : float64) : outcome Z :=
  match int_of_float64 f with
  | Some z => Done z
  | None => Unspecified
  end.

(** The runtime refuses to allocate more than [maxAlloc] bytes (64-bit
    Linux: 48 address bits); a [float32] takes four. *)
Definition maxAlloc : Z := 2 ^ 48.

(** [make([]float32, n)]: panics for a negative or an oversized length. *)
Definition makeslice (n : Z) : outcome (list float32) :=
  if (n <? 0) || (maxAlloc <? 4 * n) then Panic
  else Done (Capture.make n).

(** [s[i]]. *)
Definition index (s : list float32) (i : Z) : outcome float32 :=
  if i <? 0 then Panic
  else match s !! Z.to_nat i with
       | Some x => Done x
       | None => Panic
       end.

(** [s[i:]]. *)
Definition reslice (s : list float32) (i : Z)
  : outcome (list float32) :=
  if (0 <=? i) && (i <=? Z.of_nat (length s))
  then Done (drop (Z.to_nat i) s)
  else Panic.

Record PolyphaseResampler : Type := mkPolyphaseResampler {
  fromRate : Z;
  toRate : Z;
  ratio : float64;
  filterLen : Z;
  filter : list float32;
  history : list float32;
  lastSample : float32
}.

Definition with_lastSample (r : PolyphaseResampler) (x : float32)
  : PolyphaseResampler :=
  mkPolyphaseResampler (fromRate r) (toRate r) (ratio r) (filterLen r)
                       (filter r) (history r) x.

Definition with_history (r : PolyphaseResampler) (h : list float32)
  : PolyphaseResampler :=
  mkPolyphaseResampler (fromRate r) (toRate r) (ratio r) (filterLen r)
                       (filter r) h (lastSample r).

(** [for i := 0; i < outputLen; i++ { output[i] = body(i) }], started at
    index [i] with [n] rounds to go. *)
Fixpoint assign (body : Z -> outcome float32) (n : nat) (i : Z)
    (output : list float32) : outcome (list float32) :=
  match n with
  | O => Done output
  | S n' =>
      do v <- body i;
      assign body n' (i + 1) (<[Z.to_nat i := v]> output)
  end.

Section Float32.

(** The [float32] arithmetic on samples and the transcendental part of
    the filter design are left open: the four operations, the conversion
    [float32(x)], and [windowedSinc cutoff n i], the product
    [sinc * window] that the design loop computes at tap [i]. *)
Variables f32_add f32_sub f32_mul f32_div : float32 -> float32 -> float32.
Variable float32_of_float64 : float64 -> float32.
Variable windowedSinc : float64 -> float64 -> Z -> float64.

(** [NewPolyphaseResampler]. *)
Definition NewPolyphaseResampler (fromRate toRate : Z)
  : PolyphaseResampler :=
  let ratio := float64_div (float64_of_int toRate) (float64_of_int fromRate) in
  let filterLen := 64 in
  let cutoff :=
    if SFltb ratio float64_one then float64_mul ratio float64_half
    else float64_half in
  let coefficient (i : Z) : float32 :=
    let n := float64_sub (float64_of_int i)
               (float64_div (float64_of_int (filterLen - 1)) float64_two) in
    if SFeqb n float64_zero
    then float32_of_float64 (float64_mul float64_two cutoff)
    else float32_of_float64 (windowedSinc cutoff n i) in
  let filter := coefficient <$> seqZ 0 filterLen in
  let sum := foldl f32_add 0 filter in
  let filter := (fun f => f32_div f sum) <$> filter in
  mkPolyphaseResampler fromRate toRate ratio filterLen filter
                       (Capture.make filterLen) 0.

(** The body of the loop of [upsample]: the value stored at [output[i]]. *)
Definition interpolate (r : PolyphaseResampler) (input : list float32)
    (i : Z) : outcome float32 :=
  let inputLen := Z.of_nat (length input) in
  let srcPos := float64_div (float64_of_int i) (ratio r) in
  do srcIdx <- to_int srcPos;
  let frac :=
    float32_of_float64 (float64_sub srcPos (float64_of_int srcIdx)) in
  do sample1 <- (if srcIdx <? inputLen then index input srcIdx
                 else Done (lastSample r));
  do sample2 <- (if wrap_int (srcIdx + 1) <? inputLen
                 then index input (wrap_int (srcIdx + 1))
                 else if srcIdx <? inputLen
                      then index input (inputLen - 1)
                      else Done sample1);
  Done (f32_add sample1 (f32_mul (f32_sub sample2 sample1) frac)).

(** [upsample]. *)
Definition upsample (r : PolyphaseResampler) (input : list float32)
  : outcome (list float32 * PolyphaseResampler) :=
  let inputLen := Z.of_nat (length input) in
  do outputLen <- to_int (float64_mul (float64_of_int inputLen) (ratio r));
  do output <- makeslice outputLen;
  do output <- assign (interpolate r input) (Z.to_nat outputLen) 0 output;
  if 0 <? inputLen
  then do x <- index input (inputLen - 1);
       Done (output, with_lastSample r x)
  else Done (output, r).

(** The inner loop of [downsample], from tap [j] with [n] taps to go. *)
Fixpoint taps (r : PolyphaseResampler) (combined : list float32)
    (srcIdx : Z) (n : nat) (j : Z) (sample : float32) : outcome float32 :=
  match n with
  | O => Done sample
  | S n' =>
      let idx := wrap_int (wrap_int (srcIdx - filterLen r ÷ 2) + j) in
      if (0 <=? idx) && (idx <? Z.of_nat (length combined))
      then do c <- index combined idx;
           do f <- index (filter r) j;
           taps r combined srcIdx n' (j + 1) (f32_add sample (f32_mul c f))
      else taps r combined srcIdx n' (j + 1) sample
  end.

(** The body of the outer loop of [downsample]. *)
Definition convolve (r : PolyphaseResampler) (combined : list float32)
    (i : Z) : outcome float32 :=
  let srcPos := float64_div (float64_of_int i) (ratio r) in
  do k <- to_int srcPos;
  let srcIdx := wrap_int (k + Z.of_nat (length (history r))) in
  taps r combined srcIdx (Z.to_nat (filterLen r)) 0 0.

(** [downsample]. *)
Definition downsample (r : PolyphaseResampler) (input : list float32)
  : outcome (list float32 * PolyphaseResampler) :=
  let inputLen := Z.of_nat (length input) in
  do outputLen <- to_int (float64_mul (float64_of_int inputLen) (ratio r));
  do output <- makeslice outputLen;
  let combined := history r ++ input in
  do output <- assign (convolve r combined) (Z.to_nat outputLen) 0 output;
  if filterLen r <=? inputLen
  then do recent <- reslice input (inputLen - filterLen r);
       Done (output, with_history r (Capture.copy (history r) recent).1)
  else
    let shift := filterLen r - inputLen in
    do older <- reslice (history r) inputLen;
    let shifted := (Capture.copy (history r) older).1 in
    do room <- reslice shifted shift;
    Done (output,
          with_history r (take (Z.to_nat shift) shifted
                         ++ (Capture.copy room input).1)).

(** [Resample]. *)
Definition Resample (r : PolyphaseResampler) (input : list float32)
  : outcome (list float32 * PolyphaseResampler) :=
  if SFeqb (ratio r) float64_one then Done (input, r)
  else
    let inputLen := Z.of_nat (length input) in
    if inputLen =? 0 then Done (input, r)
    else if SFltb float64_one (ratio r) then upsample r input
         else downsample r input.

(** The states a resampler built for the two rates goes through: calls
    of [Resample] change its history and its last sample only. *)
Definition state_of (fromRate toRate : Z) (r : PolyphaseResampler)
  : Prop :=
  ratio r = ratio (NewPolyphaseResampler fromRate toRate)
  /\ filter r = filter (NewPolyphaseResampler fromRate toRate)
  /\ filterLen r = filterLen (NewPolyphaseResampler fromRate toRate)
  /\ length (history r)
     = length (history (NewPolyphaseResampler fromRate toRate)).

End Float32.

End Polyphase.

(** ** Vocabulary of the rounding proofs *)

(** The record [mrs] places [N / U] (with [U > 0]): its mantissa is the
    integer part, its two bits tell where the fraction stands with respect
    to one half. *)
Definition places (N U : Z) (mrs : shr_record) : Prop :=
  let m := shr_m mrs in
  0 <= m
  /\ m * U <= N < (m + 1) * U
  /\ (shr_r mrs = true <-> U <= 2 * (N - m * U))
  /\ (shr_s mrs = true <-> (N <> m * U /\ 2 * (N - m * U) <> U)).

(** The value of the finite float [m * 2 ^ e], scaled by [2 ^ 1100] so
    that it is an integer for every binary64 exponent. *)
Definition scale : Z := 2 ^ 1100.
Definition val (m : positive) (e : Z) : Z := Zpos m * 2 ^ (e + 1100).

(* ===================================================================== *)
(** * Part I, continued: the rest of the packages                        *)
(* ===================================================================== *)

(** ** Package config: the interrupt mode *)

Module InterruptMode.

(** [InterruptMode] is an [int]; the two named values. *)
Definition InterruptAlways : Z := 0.
Definition InterruptWait : Z := 1.

(** [InterruptMode.String]. *)
Definition String (m : Z) : gostring :=
  if m =? InterruptAlways then runes "always"
  else if m =? InterruptWait then runes "wait"
  else runes "unknown".

(** [ParseInterruptMode]: the mode and the error ([None] is [nil]). *)
Definition ParseInterruptMode (s : gostring) : Z * option gostring :=
  if bool_decide (s = runes "always") then (InterruptAlways, None)
  else if bool_decide (s = runes "wait") then (InterruptWait, None)
  else (InterruptWait,
        Some (runes "invalid interrupt mode: " ++ s
              ++ runes " (must be 'always' or 'wait')")).

End InterruptMode.

(** ** Package llm: runs of failed requests *)

Module Conversation.

(** [F] consecutive calls of [Chat] whose request failed. *)
Inductive failed_turns : Llm.Client -> list gostring -> Llm.Client -> Prop :=
  | failed_done c : failed_turns c [] c
  | failed_chat c srv userMessage e c1 rest c2 :
      Llm.Chat srv c userMessage = Returns (Err e, c1) ->
      failed_turns c1 rest c2 ->
      failed_turns c (userMessage :: rest) c2.

End Conversation.

(** ** Package llm: the client that keeps the system prompt apart *)

Module LlmSeparatePrompt.

(** [Client]: the system prompt is a field of its own and [history]
    holds the turns only. *)
Record Client : Type := mkClient {
  client : gostring;
  model : gostring;
  systemPrompt : gostring;
  history : list Llm.Message;
  verbose : bool;
  maxHistory : Z
}.

Record Config : Type := mkConfig {
  Host : gostring;
  Model : gostring;
  SystemPrompt : gostring;
  Verbose : bool;
  MaxHistory : Z
}.

(** [api.ChatRequest] as this [Chat] fills it; the temperature is the
    constant [0.7]. *)
Record ChatRequest : Type := mkChatRequest {
  req_Model : gostring;
  req_Messages : list Llm.Message;
  req_Stream : bool;
  opt_temperature : float64;
  opt_num_predict : Z;
  opt_num_ctx : Z
}.

Definition server : Type := ChatRequest -> result gostring gostring.

Definition set_history (c : Client) (h : list Llm.Message) : Client :=
  mkClient (client c) (model c) (systemPrompt c) h (verbose c)
           (maxHistory c).

Section NewClient.

Variable url_Parse : gostring -> result gostring gostring.

Definition NewClient (cfg : Config) : result gostring Client :=
  let maxHistory :=
    if MaxHistory cfg <=? 0 then 10 else MaxHistory cfg in
  let host := TrimSuffix (Host cfg) (runes "/") in
  match url_Parse host with
  | Err e => Err (runes "invalid host URL: " ++ e)
  | Ok parsedURL =>
      Ok (mkClient parsedURL (Model cfg) (SystemPrompt cfg) []
                   (Verbose cfg) maxHistory)
  end.

End NewClient.

(** [trimHistory]. *)
Definition trimHistory (c : Client) : run Client :=
  let maxMessages := wrap_int (maxHistory c * 2) in
  let n := Z.of_nat (length (history c)) in
  if n >? maxMessages then
    let lo := wrap_int (n - maxMessages) in
    if (lo <? 0) || (n <? lo) then Panics
    else Returns (set_history c (drop (Z.to_nat lo) (history c)))
  else Returns c.

(** [0.7] as a [float64]. *)
Definition temperature : float64 :=
  S754_finite false 6305039478318694 (-53).

(** [Chat]: the history is written after the request succeeded. *)
Definition Chat (srv : server) (c : Client) (userMessage : gostring)
  : run (result gostring gostring * Client) :=
  let messages := [] ++ [Llm.mkMessage (runes "system") (systemPrompt c)] in
  let messages := messages ++ history c in
  let messages := messages ++ [Llm.mkMessage (runes "user") userMessage] in
  let stream := false in
  match srv (mkChatRequest (model c) messages stream temperature 150 1024)
  with
  | Err e => Returns (Err (runes "chat request failed: " ++ e), c)
  | Ok content =>
      let finalResponse := TrimSpace content in
      let c1 :=
        set_history c
          (history c ++ [Llm.mkMessage (runes "user") userMessage]) in
      let c2 :=
        set_history c1
          (history c1
           ++ [Llm.mkMessage (runes "assistant") finalResponse]) in
      match trimHistory c2 with
      | Panics => Panics
      | Returns c3 => Returns (Ok finalResponse, c3)
      end
  end.

(** [ClearHistory]. *)
Definition ClearHistory (c : Client) : Client := set_history c [].

End LlmSeparatePrompt.

(** ** Package tts: synthesis *)

Module Synthesis.

(** [sherpa.GeneratedAudio] and [AudioOutput]. *)
Record GeneratedAudio : Type := mkGeneratedAudio {
  ga_Samples : list float32;
  ga_SampleRate : Z
}.

Record AudioOutput : Type := mkAudioOutput {
  Samples : list float32;
  SampleRate : Z
}.

(** [Synthesizer], without the engine handle and the mutex. *)
Record Synthesizer : Type := mkSynthesizer {
  sampleRate : Z;
  speakerID : Z;
  speed : float32;
  verbose : bool
}.

Section Engine.

(** [OfflineTts.Generate]: [None] is the [nil] audio. *)
Variable Generate : gostring -> Z -> float32 -> option GeneratedAudio.

(** [Synthesize]. *)
Definition Synthesize (s : Synthesizer) (text : gostring)
  : result gostring AudioOutput :=
  let text := TrimSpace text in
  match text with
  | [] => Err (runes "empty text")
  | _ :: _ =>
      match Generate text (speakerID s) (speed s) with
      | None => Err (runes "TTS generation failed")
      | Some audio =>
          if (length (ga_Samples audio) =? 0)%nat
          then Err (runes "TTS generation failed")
          else Ok (mkAudioOutput (ga_Samples audio) (ga_SampleRate audio))
      end
  end.

(** The loop of [SynthesizeStreaming] over the sentences. *)
Fixpoint synthesizeLoop (s : Synthesizer) (sentences : list gostring)
    (results : list AudioOutput) : list AudioOutput :=
  match sentences with
  | [] => results
  | sentence :: sentences' =>
      match sentence with
      | [] => synthesizeLoop s sentences' results
      | _ :: _ =>
          match Generate sentence (speakerID s) (speed s) with
          | None => synthesizeLoop s sentences' results
          | Some audio =>
              if (length (ga_Samples audio) =? 0)%nat
              then synthesizeLoop s sentences' results
              else synthesizeLoop s sentences'
                     (results ++ [mkAudioOutput (ga_Samples audio)
                                                (ga_SampleRate audio)])
          end
      end
  end.

(** [SynthesizeStreaming]. *)
Definition SynthesizeStreaming (s : Synthesizer) (text : gostring)
  : result gostring (list AudioOutput) :=
  let text := TrimSpace text in
  match text with
  | [] => Err (runes "empty text")
  | _ :: _ =>
      let sentences := Tts.SplitSentences text in
      if (length sentences =? 0)%nat
      then Err (runes "no sentences to synthesize")
      else
        match synthesizeLoop s sentences [] with
        | [] => Err (runes "TTS generation failed for all sentences")
        | results => Ok results
        end
  end.

(** What the engine gives for one sentence, when it gives something. *)
Definition generated (s : Synthesizer) (sentence : gostring)
  : option AudioOutput :=
  match Generate sentence (speakerID s) (speed s) with
  | None => None
  | Some audio =>
      if (length (ga_Samples audio) =? 0)%nat then None
      else Some (mkAudioOutput (ga_Samples audio) (ga_SampleRate audio))
  end.

End Engine.

End Synthesis.

(** ** Package main: the LLM loop *)

Module LlmLoop.

(** What one iteration of the loop of [llmProcessor] meets: the context
    is done, the input channel is closed, or a transcript arrives; for a
    transcript, [srv] is the remote end during the call of [Chat] and
    [delivered] tells whether the send on [out] went through before the
    context was done. *)
Inductive input : Type :=
  | CtxDone
  | InputClosed
  | Transcript (text : gostring) (srv : Llm.server) (delivered : bool).

(** [llmProcessor] over a sequence of inputs: the client and the
    messages sent to the TTS stage. *)
Fixpoint llmProcessor (c : Llm.Client) (out : list gostring)
    (inputs : list input) : run (Llm.Client * list gostring) :=
  match inputs with
  | [] => Returns (c, out)
  | CtxDone :: _ => Returns (c, out)
  | InputClosed :: _ => Returns (c, out)
  | Transcript text srv delivered :: inputs' =>
      match Llm.Chat srv c text with
      | Panics => Panics
      | Returns (Err _, c1) =>
          if delivered
          then llmProcessor c1
                 (out ++ [runes "I'm sorry, I encountered an error."])
                 inputs'
          else Returns (c1, out)
      | Returns (Ok response, c1) =>
          if delivered
          then llmProcessor c1 (out ++ [response]) inputs'
          else Returns (c1, out)
      end
  end.

(** The inputs of a run that is not cut short: transcripts only, each
    reply delivered. *)
Definition delivered_transcript (i : input) : Prop :=
  match i with
  | Transcript _ _ delivered => delivered = true
  | _ => False
  end.

(** What a run over delivered transcripts is to send: each transcript is
    put to [Chat] on the client as the transcripts before it left it, and
    is answered by [llmProcessor_reply] of the result of that call (the
    reply, or the apology if the request failed); the messages come in
    the order of the transcripts. *)
Inductive answers
  : Llm.Client -> list input -> list gostring -> Llm.Client -> Prop :=
  | answers_nil c : answers c [] [] c
  | answers_cons c text srv r c1 inputs messages c2 :
      Llm.Chat srv c text = Returns (r, c1) ->
      answers c1 inputs messages c2 ->
      answers c (Transcript text srv true :: inputs)
              (Main.llmProcessor_reply r :: messages) c2.

End LlmLoop.

(** ** Package sherpa: the substring test *)

Module Sherpa.

(** Here a string is the sequence of its bytes, which is what [len],
    indexing and slicing act on.  [s[i:j]] panics when the bounds are out
    of range. *)
Definition substring (s : list Z) (i j : Z) : run (list Z) :=
  if (0 <=? i) && (i <=? j) && (j <=? Z.of_nat (length s))
  then Returns (take (Z.to_nat (j - i)) (drop (Z.to_nat i) s))
  else Panics.

(** The loop of [findSubstring], at index [i]; [fuel] bounds the number
    of rounds, and [len(s) + 1] rounds are enough. *)
Fixpoint findLoop (s substr : list Z) (fuel : nat) (i : Z) : run bool :=
  match fuel with
  | O => Returns false
  | S fuel' =>
      if i <=? Z.of_nat (length s) - Z.of_nat (length substr) then
        match substring s i (i + Z.of_nat (length substr)) with
        | Panics => Panics
        | Returns w =>
            if bool_decide (w = substr) then Returns true
            else findLoop s substr fuel' (i + 1)
        end
      else Returns false
  end.

(** [findSubstring]. *)
Definition findSubstring (s substr : list Z) : run bool :=
  findLoop s substr (S (length s)) 0.

(** [contains], with the short-circuit evaluation of [&&] and [||]. *)
Definition contains (s substr : list Z) : run bool :=
  if Z.of_nat (length s) >=? Z.of_nat (length substr) then
    if bool_decide (s = substr) then Returns true
    else if Z.of_nat (length substr) =? 0 then Returns true
    else if (Z.of_nat (length s) >? 0) && (Z.of_nat (length substr) >? 0)
         then findSubstring s substr
         else Returns false
  else Returns false.

End Sherpa.

(** ** Package audio: a burst of captured chunks *)

Module CaptureBurst.

(** The audio callback pushes one chunk after the other; the ring after
    a sequence of chunks. *)
Definition pushes (rb : Capture.ringBuffer) (chunks : list (list float32))
  : Capture.ringBuffer :=
  fold_left (fun rb samples => Capture.ring (Capture.push rb samples))
            chunks rb.

End CaptureBurst.

(** ** Package audio: samples and bytes *)

Module SampleBytes.

(** [binary.LittleEndian.Uint32]. *)
Definition Uint32 (b : list Z) : run Z :=
  match b with
  | b0 :: b1 :: b2 :: b3 :: _ =>
      Returns (Z.lor (Z.lor (Z.lor b0 (Z.shiftl b1 8)) (Z.shiftl b2 16))
                     (Z.shiftl b3 24))
  | _ => Panics
  end.

(** The four bytes that [binary.LittleEndian.PutUint32] writes for
    [v]: [byte(v)], [byte(v >> 8)], [byte(v >> 16)], [byte(v >> 24)];
    [byte(x)] keeps the low eight bits. *)
Definition le_bytes (v : Z) : list Z :=
  [v mod 256; Z.shiftr v 8 mod 256; Z.shiftr v 16 mod 256;
   Z.shiftr v 24 mod 256].

(** [binary.LittleEndian.PutUint32]: the slice with its first four bytes
    rewritten. *)
Definition PutUint32 (b : list Z) (v : Z) : run (list Z) :=
  match b with
  | _ :: _ :: _ :: _ :: rest => Returns (le_bytes v ++ rest)
  | _ => Panics
  end.

(** [data[i:]]. *)
Definition from (data : list Z) (i : Z) : run (list Z) :=
  if (0 <=? i) && (i <=? Z.of_nat (length data))
  then Returns (drop (Z.to_nat i) data)
  else Panics.

(** The loop of [bytesToFloat32] over [range samples], at index [i] with
    [n] rounds to go.  [math.Float32frombits] keeps the bit pattern. *)
Fixpoint decodeLoop (data : list Z) (samples : list float32) (n : nat)
    (i : Z) : run (list float32) :=
  match n with
  | O => Returns samples
  | S n' =>
      match from data (i * 4) with
      | Panics => Panics
      | Returns d =>
          match Uint32 d with
          | Panics => Panics
          | Returns bits =>
              decodeLoop data (<[Z.to_nat i := bits]> samples) n' (i + 1)
          end
      end
  end.

(** [bytesToFloat32]; [pBuf] is the buffer that the pool hands out, with
    whatever an earlier call left in it (its capacity is its length). *)
Definition bytesToFloat32 (pBuf : list float32) (data : list Z)
  : run (list float32) :=
  let numSamples := Z.of_nat (length data) ÷ 4 in
  let pBuf :=
    if Z.of_nat (length pBuf) <? numSamples then Capture.make numSamples
    else pBuf in
  let samples := take (Z.to_nat numSamples) pBuf in
  decodeLoop data samples (length samples) 0.

(** The little-endian words of a byte sequence, four bytes at a time; a
    rest of fewer than four bytes stands for nothing. *)
Fixpoint words (data : list Z) : list Z :=
  match data with
  | b0 :: b1 :: b2 :: b3 :: rest =>
      Z.lor (Z.lor (Z.lor b0 (Z.shiftl b1 8)) (Z.shiftl b2 16))
            (Z.shiftl b3 24)
      :: words rest
  | _ => []
  end.

End SampleBytes.

(** ** Package audio: the playback ring *)

Module Playback.

Definition playbackRingSize : Z := 524288.

(** [playbackRing]: the array of samples and the two [atomic.Uint64]
    positions. *)
Record playbackRing : Type := mkPlaybackRing {
  samples : list float32;
  head : Z;
  tail : Z
}.

(** The loop of [push], at index [i] with [n] rounds to go:
    [rb.samples[(head+uint64(i))%playbackRingSize] = samples[i]].  The
    index [i] stays below [toWrite], which is at most [len(samples)]. *)
Fixpoint write (buf : list float32) (head0 : Z) (src : list float32)
    (n : nat) (i : Z) : list float32 :=
  match n with
  | O => buf
  | S n' =>
      write (<[Z.to_nat (wrap_uint64 (head0 + i) mod playbackRingSize)
               := src !!! Z.to_nat i]> buf)
            head0 src n' (i + 1)
  end.

(** [push]: the number of samples written and the ring. *)
Definition push (rb : playbackRing) (src : list float32)
  : Z * playbackRing :=
  let head0 := head rb in
  let tail0 := tail rb in
  let available :=
    wrap_int (playbackRingSize - wrap_int (wrap_uint64 (head0 - tail0))) in
  let toWrite := Z.of_nat (length src) in
  let toWrite := if toWrite >? available then available else toWrite in
  let buf := write (samples rb) head0 src (Z.to_nat toWrite) 0 in
  (toWrite,
   mkPlaybackRing buf (wrap_uint64 (head0 + wrap_uint64 toWrite)) tail0).

(** [pop]: the sample, whether there was one, and the ring. *)
Definition pop (rb : playbackRing) : float32 * bool * playbackRing :=
  if head rb =? tail rb then (0, false, rb)
  else
    (samples rb !!! Z.to_nat (tail rb mod playbackRingSize), true,
     mkPlaybackRing (samples rb) (head rb) (wrap_uint64 (tail rb + 1))).

(** [isEmpty] and [clear]. *)
Definition isEmpty (rb : playbackRing) : bool := head rb =? tail rb.

Definition clear (rb : playbackRing) : playbackRing :=
  mkPlaybackRing (samples rb) (head rb) (head rb).

(** The state invariant: an array of [playbackRingSize] samples,
    positions in the [uint64] range, and no more unread samples than the
    array holds. *)
Definition occupancy (rb : playbackRing) : Z :=
  wrap_uint64 (head rb - tail rb).

Definition wf (rb : playbackRing) : Prop :=
  Z.of_nat (length (samples rb)) = playbackRingSize
  /\ 0 <= head rb < 2 ^ 64
  /\ 0 <= tail rb < 2 ^ 64
  /\ occupancy rb <= playbackRingSize.

(** The unread samples, oldest first. *)
Definition unread (rb : playbackRing) : list float32 :=
  map (fun k =>
         samples rb
           !!! Z.to_nat ((tail rb + Z.of_nat k) mod playbackRingSize))
      (seq 0 (Z.to_nat (occupancy rb))).

(** The data callback of the playback device ([onSendFrames]).
    [pOutputSample[i*4:]] is rewritten in place; [math.Float32bits] keeps
    the bit pattern. *)
Definition put_at (out : list Z) (i : Z) (v : Z) : run (list Z) :=
  match SampleBytes.from out i with
  | Panics => Panics
  | Returns b =>
      match SampleBytes.PutUint32 b v with
      | Panics => Panics
      | Returns b' => Returns (take (Z.to_nat i) out ++ b')
      end
  end.

(** The loop over the frames, at frame [i] with [n] frames to go. *)
Fixpoint sendLoop (interrupted : bool) (rb : playbackRing) (out : list Z)
    (n : nat) (i : Z) : run (playbackRing * list Z) :=
  match n with
  | O => Returns (rb, out)
  | S n' =>
      let '(sample, rb1) :=
        if negb interrupted then
          let '(s, ok, rb1) := pop rb in
          (if ok then s else 0, rb1)
        else (0, rb) in
      match put_at out (i * 4) sample with
      | Panics => Panics
      | Returns out1 => sendLoop interrupted rb1 out1 n' (i + 1)
      end
  end.

(** What the callback shares with [Play]: the ring, the flag [playing]
    and the completion channel (capacity 1; [true] when it holds a
    signal). *)
Record shared : Type := mkShared {
  ring : playbackRing;
  playing : bool;
  completeChan : bool
}.

(** [onSendFrames]; [interrupted] is what the two interrupt flags give
    when the callback starts. *)
Definition onSendFrames (interrupted : bool) (st : shared) (out : list Z)
    (framecount : Z) : run (shared * list Z) :=
  match sendLoop interrupted (ring st) out (Z.to_nat (wrap_int framecount)) 0
  with
  | Panics => Panics
  | Returns (rb, out') =>
      if isEmpty rb || interrupted
      then Returns (mkShared rb false true, out')
      else Returns (mkShared rb (playing st) (completeChan st), out')
  end.

(** What a callback of [n] frames plays: the oldest unread samples and,
    when they run out or the playback is interrupted, silence. *)
Definition played (interrupted : bool) (rb : playbackRing) (n : nat) : nat :=
  if interrupted then 0%nat else Nat.min n (length (unread rb)).

Definition frames (interrupted : bool) (rb : playbackRing) (n : nat)
  : list float32 :=
  take (played interrupted rb n) (unread rb)
  ++ replicate (n - played interrupted rb n) 0.

(** [n] calls of [pop] in a row, with the samples they returned. *)
Fixpoint pops (n : nat) (rb : playbackRing)
  : list (float32 * bool) * playbackRing :=
  match n with
  | O => ([], rb)
  | S n' =>
      let '(s, ok, rb1) := pop rb in
      let '(xs, rb2) := pops n' rb1 in
      ((s, ok) :: xs, rb2)
  end.

End Playback.

(** ** Package audio: the linear resampler and the one-call entry points *)

Module Linear.

(** [Resampler]: the rates are kept as [float64]. *)
Record Resampler : Type := mkResampler {
  fromRate : float64;
  toRate : float64;
  ratio : float64;
  lastSample : float32
}.

(** [NewResampler]. *)
Definition NewResampler (fromRate toRate : Z) : Resampler :=
  let ratio := float64_div (float64_of_int toRate) (float64_of_int fromRate) in
  mkResampler (float64_of_int fromRate) (float64_of_int toRate) ratio 0.

Definition with_lastSample (r : Resampler) (x : float32) : Resampler :=
  mkResampler (fromRate r) (toRate r) (ratio r) x.

Section Float32.

Variables f32_add f32_sub f32_mul : float32 -> float32 -> float32.
Variable float32_of_float64 : float64 -> float32.

(** The body of the loop of [Resample]: the value stored at
    [output[i]]. *)
Definition interpolate (r : Resampler) (input : list float32) (i : Z)
  : Polyphase.outcome float32 :=
  let inputLen := Z.of_nat (length input) in
  let srcPos := float64_div (float64_of_int i) (ratio r) in
  Polyphase.bind (Polyphase.to_int srcPos) (fun srcIdx =>
  let frac :=
    float32_of_float64 (float64_sub srcPos (float64_of_int srcIdx)) in
  Polyphase.bind
    (if srcIdx <? inputLen then Polyphase.index input srcIdx
     else Polyphase.Done (lastSample r)) (fun sample1 =>
  Polyphase.bind
    (if wrap_int (srcIdx + 1) <? inputLen
     then Polyphase.index input (wrap_int (srcIdx + 1))
     else if srcIdx <? inputLen
          then Polyphase.index input (inputLen - 1)
          else Polyphase.Done sample1) (fun sample2 =>
  Polyphase.Done
    (f32_add sample1 (f32_mul (f32_sub sample2 sample1) frac))))).

(** [Resampler.Resample]. *)
Definition Resample (r : Resampler) (input : list float32)
  : Polyphase.outcome (list float32 * Resampler) :=
  if SFeqb (ratio r) float64_one then Polyphase.Done (input, r)
  else
    let inputLen := Z.of_nat (length input) in
    if inputLen =? 0 then Polyphase.Done (input, r)
    else
      Polyphase.bind
        (Polyphase.to_int
           (float64_mul (float64_of_int inputLen) (ratio r)))
        (fun outputLen =>
      Polyphase.bind (Polyphase.makeslice outputLen) (fun output =>
      Polyphase.bind
        (Polyphase.assign (interpolate r input) (Z.to_nat outputLen) 0
                          output) (fun output =>
      if 0 <? inputLen
      then Polyphase.bind (Polyphase.index input (inputLen - 1)) (fun x =>
           Polyphase.Done (output, with_lastSample r x))
      else Polyphase.Done (output, r)))).

(** [ResampleInPlace]. *)
Definition ResampleInPlace (input : list float32) (fromRate toRate : Z)
  : Polyphase.outcome (list float32) :=
  if fromRate =? toRate then Polyphase.Done input
  else
    Polyphase.bind (Resample (NewResampler fromRate toRate) input)
                   (fun p => Polyphase.Done p.1).

End Float32.

End Linear.

Module Resampling.

Section Float32.

Variables f32_add f32_sub f32_mul f32_div : float32 -> float32 -> float32.
Variable float32_of_float64 : float64 -> float32.
Variable windowedSinc : float64 -> float64 -> Z -> float64.

(** [ResamplePolyphase]. *)
Definition ResamplePolyphase (input : list float32) (fromRate toRate : Z)
  : Polyphase.outcome (list float32) :=
  if fromRate =? toRate then Polyphase.Done input
  else if toRate <? fromRate then
    Polyphase.bind
      (Polyphase.Resample f32_add f32_sub f32_mul float32_of_float64
         (Polyphase.NewPolyphaseResampler f32_add f32_div float32_of_float64
                                          windowedSinc fromRate toRate)
         input)
      (fun p => Polyphase.Done p.1)
  else
    Linear.ResampleInPlace f32_add f32_sub f32_mul float32_of_float64
                           input fromRate toRate.

End Float32.

End Resampling.

(** ** Package main: the TTS loop *)

Module TtsLoop.

(** The calls that an iteration of [ttsProcessor] makes, in order:
    [capturer.Pause], [capturer.Resume], [time.Sleep], [player.Play] and
    [drainChannel] on the input channel.  [Play] is the call only: what
    [player.Play] does with the buffer, with its ring and with the
    interrupt flag (which it polls itself, in every mode) is not part of
    this model. *)
Inductive event : Type :=
  | Pause
  | Resume
  | Sleep (d : Z)
  | Play (samples : list float32) (sampleRate : Z)
  | Drain.

(** The fields of [config.Config] that the loop reads. *)
Record Config : Type := mkConfig {
  InterruptMode : Z;
  PostPlaybackDelayMs : Z
}.

Section Run.

Variable Generate : gostring -> Z -> float32 -> option Synthesis.GeneratedAudio.

(** The interrupt flag is written by other goroutines: [interrupt k] is
    what the [k]-th [Load] that [ttsProcessor] itself makes returns. *)
Variable interrupt : nat -> bool.

(** The error that [player.Play] returns ([None] is [nil]). *)
Variable playError : list float32 -> Z -> option gostring.

(** [cfg.InterruptMode == config.InterruptAlways && interrupt.Load()],
    with [loads] loads of the flag made by [ttsProcessor] before: the
    value, and the number of its loads afterwards ([&&] does not load in
    the other mode). *)
Definition interrupted (cfg : Config) (loads : nat) : bool :=
  (InterruptMode cfg =? InterruptMode.InterruptAlways) && interrupt loads.

Definition loaded (cfg : Config) (loads : nat) : nat :=
  if InterruptMode cfg =? InterruptMode.InterruptAlways then S loads
  else loads.

(** [time.Duration(cfg.PostPlaybackDelayMs) * time.Millisecond]. *)
Definition delay (cfg : Config) : Z :=
  wrap_int (PostPlaybackDelayMs cfg * 1000000).

(** The loop over the sentences: [wasInterrupted], the loads of the flag
    and the events so far. *)
Fixpoint sentenceLoop (s : Synthesis.Synthesizer) (cfg : Config)
    (sentences : list gostring) (loads : nat) (trace : list event)
  : bool * nat * list event :=
  match sentences with
  | [] => (false, loads, trace)
  | sentence :: sentences' =>
      match sentence with
      | [] => sentenceLoop s cfg sentences' loads trace
      | _ :: _ =>
          if interrupted cfg loads then (true, loaded cfg loads, trace)
          else
            let loads := loaded cfg loads in
            match Synthesis.Synthesize Generate s sentence with
            | Err _ => sentenceLoop s cfg sentences' loads trace
            | Ok chunk =>
                let trace :=
                  trace ++ [Play (Synthesis.Samples chunk)
                                 (Synthesis.SampleRate chunk)] in
                match playError (Synthesis.Samples chunk)
                                (Synthesis.SampleRate chunk) with
                | Some _ => (true, loads, trace)
                | None =>
                    if interrupted cfg loads
                    then (true, loaded cfg loads, trace)
                    else sentenceLoop s cfg sentences' (loaded cfg loads)
                                      trace
                end
            end
      end
  end.

(** The body of the loop of [ttsProcessor] for a text received from the
    input channel: the calls it makes, and the number of its own loads of
    the flag afterwards. *)
Definition ttsProcessor_iteration (s : Synthesis.Synthesizer) (cfg : Config)
    (text : gostring) (loads : nat) : list event * nat :=
  if interrupted cfg loads then ([Drain], loaded cfg loads)
  else
    let loads := loaded cfg loads in
    let trace :=
      if InterruptMode cfg =? InterruptMode.InterruptWait then [Pause]
      else [] in
    let sentences := Tts.SplitSentences text in
    if (length sentences =? 0)%nat
    then
      (if InterruptMode cfg =? InterruptMode.InterruptWait
       then trace ++ [Sleep (delay cfg); Resume]
       else trace, loads)
    else
      let '(wasInterrupted, loads, trace) :=
        sentenceLoop s cfg sentences loads trace in
      let trace :=
        if InterruptMode cfg =? InterruptMode.InterruptWait
        then trace ++ [Sleep (delay cfg); Resume]
        else trace in
      let trace :=
        if wasInterrupted
           && (InterruptMode cfg =? InterruptMode.InterruptAlways)
        then trace ++ [Drain]
        else trace in
      (trace, loads).

(** The chunks of the sentences that synthesize, the call of
    [player.Play] on one, and a call that returns no error. *)
Definition chunks (s : Synthesis.Synthesizer) (sentences : list gostring)
  : list Synthesis.AudioOutput :=
  omap (fun sentence =>
          match Synthesis.Synthesize Generate s sentence with
          | Ok chunk => Some chunk
          | Err _ => None
          end) sentences.

Definition playing (chunk : Synthesis.AudioOutput) : event :=
  Play (Synthesis.Samples chunk) (Synthesis.SampleRate chunk).

Definition plays (chunk : Synthesis.AudioOutput) : Prop :=
  playError (Synthesis.Samples chunk) (Synthesis.SampleRate chunk) = None.

End Run.

End TtsLoop.

(** ** Package audio: the capturer *)

Module Capturer.

(** [Capturer]: the rates, whether a handler was given ([onSamples] is
    not [nil]), the [running] flag, the ring and the resampler ([None] is
    [nil]). *)
Record Capturer : Type := mkCapturer {
  sampleRate : Z;
  deviceSampleRate : Z;
  onSamples : bool;
  running : bool;
  ringBuf : Capture.ringBuffer;
  resampler : option Polyphase.PolyphaseResampler
}.

Definition with_running (c : Capturer) (b : bool) : Capturer :=
  mkCapturer (sampleRate c) (deviceSampleRate c) (onSamples c) b
             (ringBuf c) (resampler c).

Definition with_ringBuf (c : Capturer) (rb : Capture.ringBuffer)
  : Capturer :=
  mkCapturer (sampleRate c) (deviceSampleRate c) (onSamples c) (running c)
             rb (resampler c).

Definition with_resampler (c : Capturer)
    (r : option Polyphase.PolyphaseResampler) : Capturer :=
  mkCapturer (sampleRate c) (deviceSampleRate c) (onSamples c) (running c)
             (ringBuf c) r.

(** [Pause] and [Resume]. *)
Definition Pause (c : Capturer) : Capturer := with_running c false.
Definition Resume (c : Capturer) : Capturer := with_running c true.

(** The audio callback [onRecvFrames] that [Start] installs; [pBuf] is
    the buffer that the pool hands out. *)
Definition onRecvFrames (c : Capturer) (pBuf : list float32)
    (pInputSamples : list Z) : run Capturer :=
  if negb (running c) then Returns c
  else
    match SampleBytes.bytesToFloat32 pBuf pInputSamples with
    | Panics => Panics
    | Returns pooledSamples =>
        if 0 <? Z.of_nat (length pooledSamples)
        then Returns
               (with_ringBuf c
                  (Capture.ring (Capture.push (ringBuf c) pooledSamples)))
        else Returns c
    end.

Section Float32.

Variables f32_add f32_sub f32_mul : float32 -> float32 -> float32.
Variable float32_of_float64 : float64 -> float32.

(** One round of the loop of [processLoop] while [stopChan] is open: the
    capturer afterwards and what was handed to [onSamples]; [None] is a
    round that slept instead. *)
Definition processLoop_round (c : Capturer)
  : Polyphase.outcome (Capturer * option (list float32)) :=
  let '(samples, rb) := Capture.pop (ringBuf c) in
  let c := with_ringBuf c rb in
  match samples with
  | Some samples =>
      if onSamples c && running c then
        let samplesCopy :=
          (Capture.copy (Capture.make (Z.of_nat (length samples)))
                        samples).1 in
        match resampler c with
        | Some r =>
            Polyphase.bind
              (Polyphase.Resample f32_add f32_sub f32_mul float32_of_float64
                                  r samplesCopy)
              (fun p =>
                 Polyphase.Done (with_resampler c (Some p.2), Some p.1))
        | None =>
            if negb (deviceSampleRate c =? sampleRate c)
            then
              Polyphase.bind
                (Linear.ResampleInPlace f32_add f32_sub f32_mul
                   float32_of_float64 samplesCopy (deviceSampleRate c)
                   (sampleRate c))
                (fun out => Polyphase.Done (c, Some out))
            else Polyphase.Done (c, Some samplesCopy)
        end
      else Polyphase.Done (c, None)
  | None => Polyphase.Done (c, None)
  end.

(** [n] rounds in a row. *)
Fixpoint processLoop_rounds (n : nat) (c : Capturer)
  : Polyphase.outcome (Capturer * list (option (list float32))) :=
  match n with
  | O => Polyphase.Done (c, [])
  | S n' =>
      Polyphase.bind (processLoop_round c) (fun p =>
      Polyphase.bind (processLoop_rounds n' p.1) (fun q =>
      Polyphase.Done (q.1, p.2 :: q.2)))
  end.

End Float32.

End Capturer.

(* ===================================================================== *)
(** * Part II: lemmas and theorems                                        *)
(* ===================================================================== *)

(** ** Machine integers *)

Lemma wrap_int_small z : - 2 ^ 63 <= z < 2 ^ 63 -> wrap_int z = z.
Proof.
  intros H. unfold wrap_int.
  rewrite Z.mod_small by lia. lia.
Qed.

(** ** Package llm *)

Section LlmFacts.
Import Llm.

Variable url_Parse : gostring -> result gostring gostring.

(** What [NewClient] builds when the host URL parses. *)
Lemma NewClient_Ok cfg c :
  NewClient url_Parse cfg = Ok c ->
  maxHistory c = (if MaxHistory cfg <=? 0 then 10 else MaxHistory cfg)
  /\ history c = [mkMessage (runes "system") (SystemPrompt cfg)].
Proof.
  unfold NewClient. destruct (url_Parse _); [|discriminate].
  intros [= <-]. split; reflexivity.
Qed.

Lemma NewClient_returns cfg u :
  url_Parse (TrimSuffix (Host cfg) (runes "/")) = Ok u ->
  exists c, NewClient url_Parse cfg = Ok c.
Proof. intros H. unfold NewClient. rewrite H. eauto. Qed.

(** [trimHistory] without overflow: the history is cut to the system
    turn and the last [2 * maxHistory] turns. *)
Lemma trimHistory_spec c sys rest :
  1 <= maxHistory c < 2 ^ 62 ->
  Z.of_nat (length (history c)) - 2 * maxHistory c <= MaxInt ->
  history c = sys :: rest ->
  trimHistory c =
    Returns
      (if Z.of_nat (length (history c)) >? 1 + 2 * maxHistory c
       then set_history c
              (sys :: drop (length (history c) - Z.to_nat (2 * maxHistory c))
                        (history c))
       else c).
Proof.
  unfold MaxInt. intros HM Hlen Hh. unfold trimHistory.
  rewrite (wrap_int_small (maxHistory c * 2)) by lia.
  rewrite (wrap_int_small (1 + _)) by lia.
  replace (maxHistory c * 2) with (2 * maxHistory c) by lia.
  destruct (Z.of_nat (length (history c)) >? 1 + 2 * maxHistory c) eqn:Hgt;
    [|reflexivity].
  apply Z.gtb_lt in Hgt.
  rewrite Hh at 1.
  rewrite wrap_int_small by lia.
  rewrite (proj2 (Z.ltb_ge _ 0)) by lia.
  rewrite (proj2 (Z.ltb_ge _ _)) by lia.
  replace (Z.to_nat (Z.of_nat (length (history c)) - 2 * maxHistory c))
    with (length (history c) - Z.to_nat (2 * maxHistory c))%nat by lia.
  reflexivity.
Qed.

Lemma trimHistory_pinned sys M c :
  1 <= M < 2 ^ 62 ->
  pinned sys M c ->
  Z.of_nat (length (history c)) - 2 * M <= MaxInt ->
  exists c',
    trimHistory c = Returns c'
    /\ pinned sys M c'
    /\ Z.of_nat (length (history c'))
       = Z.min (Z.of_nat (length (history c))) (1 + 2 * M).
Proof.
  intros HM [HM' [rest Hh]] Hlen. subst M.
  rewrite (trimHistory_spec c sys rest) by assumption.
  destruct (_ >? _) eqn:Hgt.
  - apply Z.gtb_lt in Hgt.
    eexists. split; [reflexivity|]. split.
    + split; [reflexivity|]. simpl. eauto.
    + simpl. rewrite length_drop. lia.
  - assert (Z.of_nat (length (history c)) <= 1 + 2 * maxHistory c).
    { destruct (Z.gtb_spec (Z.of_nat (length (history c)))
                           (1 + 2 * maxHistory c)); [discriminate|lia]. }
    exists c. split; [reflexivity|]. split; [split; eauto|lia].
Qed.

(** A failing request: [Chat] returns the error after the user turn was
    appended, and nothing takes it back. *)
Lemma Chat_Err srv c userMessage e :
  srv (mkChatRequest (model c)
         (history c ++ [mkMessage (runes "user") userMessage])
         false (temperature c) 150 1024) = Err e ->
  Chat srv c userMessage =
    Returns (Err (runes "chat request failed: " ++ e),
             set_history c
               (history c ++ [mkMessage (runes "user") userMessage])).
Proof. intros H. unfold Chat. simpl. rewrite H. reflexivity. Qed.

(** A successful request, seen from the result of [Chat]. *)
Lemma Chat_Ok_inv srv c userMessage reply c' :
  Chat srv c userMessage = Returns (Ok reply, c') ->
  exists content,
    reply = TrimSpace content
    /\ trimHistory
         (set_history c
            (history c ++ [mkMessage (runes "user") userMessage;
                           mkMessage (runes "assistant") reply]))
       = Returns c'.
Proof.
  unfold Chat. simpl. destruct (srv _) as [content|e]; [|discriminate].
  rewrite <- app_assoc. simpl.
  destruct (trimHistory _) as [c3|] eqn:Ht; [|discriminate].
  intros [= <- <-]. eauto.
Qed.

Lemma Chat_step sys M srv c userMessage reply c' :
  1 <= M < 2 ^ 62 ->
  pinned sys M c ->
  Z.of_nat (length (history c)) <= 1 + 2 * M ->
  Chat srv c userMessage = Returns (Ok reply, c') ->
  pinned sys M c'
  /\ Z.of_nat (length (history c'))
     = Z.min (Z.of_nat (length (history c)) + 2) (1 + 2 * M).
Proof.
  intros HM [HM' [rest Hh]] Hlen HChat.
  apply Chat_Ok_inv in HChat as [content [-> Ht]].
  set (c2 := set_history c _) in Ht.
  assert (Hp : pinned sys M c2).
  { split; [exact HM'|]. subst c2. simpl. rewrite Hh. simpl. eauto. }
  assert (Hl : Z.of_nat (length (history c2))
               = Z.of_nat (length (history c)) + 2).
  { subst c2. simpl. rewrite length_app. simpl. lia. }
  destruct (trimHistory_pinned sys M c2 HM Hp) as [c3 [Ht' [Hp' Hl']]].
  { unfold MaxInt. lia. }
  rewrite Ht in Ht'. injection Ht' as <-.
  split; [exact Hp'|]. lia.
Qed.

(** [Chat] does not panic on a client that satisfies the invariant. *)
Lemma Chat_returns sys M srv c userMessage :
  1 <= M < 2 ^ 62 ->
  pinned sys M c ->
  Z.of_nat (length (history c)) <= 1 + 2 * M ->
  exists r c', Chat srv c userMessage = Returns (r, c').
Proof.
  intros HM [HM' [rest Hh]] Hlen. unfold Chat. simpl.
  destruct (srv _) as [content|e]; [|eauto].
  set (c2 := set_history _ _).
  destruct (trimHistory_pinned sys M c2 HM) as [c3 [Ht _]].
  - split; [exact HM'|]. subst c2. simpl. rewrite Hh. simpl. eauto.
  - subst c2. simpl. rewrite !length_app. simpl. unfold MaxInt. lia.
  - rewrite Ht. eauto.
Qed.

Lemma successful_turns_length sys M c K c' :
  1 <= M < 2 ^ 62 ->
  pinned sys M c ->
  Z.of_nat (length (history c)) <= 1 + 2 * M ->
  successful_turns c K c' ->
  pinned sys M c'
  /\ Z.of_nat (length (history c'))
     = Z.min (Z.of_nat (length (history c)) + 2 * Z.of_nat K) (1 + 2 * M).
Proof.
  intros HM Hp Hlen Hturns. induction Hturns as [c|c srv msg reply c1 K c2 HChat _ IH].
  - split; [exact Hp|lia].
  - destruct (Chat_step sys M srv c msg reply c1 HM Hp Hlen HChat)
      as [Hp1 Hl1].
    destruct (IH Hp1) as [Hp2 Hl2]; [lia|].
    split; [exact Hp2|]. lia.
Qed.

(** The history over successful turns, for the bounds that do not
    overflow.  After [K] successful chat turns on a freshly constructed
    client whose bound [M = MaxHistory] is at least 1 and small enough for
    [1 + 2 * M] to be an [int], the history holds
    [min (1 + 2 * K) (1 + 2 * M)] turns and its first turn is the system
    turn the client was built with; from such a state [Chat] returns
    (with the reply when the request succeeds), and [trimHistory] and
    [ClearHistory] return and keep the turn at index 0. *)
Theorem history_after_successful_turns cfg c0 K c :
  1 <= MaxHistory cfg ->
  1 + 2 * MaxHistory cfg <= MaxInt ->
  NewClient url_Parse cfg = Ok c0 ->
  successful_turns c0 K c ->
  Z.of_nat (length (history c))
    = Z.min (1 + 2 * Z.of_nat K) (1 + 2 * MaxHistory cfg)
  /\ history c !! 0%nat = Some (mkMessage (runes "system") (SystemPrompt cfg))
  /\ (forall srv userMessage,
        exists r c',
          Chat srv c userMessage = Returns (r, c')
          /\ forall content,
               srv (mkChatRequest (model c)
                      (history c ++ [mkMessage (runes "user") userMessage])
                      false (temperature c) 150 1024) = Ok content ->
               r = Ok (TrimSpace content))
  /\ (exists c', trimHistory c = Returns c'
                 /\ history c' !! 0%nat = history c !! 0%nat)
  /\ (exists c', ClearHistory c = Returns c'
                 /\ history c' !! 0%nat = history c !! 0%nat).
Proof.
  unfold MaxInt. intros HM1 HM2 HNew Hturns.
  set (sys := mkMessage (runes "system") (SystemPrompt cfg)).
  set (M := MaxHistory cfg) in *.
  assert (HM : 1 <= M < 2 ^ 62) by lia.
  destruct (NewClient_Ok cfg c0 HNew) as [Hmax Hhist].
  assert (Hp0 : pinned sys M c0).
  { split.
    - rewrite Hmax. fold M. destruct (Z.leb_spec M 0); [lia|reflexivity].
    - rewrite Hhist. exists []. reflexivity. }
  assert (Hl0 : Z.of_nat (length (history c0)) = 1) by (rewrite Hhist; reflexivity).
  destruct (successful_turns_length sys M c0 K c HM Hp0) as [Hp Hl];
    [lia|exact Hturns|].
  rewrite Hl0 in Hl.
  assert (Hle : Z.of_nat (length (history c)) <= 1 + 2 * M) by lia.
  destruct Hp as [HMc [rest Hh]].
  assert (Hp : pinned sys M c) by (split; eauto).
  split; [exact Hl|]. split; [rewrite Hh; reflexivity|]. split; [|split].
  - intros srv userMessage.
    destruct (Chat_returns sys M srv c userMessage HM Hp Hle)
      as [r [c' HChat]].
    exists r, c'. split; [exact HChat|].
    intros content Hsrv. revert HChat. unfold Chat. simpl. rewrite Hsrv.
    destruct (trimHistory _); [|discriminate]. congruence.
  - destruct (trimHistory_pinned sys M c HM Hp) as [c' [Ht [[_ [rest' Hh']] _]]].
    { unfold MaxInt. lia. }
    exists c'. split; [exact Ht|]. rewrite Hh, Hh'. reflexivity.
  - unfold ClearHistory. rewrite Hh. eexists. split; reflexivity.
Qed.

(** C2.  What the code does when the request fails: [Chat] returns the
    error, and the history has grown by the user turn of the failing
    exchange (no assistant turn is written). *)
Theorem Chat_failure_keeps_user_turn srv c userMessage e :
  srv (mkChatRequest (model c)
         (history c ++ [mkMessage (runes "user") userMessage])
         false (temperature c) 150 1024) = Err e ->
  exists err c',
    Chat srv c userMessage = Returns (Err err, c')
    /\ history c' = history c ++ [mkMessage (runes "user") userMessage]
    /\ history c' <> history c.
Proof.
  intros H. rewrite (Chat_Err srv c userMessage e H).
  eexists _, _. split; [reflexivity|]. split; [reflexivity|].
  simpl. intros Heq. apply (f_equal length) in Heq.
  rewrite length_app in Heq. simpl in Heq. lia.
Qed.

(** The default bound over successful turns.  [NewClient] replaces a
    [MaxHistory] of 0 or less by 10, so that the history never exceeds 21
    turns over successful chat turns, and keeps a positive [MaxHistory] as
    it is. *)
Theorem NewClient_effective_maxHistory cfg u :
  url_Parse (TrimSuffix (Host cfg) (runes "/")) = Ok u ->
  exists c,
    NewClient url_Parse cfg = Ok c
    /\ (MaxHistory cfg <= 0 ->
        maxHistory c = 10
        /\ forall K c', successful_turns c K c' ->
                        Z.of_nat (length (history c')) <= 1 + 2 * 10)
    /\ (0 < MaxHistory cfg -> maxHistory c = MaxHistory cfg).
Proof.
  intros Hu. destruct (NewClient_returns cfg u Hu) as [c HNew].
  exists c. split; [exact HNew|].
  destruct (NewClient_Ok cfg c HNew) as [Hmax Hhist].
  split.
  - intros Hle. rewrite (proj2 (Z.leb_le _ _) Hle) in Hmax.
    split; [exact Hmax|]. intros K c' Hturns.
    destruct (successful_turns_length
                (mkMessage (runes "system") (SystemPrompt cfg)) 10 c K c')
      as [_ Hl]; try assumption; try lia.
    + split; [exact Hmax|]. rewrite Hhist. exists []. reflexivity.
    + rewrite Hhist. simpl. lia.
  - intros Hlt. rewrite Hmax.
    destruct (Z.leb_spec (MaxHistory cfg) 0); [lia|reflexivity].
Qed.

End LlmFacts.

(** A run of the client used to exercise the theorems above: the bound is
    one pair, the server answers twice. *)
Lemma history_after_successful_turns_witness :
  exists c0 c,
    Llm.NewClient Ok
      (Llm.mkConfig (runes "http://localhost:11434/") (runes "gemma3:1b")
                    (runes "Be brief.") false 1 0) = Ok c0
    /\ Llm.successful_turns c0 2 c
    /\ Z.of_nat (length (Llm.history c)) = 3
    /\ Llm.history c !! 0%nat
       = Some (Llm.mkMessage (runes "system") (runes "Be brief.")).
Proof.
  set (cfg := Llm.mkConfig (runes "http://localhost:11434/")
                (runes "gemma3:1b") (runes "Be brief.") false 1 0).
  set (srv := (fun _ => Ok (runes " Sure. ")) : Llm.server).
  destruct (Llm.NewClient Ok cfg) as [c0|] eqn:HNew; [|discriminate HNew].
  destruct (Llm.Chat srv c0 (runes "hi")) as [[[r1|] c1]|] eqn:H1;
    try (vm_compute in HNew; injection HNew as <-; discriminate H1).
  destruct (Llm.Chat srv c1 (runes "again")) as [[[r2|] c2]|] eqn:H2;
    try (vm_compute in HNew; injection HNew as <-;
         vm_compute in H1; injection H1 as <- <-; discriminate H2).
  assert (Hturns : Llm.successful_turns c0 2 c2).
  { eapply Llm.turns_chat; [exact H1|].
    eapply Llm.turns_chat; [exact H2|]. apply Llm.turns_done. }
  exists c0, c2. split; [reflexivity|]. split; [exact Hturns|].
  destruct (history_after_successful_turns Ok cfg c0 2 c2) as [Hl [Hs _]];
    [simpl; lia|unfold MaxInt; simpl; lia|exact HNew|exact Hturns|].
  split; [exact Hl|exact Hs].
Defined.

Lemma Chat_failure_keeps_user_turn_witness :
  let c := Llm.mkClient (runes "http://localhost:11434") (runes "gemma3:1b")
             [Llm.mkMessage (runes "system") (runes "Be brief.")] false 10 0 in
  exists err c',
    Llm.Chat (fun _ => Err (runes "timeout")) c (runes "what time is it")
      = Returns (Err err, c')
    /\ Llm.history c'
       = [Llm.mkMessage (runes "system") (runes "Be brief.");
          Llm.mkMessage (runes "user") (runes "what time is it")]
    /\ Llm.history c' <> Llm.history c.
Proof.
  intros c.
  exact (Chat_failure_keeps_user_turn (fun _ => Err (runes "timeout")) c
           (runes "what time is it") (runes "timeout") eq_refl).
Defined.

Lemma NewClient_effective_maxHistory_witness :
  exists c,
    Llm.NewClient Ok
      (Llm.mkConfig (runes "http://localhost:11434/") (runes "gemma3:1b")
                    (runes "Be brief.") false (-3) 0) = Ok c
    /\ Llm.maxHistory c = 10.
Proof.
  destruct (NewClient_effective_maxHistory Ok
              (Llm.mkConfig (runes "http://localhost:11434/")
                 (runes "gemma3:1b") (runes "Be brief.") false (-3) 0)
              (runes "http://localhost:11434") eq_refl)
    as [c [HNew [Hdefault _]]].
  exists c. split; [exact HNew|]. apply Hdefault. simpl. lia.
Defined.

(** ** Package audio: the capture ring *)

Section CaptureFacts.
Import Capture.

(** The slot index ignores the wrap of a counter: 128 divides 2^64. *)
Lemma wrap_mod_size z :
  wrap_uint64 z mod ringBufferSize = z mod ringBufferSize.
Proof.
  unfold wrap_uint64, ringBufferSize.
  apply Z.mod_mod_divide. exists (2 ^ 57). reflexivity.
Qed.

Lemma mod_size_inj a k1 k2 :
  0 <= k1 < ringBufferSize -> 0 <= k2 < ringBufferSize ->
  (a + k1) mod ringBufferSize = (a + k2) mod ringBufferSize -> k1 = k2.
Proof.
  unfold ringBufferSize. intros H1 H2 H.
  pose proof (Z.div_mod (a + k1) 128 ltac:(lia)) as E1.
  pose proof (Z.div_mod (a + k2) 128 ltac:(lia)) as E2.
  pose proof (Z.mod_pos_bound (a + k1) 128 ltac:(lia)).
  pose proof (Z.mod_pos_bound (a + k2) 128 ltac:(lia)).
  rewrite H in E1. lia.
Qed.

(** The head is the tail advanced by the occupancy. *)
Lemma head_mod_size rb :
  wf rb ->
  head rb mod ringBufferSize
  = (tail rb + occupancy rb) mod ringBufferSize.
Proof.
  intros (_ & _ & Hh & Ht & _ & _). unfold occupancy.
  rewrite <- (wrap_mod_size (tail rb + _)). unfold wrap_uint64.
  rewrite Zplus_mod_idemp_r.
  replace (tail rb + (head rb - tail rb)) with (head rb) by lia.
  rewrite (Z.mod_small (head rb) (2 ^ 64)) by lia. reflexivity.
Qed.

Lemma occupancy_range rb : 0 <= occupancy rb < 2 ^ 64.
Proof. unfold occupancy, wrap_uint64. apply Z.mod_pos_bound. lia. Qed.

Lemma slot_index_lt rb z :
  wf rb -> (Z.to_nat (z mod ringBufferSize) < length (chunks rb))%nat.
Proof.
  intros (Hl & _). pose proof (Z.mod_pos_bound z ringBufferSize) as Hb.
  unfold ringBufferSize in *. lia.
Qed.

Lemma copy_spec dst src :
  Z.of_nat (length dst) = maxSamplesPerChunk ->
  exists buf n,
    copy dst src = (buf, n)
    /\ n = Z.min maxSamplesPerChunk (Z.of_nat (length src))
    /\ length buf = length dst
    /\ take (Z.to_nat n) buf = take (Z.to_nat maxSamplesPerChunk) src.
Proof.
  intros Hd. unfold copy. eexists _, _. split; [reflexivity|].
  set (n := Nat.min (length dst) (length src)).
  assert (Hn : (n <= length src)%nat) by lia.
  split; [lia|]. split.
  - rewrite length_app, length_take, length_drop. lia.
  - rewrite Nat2Z.id. rewrite take_app_le by (rewrite length_take; lia).
    rewrite take_take, Nat.min_id.
    destruct (Nat.le_gt_cases (length dst) (length src)).
    + f_equal. lia.
    + rewrite !take_ge by lia. reflexivity.
Qed.

(** A push on a full ring: the chunk is discarded, the ring keeps its
    slots and its counters, and the drop counter grows by one. *)
Lemma Capture_push_full rb samples0 :
  ringBufferSize <= occupancy rb ->
  push rb samples0
  = mkPushed false
      (if wrap_uint64 (dropCount rb + 1) mod 100 =? 0
       then Some (wrap_uint64 (dropCount rb + 1)) else None)
      (mkRingBuffer (chunks rb) (head rb) (tail rb)
                    (wrap_uint64 (dropCount rb + 1))).
Proof.
  intros Hfull. unfold push. fold (occupancy rb).
  destruct (occupancy rb >=? ringBufferSize) eqn:E; [reflexivity|].
  exfalso. rewrite Z.geb_leb in E. apply Z.leb_gt in E. lia.
Qed.

(** A push on a ring with room: the first 2048 samples of the chunk
    become the newest unread chunk. *)
Lemma Capture_push_room rb samples0 :
  wf rb ->
  occupancy rb < ringBufferSize ->
  let r := push rb samples0 in
  accepted r = true
  /\ logged r = None
  /\ wf (ring r)
  /\ head (ring r) = wrap_uint64 (head rb + 1)
  /\ tail (ring r) = tail rb
  /\ dropCount (ring r) = dropCount rb
  /\ occupancy (ring r) = occupancy rb + 1
  /\ chunk_len (chunks (ring r) !!! Z.to_nat (head rb mod ringBufferSize))
     = Z.min maxSamplesPerChunk (Z.of_nat (length samples0))
  /\ unread (ring r)
     = unread rb ++ [take (Z.to_nat maxSamplesPerChunk) samples0].
Proof.
  intros Hwf Hroom.
  pose proof Hwf as (Hlen & Hall & Hh & Ht & Hd & Hocc).
  pose proof (occupancy_range rb) as Hor.
  pose proof (slot_index_lt rb (head rb) Hwf) as Hi.
  set (i := Z.to_nat (head rb mod ringBufferSize)) in *.
  assert (Hslot : wf_chunk (chunks rb !!! i)).
  { apply Forall_lookup_total_1; assumption. }
  destruct (copy_spec (samples (chunks rb !!! i)) samples0 (proj1 Hslot))
    as (buf & n & Hcopy & Hn & Hbuf & Htake).
  assert (Hpush : push rb samples0
                  = mkPushed true None
                      (mkRingBuffer (<[i := mkAudioChunk buf n]> (chunks rb))
                         (wrap_uint64 (head rb + 1)) (tail rb)
                         (dropCount rb))).
  { unfold push. fold (occupancy rb).
    destruct (occupancy rb >=? ringBufferSize) eqn:E.
    - exfalso. rewrite Z.geb_leb in E. apply Z.leb_le in E. lia.
    - fold i. rewrite Hcopy. reflexivity. }
  assert (Hocc' : wrap_uint64 (wrap_uint64 (head rb + 1) - tail rb)
                  = occupancy rb + 1).
  { unfold occupancy, wrap_uint64 in *.
    rewrite Zminus_mod_idemp_l.
    replace (head rb + 1 - tail rb) with ((head rb - tail rb) + 1) by lia.
    rewrite <- Zplus_mod_idemp_l.
    apply Z.mod_small. unfold ringBufferSize in *. lia. }
  intros r. subst r. rewrite Hpush. simpl.
  split; [reflexivity|]. split; [reflexivity|]. split.
  { unfold wf, occupancy. simpl. rewrite length_insert.
    split; [exact Hlen|]. split.
    - apply Forall_insert; [exact Hall|]. split; simpl.
      + rewrite Hbuf. exact (proj1 Hslot).
      + unfold maxSamplesPerChunk in *. lia.
    - split; [apply Z.mod_pos_bound; lia|].
      split; [exact Ht|]. split; [exact Hd|]. rewrite Hocc'. lia. }
  split; [reflexivity|]. split; [reflexivity|]. split; [reflexivity|].
  split; [exact Hocc'|]. split.
  { rewrite list_lookup_total_insert_eq by exact Hi. simpl. exact Hn. }
  unfold unread, occupancy at 1. simpl. rewrite Hocc'.
  replace (Z.to_nat (occupancy rb + 1)) with (S (Z.to_nat (occupancy rb)))
    by lia.
  rewrite seq_S, map_app. simpl. f_equal.
  - apply map_ext_in. intros k Hk. apply in_seq in Hk.
    unfold unread_at. simpl.
    rewrite list_lookup_total_insert_ne; [reflexivity|].
    subst i. intros Heq. apply Z2Nat.inj in Heq;
      try (apply Z.mod_pos_bound; unfold ringBufferSize; lia).
    rewrite (head_mod_size rb Hwf) in Heq.
    apply mod_size_inj in Heq; lia.
  - f_equal. unfold unread_at. simpl.
    rewrite Z2Nat.id by lia. rewrite <- (head_mod_size rb Hwf). fold i.
    rewrite list_lookup_total_insert_eq by exact Hi. simpl. exact Htake.
Qed.

End CaptureFacts.

(** The consumer side. *)

Lemma wrap_add_mod_size a k :
  (wrap_uint64 a + k) mod Capture.ringBufferSize
  = (a + k) mod Capture.ringBufferSize.
Proof.
  rewrite Zplus_mod, wrap_mod_size, <- Zplus_mod. reflexivity.
Qed.

Lemma pop_empty rb :
  Capture.head rb = Capture.tail rb -> Capture.pop rb = (None, rb).
Proof. intros H. unfold Capture.pop. rewrite H, Z.eqb_refl. reflexivity. Qed.

Lemma pop_unread rb :
  Capture.wf rb ->
  0 < Capture.occupancy rb ->
  exists x rb',
    Capture.pop rb = (Some x, rb')
    /\ Capture.unread rb = x :: Capture.unread rb'
    /\ Capture.wf rb'
    /\ Capture.occupancy rb' = Capture.occupancy rb - 1
    /\ Capture.dropCount rb' = Capture.dropCount rb.
Proof.
  intros Hwf Hpos.
  pose proof Hwf as (Hlen & Hall & Hh & Ht & Hd & Hocc).
  assert (Hne : Capture.head rb <> Capture.tail rb).
  { intros Heq. unfold Capture.occupancy, wrap_uint64 in Hpos.
    rewrite Heq, Z.sub_diag, Zmod_0_l in Hpos. lia. }
  set (rb' := Capture.mkRingBuffer (Capture.chunks rb) (Capture.head rb)
                (wrap_uint64 (Capture.tail rb + 1)) (Capture.dropCount rb)).
  assert (Hocc' : Capture.occupancy rb' = Capture.occupancy rb - 1).
  { unfold Capture.occupancy, wrap_uint64 in *. simpl.
    rewrite Zminus_mod_idemp_r.
    replace (Capture.head rb - (Capture.tail rb + 1))
      with ((Capture.head rb - Capture.tail rb) - 1) by lia.
    rewrite <- Zminus_mod_idemp_l. apply Z.mod_small.
    unfold Capture.ringBufferSize in *. lia. }
  exists (Capture.unread_at rb 0), rb'. split.
  { unfold Capture.pop. rewrite (proj2 (Z.eqb_neq _ _) Hne).
    unfold Capture.unread_at. simpl. rewrite Z.add_0_r. reflexivity. }
  split.
  { unfold Capture.unread. rewrite Hocc'.
    replace (Z.to_nat (Capture.occupancy rb))
      with (S (Z.to_nat (Capture.occupancy rb - 1))) by lia.
    simpl. f_equal. rewrite <- seq_shift, map_map.
    apply map_ext. intros k. unfold Capture.unread_at. simpl.
    rewrite wrap_add_mod_size.
    replace (Capture.tail rb + 1 + Z.of_nat k)
      with (Capture.tail rb + Z.of_nat (S k)) by lia.
    reflexivity. }
  split; [|split; [exact Hocc'|reflexivity]].
  unfold Capture.wf. rewrite Hocc'. simpl.
  split; [exact Hlen|]. split; [exact Hall|]. split; [exact Hh|].
  split; [apply Z.mod_pos_bound; lia|]. split; [exact Hd|lia].
Qed.

(** Popping as often as there are unread chunks delivers them in order
    and leaves the ring empty. *)
Lemma pops_unread rb :
  Capture.wf rb ->
  exists rb',
    Capture.pops (length (Capture.unread rb)) rb
    = (map Some (Capture.unread rb), rb')
    /\ Capture.pop rb' = (None, rb')
    /\ Capture.dropCount rb' = Capture.dropCount rb.
Proof.
  remember (length (Capture.unread rb)) as n eqn:Hn.
  revert rb Hn. induction n as [|n IH]; intros rb Hn Hwf.
  - destruct (Capture.unread rb) eqn:Hu; [|discriminate].
    exists rb. split; [reflexivity|]. split; [|reflexivity].
    apply pop_empty.
    unfold Capture.unread in Hu.
    pose proof (occupancy_range rb) as Hr.
    assert (Hz : Capture.occupancy rb = 0).
    { destruct (Z.to_nat (Capture.occupancy rb)) eqn:E; [lia|discriminate]. }
    destruct Hwf as (_ & _ & Hh & Ht & _).
    unfold Capture.occupancy, wrap_uint64 in Hz.
    apply Z.mod_divide in Hz; [|lia]. destruct Hz as [q Hq]. lia.
  - assert (Hpos : 0 < Capture.occupancy rb).
    { unfold Capture.unread in Hn. rewrite length_map, length_seq in Hn.
      lia. }
    destruct (pop_unread rb Hwf Hpos) as (x & rb1 & Hpop & Hu & Hwf1 & _ & Hd1).
    rewrite Hu in Hn. simpl in Hn. injection Hn as Hn.
    destruct (IH rb1 Hn Hwf1) as (rb' & Hpops & Hnone & Hd').
    exists rb'. simpl. rewrite Hpop, Hpops, Hu. split; [reflexivity|].
    split; [exact Hnone|congruence].
Qed.






(** ** Package config and the model constructors *)

(** C5, as the code has it.  With every thread setting at 0 and [C] CPUs,
    [normalizeThreadCounts] sets the global count to [max 1 (C / 3)], the
    VAD count to 1 and the STT and TTS counts to the global count; the
    recognizer is created with these, but the synthesizer model is
    configured with 2 threads whatever [TTSThreads] says. *)
Theorem synthesizer_ignores_thread_count (C : Z) (cfg : Config.Config) :
  Config.NumThreads cfg = 0 ->
  Config.VADThreads cfg = 0 ->
  Config.STTThreads cfg = 0 ->
  Config.TTSThreads cfg = 0 ->
  let cfg' := Config.normalizeThreadCounts C cfg in
  let global := Z.max 1 (C ÷ 3) in
  Config.NumThreads cfg' = global
  /\ Config.VADThreads cfg' = 1
  /\ Config.STTThreads cfg' = global
  /\ Config.TTSThreads cfg' = global
  /\ (forall caseTable, exists r,
        Stt.NewRecognizer caseTable true true (Main.stt_config cfg') = Ok r
        /\ Stt.vadConfig_NumThreads r = 1
        /\ Stt.recognizerConfig_NumThreads r = global)
  /\ Tts.Model_NumThreads (Tts.NewSynthesizer_config (Main.tts_config cfg'))
     = 2.
Proof.
  intros HN HV HS HT cfg' global. subst cfg'.
  unfold Config.normalizeThreadCounts. rewrite HN. simpl.
  rewrite HV. simpl. rewrite HS. simpl. rewrite HT. simpl.
  repeat (split; [reflexivity|]). split; [|reflexivity].
  intros caseTable. eexists. split; [reflexivity|]. split; reflexivity.
Qed.

Lemma synthesizer_ignores_thread_count_witness :
  let cfg := Config.mkConfig [] 16000 (runes "cpu") (runes "cpu") false
                             0 0 0 0 in
  let cfg' := Config.normalizeThreadCounts 12 cfg in
  Config.NumThreads cfg' = 4
  /\ Config.TTSThreads cfg' = 4
  /\ Tts.Model_NumThreads (Tts.NewSynthesizer_config (Main.tts_config cfg'))
     = 2.
Proof.
  intros cfg cfg'.
  pose proof (synthesizer_ignores_thread_count 12 cfg
                eq_refl eq_refl eq_refl eq_refl) as H.
  cbv zeta in H. destruct H as (HN & _ & _ & HT & _ & Hsyn).
  split; [exact HN|]. split; [exact HT|exact Hsyn].
Defined.

(** ** Package main: the STT loop and the interrupt flag *)

(** C3, the claim as it is worded, refuted: a segment that arrives while
    speech is detected sets the flag, its transcription is empty, and the
    flag is still set after this iteration and after two more segments
    without text. *)
Lemma interrupt_latched_on_empty_transcript :
  let st0 := Main.mkState false [] in
  Main.interrupt (fst (Main.sttProcessor_iteration st0
                         (Main.Segment true [] true))) = true
  /\ Main.sttProcessor st0
       [Main.Segment true [] true; Main.Segment false [] true;
        Main.Segment false [] true]
     = Main.mkState true []
  /\ ~ (forall st speech text delivered,
          Main.interrupt
            (fst (Main.sttProcessor_iteration st
                    (Main.Segment speech text delivered))) = false).
Proof.
  split; [reflexivity|]. split; [reflexivity|].
  intros H. specialize (H (Main.mkState false []) true [] true).
  discriminate H.
Qed.

(** C3, as the code has it.  An iteration whose transcript is not empty
    and is sent to the LLM processor leaves the flag clear, whether or not
    the segment had set it; an iteration whose transcript is empty sends
    nothing and leaves the flag as the segment set it. *)
Theorem interrupt_cleared_when_transcript_sent st speech text :
  text <> [] ->
  Main.sttProcessor_iteration st (Main.Segment speech text true)
  = (Main.mkState false (Main.out st ++ [text]), true)
  /\ Main.sttProcessor_iteration st (Main.Segment speech [] true)
     = (Main.mkState (speech || Main.interrupt st) (Main.out st), true).
Proof.
  intros Htext. split.
  - destruct text as [|c text]; [congruence|].
    simpl. destruct speech; reflexivity.
  - destruct st as [i o]. destruct speech; reflexivity.
Qed.

Lemma interrupt_cleared_when_transcript_sent_witness :
  Main.sttProcessor_iteration (Main.mkState false [])
    (Main.Segment true (runes "what time is it") true)
  = (Main.mkState false [runes "what time is it"], true).
Proof.
  exact (proj1 (interrupt_cleared_when_transcript_sent
                  (Main.mkState false []) true (runes "what time is it")
                  ltac:(discriminate))).
Defined.

(** ** Go strings: trimming *)

Lemma TrimLeftFunc_all f s :
  Forall (fun r => f r = true) s -> TrimLeftFunc f s = [].
Proof.
  induction 1 as [|r s Hr _ IH]; [reflexivity|]. simpl. rewrite Hr. exact IH.
Qed.

Lemma TrimLeftFunc_last f s c :
  last s = Some c -> f c = false ->
  last (TrimLeftFunc f s) = Some c.
Proof.
  induction s as [|r s IH]; [discriminate|].
  intros Hlast Hc. simpl. destruct (f r) eqn:Hr; [|exact Hlast].
  destruct s as [|r' s'].
  - simpl in Hlast. injection Hlast as ->. congruence.
  - apply IH; [exact Hlast|exact Hc].
Qed.

Lemma TrimRightFunc_keeps f s c :
  last s = Some c -> f c = false -> TrimRightFunc f s = s.
Proof.
  intros Hlast Hc. apply last_Some in Hlast as [s' ->].
  unfold TrimRightFunc. rewrite rev_app_distr. simpl. rewrite Hc.
  change (c :: rev s') with (rev [c] ++ rev s').
  rewrite <- rev_app_distr, rev_involutive. reflexivity.
Qed.

Lemma TrimSpace_blank s : Forall (fun r => isSpace r = true) s -> TrimSpace s = [].
Proof.
  intros H. unfold TrimSpace. rewrite TrimLeftFunc_all by exact H.
  reflexivity.
Qed.

(** A string that ends in a rune that is no blank keeps this rune as its
    last one under [TrimSpace]. *)
Lemma TrimSpace_last s c :
  last s = Some c -> isSpace c = false ->
  last (TrimSpace s) = Some c /\ TrimSpace s <> [].
Proof.
  intros Hlast Hc.
  pose proof (TrimLeftFunc_last isSpace s c Hlast Hc) as Hl.
  unfold TrimSpace. rewrite (TrimRightFunc_keeps _ _ c Hl Hc).
  split; [exact Hl|]. intros Heq. rewrite Heq in Hl. discriminate.
Qed.

(** ** Package tts: the sentence splitter *)

Section SplitFacts.
Import Tts.

Lemma splitLoop_pieces text : forall current sentences,
  splitLoop text current sentences
  = sentences ++ concat (map sentence_of (pieces text current)).
Proof.
  induction text as [|c text IH]; intros current sentences; simpl.
  - unfold sentence_of. destruct (TrimSpace current); simpl.
    + rewrite app_nil_r. reflexivity.
    + reflexivity.
  - destruct (isTerminator c); simpl.
    + rewrite IH. unfold sentence_of at 2.
      destruct (TrimSpace (current ++ [c])); simpl; [reflexivity|].
      rewrite <- app_assoc. reflexivity.
    + apply IH.
Qed.

Lemma concat_pieces text : forall current,
  concat (pieces text current) = current ++ text.
Proof.
  induction text as [|c text IH]; intros current; simpl.
  - rewrite !app_nil_r. reflexivity.
  - destruct (isTerminator c); simpl.
    + rewrite IH. simpl. rewrite <- app_assoc. reflexivity.
    + rewrite IH, <- app_assoc. reflexivity.
Qed.

Lemma pieces_no_terminator text : forall current,
  no_terminator text -> pieces text current = [current ++ text].
Proof.
  induction text as [|c text IH]; intros current Hno; simpl.
  - rewrite app_nil_r. reflexivity.
  - inversion Hno as [|? ? Hc Hno']; subst. rewrite Hc.
    rewrite IH by exact Hno'. rewrite <- app_assoc. reflexivity.
Qed.

Lemma pieces_Forall (P : rune -> Prop) text : forall current,
  Forall P current -> Forall P text ->
  Forall (Forall P) (pieces text current).
Proof.
  induction text as [|c text IH]; intros current Hcur Htext; simpl.
  - constructor; [exact Hcur|constructor].
  - inversion Htext as [|? ? Hc Htext']; subst.
    assert (Forall P (current ++ [c])).
    { apply Forall_app. split; [exact Hcur|]. constructor; [exact Hc|constructor]. }
    destruct (isTerminator c).
    + constructor; [assumption|]. apply IH; [constructor|exact Htext'].
    + apply IH; assumption.
Qed.

Lemma terminator_only_last_snoc current c :
  no_terminator current -> terminator_only_last (current ++ [c]).
Proof.
  intros Hno before c' rest Heq Hc'.
  destruct rest as [|r rest]; [reflexivity|]. exfalso.
  assert (Hin : c' ∈ current).
  { assert (Hlen : length (current ++ [c]) = length (before ++ c' :: r :: rest))
      by (rewrite Heq; reflexivity).
    rewrite !length_app in Hlen. simpl in Hlen.
    assert (Hlt : (length before < length current)%nat) by lia.
    apply (f_equal (fun l => l !! length before)) in Heq.
    cbv beta in Heq.
    rewrite (lookup_app_l current) in Heq by exact Hlt.
    rewrite list_lookup_middle in Heq by reflexivity.
    apply list_elem_of_lookup. eauto. }
  unfold no_terminator in Hno. rewrite Forall_forall in Hno.
  specialize (Hno c' Hin). congruence.
Qed.

Lemma pieces_terminator_only_last text : forall current,
  no_terminator current ->
  Forall terminator_only_last (pieces text current).
Proof.
  induction text as [|c text IH]; intros current Hno; simpl.
  - constructor; [|constructor].
    intros before c' rest -> Hc'. exfalso.
    unfold no_terminator in Hno. rewrite Forall_forall in Hno.
    specialize (Hno c'). rewrite Hno in Hc'; [discriminate|].
    apply elem_of_app. right. left.
  - destruct (isTerminator c) eqn:Hc.
    + constructor; [apply terminator_only_last_snoc; exact Hno|].
      apply IH. constructor.
    + apply IH. apply Forall_app. split; [exact Hno|].
      constructor; [exact Hc|constructor].
Qed.

(** C8, as the code has it.  [SplitSentences] cuts the text after every
    ['.'], ['!'], ['?'] and newline, trims the blanks around every piece
    and drops the pieces of which nothing is left.  A piece that ends in
    ['.'], ['!'] or ['?'] gives a sentence that ends in this terminator;
    the newline of a piece is trimmed away with the other blanks.  A text
    without terminator gives its trimmed text as the one sentence when
    something is left of it and no sentence otherwise; a text of blanks
    only gives no sentence. *)
Theorem SplitSentences_pieces text :
  SplitSentences text = concat (map sentence_of (pieces text []))
  /\ concat (pieces text []) = text
  /\ Forall terminator_only_last (pieces text [])
  /\ (forall piece c,
        piece ∈ pieces text [] -> last piece = Some c ->
        isTerminator c = true -> c <> 10 ->
        sentence_of piece = [TrimSpace piece]
        /\ last (TrimSpace piece) = Some c)
  /\ (forall piece sentence,
        piece ∈ pieces text [] -> sentence ∈ sentence_of piece ->
        last sentence <> Some 10)
  /\ (no_terminator text ->
      SplitSentences text
      = match TrimSpace text with [] => [] | trimmed => [trimmed] end)
  /\ (only_whitespace text -> SplitSentences text = []).
Proof.
  assert (Hsplit : SplitSentences text
                   = concat (map sentence_of (pieces text []))).
  { unfold SplitSentences. rewrite splitLoop_pieces. reflexivity. }
  split; [exact Hsplit|]. split; [apply concat_pieces|].
  split; [apply pieces_terminator_only_last; constructor|].
  split; [|split; [|split]].
  - intros piece c _ Hlast Hterm Hnl.
    assert (Hsp : isSpace c = false).
    { unfold isTerminator in Hterm. unfold isSpace.
      destruct (Z.eqb_spec c 46) as [->|]; [reflexivity|].
      destruct (Z.eqb_spec c 33) as [->|]; [reflexivity|].
      destruct (Z.eqb_spec c 63) as [->|]; [reflexivity|].
      destruct (Z.eqb_spec c 10) as [->|]; [congruence|discriminate]. }
    destruct (TrimSpace_last piece c Hlast Hsp) as [Hl Hne].
    split; [|exact Hl]. unfold sentence_of.
    destruct (TrimSpace piece); [congruence|reflexivity].
  - intros piece sentence _ Hin Hlast.
    unfold sentence_of in Hin.
    destruct (TrimSpace piece) as [|r t] eqn:Htrim.
    { apply elem_of_nil in Hin. exact Hin. }
    apply list_elem_of_singleton in Hin. subst sentence.
    unfold TrimSpace, TrimRightFunc in Htrim.
    rewrite <- Htrim in Hlast.
    destruct (TrimLeftFunc isSpace (rev (TrimLeftFunc isSpace piece)))
      as [|r' t'] eqn:Hinner.
    { simpl in Hlast. discriminate. }
    simpl in Hlast. rewrite last_snoc in Hlast. injection Hlast as ->.
    (* the first rune the inner trim leaves is no blank *)
    assert (Hns : forall s r0 t0, TrimLeftFunc isSpace s = r0 :: t0 ->
                                  isSpace r0 = false).
    { clear. induction s as [|a s IH]; intros r0 t0 H; [discriminate|].
      simpl in H. destruct (isSpace a) eqn:Ha.
      - eapply IH. exact H.
      - injection H as <- _. exact Ha. }
    specialize (Hns _ _ _ Hinner). discriminate Hns.
  - intros Hno. rewrite Hsplit, pieces_no_terminator by exact Hno.
    simpl. unfold sentence_of. destruct (TrimSpace text); reflexivity.
  - intros Hws. rewrite Hsplit. clear Hsplit.
    pose proof (pieces_Forall (fun r => isSpace r = true) text []
                  ltac:(constructor) Hws) as Hall.
    induction Hall as [|p ps Hp _ IH]; [reflexivity|].
    simpl. unfold sentence_of at 1. rewrite (TrimSpace_blank p Hp).
    exact IH.
Qed.

(** C8, the claim as it is worded, refuted on two texts: three blanks
    hold no terminator and give no sentence, not one; and in
    ["Hi\nyou"] the newline is a terminator that the sentence ["Hi"] does
    not keep. *)
Lemma SplitSentences_blank_and_newline :
  (no_terminator (runes "   ")
   /\ length (SplitSentences (runes "   ")) <> 1%nat)
  /\ (SplitSentences (runes "Hi" ++ [10] ++ runes "you")
      = [runes "Hi"; runes "you"]
      /\ ~ ends_with_terminator (runes "Hi")).
Proof.
  split; split.
  - repeat constructor.
  - vm_compute. discriminate.
  - reflexivity.
  - intros [c [Hlast Hterm]]. vm_compute in Hlast.
    injection Hlast as <-. discriminate Hterm.
Qed.

End SplitFacts.

(** ** Go strings: byte offsets *)

Lemma RuneLen_pos r : 1 <= RuneLen r.
Proof. unfold RuneLen. repeat destruct (_ <? _); lia. Qed.

Lemma len_cons r s : len (r :: s) = RuneLen r + len s.
Proof. reflexivity. Qed.

Lemma len_nonneg s : 0 <= len s.
Proof.
  induction s as [|r s IH]; [reflexivity|].
  rewrite len_cons. pose proof (RuneLen_pos r). lia.
Qed.

Lemma IndexFrom_eq acc s substr :
  IndexFrom acc s substr
  = if HasPrefix s substr then acc
    else match s with
         | [] => -1
         | r :: t => IndexFrom (acc + RuneLen r) t substr
         end.
Proof. destruct s; reflexivity. Qed.

Lemma sliceTo_eq s n :
  sliceTo s n
  = if n =? 0 then Some []
    else match s with
         | [] => None
         | r :: t =>
             if n <? RuneLen r then None
             else option_map (cons r) (sliceTo t (n - RuneLen r))
         end.
Proof. destruct s; reflexivity. Qed.

Lemma sliceFrom_eq s n :
  sliceFrom s n
  = if n =? 0 then Some s
    else match s with
         | [] => None
         | r :: t =>
             if n <? RuneLen r then None else sliceFrom t (n - RuneLen r)
         end.
Proof. destruct s; reflexivity. Qed.

Lemma IndexFrom_range s substr : forall acc,
  IndexFrom acc s substr = -1 \/ acc <= IndexFrom acc s substr.
Proof.
  induction s as [|r s IH]; intros acc; rewrite IndexFrom_eq.
  - destruct (HasPrefix [] substr); [right; lia|left; reflexivity].
  - destruct (HasPrefix (r :: s) substr); [right; lia|].
    destruct (IH (acc + RuneLen r)) as [H|H]; [left; exact H|right].
    pose proof (RuneLen_pos r). lia.
Qed.

Lemma sliceTo_len s : forall n a,
  sliceTo s n = Some a -> len a = n /\ n <= len s.
Proof.
  induction s as [|r s IH]; intros n a; rewrite sliceTo_eq.
  - destruct (Z.eqb_spec n 0) as [->|]; [|discriminate].
    intros [= <-]. split; [reflexivity|apply len_nonneg].
  - destruct (Z.eqb_spec n 0) as [->|Hn].
    { intros [= <-]. split; [reflexivity|apply len_nonneg]. }
    destruct (n <? RuneLen r); [discriminate|].
    destruct (sliceTo s (n - RuneLen r)) as [a'|] eqn:E; [|discriminate].
    intros [= <-]. destruct (IH _ _ E) as [H1 H2].
    rewrite !len_cons. lia.
Qed.

Lemma sliceFrom_len s : forall n a,
  sliceFrom s n = Some a -> 0 <= n <= len s.
Proof.
  induction s as [|r s IH]; intros n a; rewrite sliceFrom_eq.
  - destruct (Z.eqb_spec n 0) as [->|]; [|discriminate].
    intros _. split; [lia|apply len_nonneg].
  - destruct (Z.eqb_spec n 0) as [->|Hn].
    { intros _. split; [lia|apply len_nonneg]. }
    destruct (Z.ltb_spec n (RuneLen r)); [discriminate|].
    intros E. apply IH in E. rewrite len_cons.
    pose proof (RuneLen_pos r). lia.
Qed.

(** ** Package stt: the wake word gate *)

(** C7 at a transcript the decoder can return: ["İ hey bot what"] with
    the wake word ["hey bot"].  The lower-cased copy is one byte shorter
    than the transcript (U+0130 takes two bytes, its lower case U+0069
    one), the offset found in the copy is used on the transcript, and the
    bytes cut out are [" hey bo"]: the text forwarded is ["İt what"],
    where the wake word cut out by runes would leave ["İ  what"]. *)
Theorem wake_word_cut_misplaced :
  let r := Stt.mkRecognizer (runes "hey bot") false 16000 1 2 (runes "cpu") in
  let transcript := [0x130] ++ runes " hey bot what" in
  Stt.TranscribeSegment Stt.caseTable_U0130 r (fun _ => Some transcript) [0]
  = Stt.Runes ([0x130] ++ runes "t what")
  /\ Stt.stripTrigger Stt.caseTable_U0130 transcript (runes "hey bot")
     = Some ([0x130] ++ runes "  what").
Proof. split; reflexivity. Qed.

Lemma TrimLeftFunc_head f s r t :
  TrimLeftFunc f s = r :: t -> f r = false.
Proof.
  induction s as [|a s IH]; [discriminate|].
  simpl. destruct (f a) eqn:Ha; [exact IH|].
  intros [= <- _]. exact Ha.
Qed.

Lemma TrimLeftFunc_fixed f r t : f r = false -> TrimLeftFunc f (r :: t) = r :: t.
Proof. intros H. simpl. rewrite H. reflexivity. Qed.

Lemma TrimSpace_idem s : TrimSpace (TrimSpace s) = TrimSpace s.
Proof.
  unfold TrimSpace, TrimRightFunc.
  destruct (TrimLeftFunc isSpace s) as [|a u] eqn:Hu; [reflexivity|].
  pose proof (TrimLeftFunc_head _ _ _ _ Hu) as Ha.
  assert (Hlast : last (rev (a :: u)) = Some a).
  { simpl. apply last_snoc. }
  pose proof (TrimLeftFunc_last isSpace _ a Hlast Ha) as Hv.
  destruct (TrimLeftFunc isSpace (rev (a :: u))) as [|b v] eqn:Hv';
    [discriminate|].
  pose proof (TrimLeftFunc_head _ _ _ _ Hv') as Hb.
  apply last_Some in Hv as [v' Hv].
  assert (Hrev : rev (b :: v) = a :: rev v').
  { rewrite Hv, rev_app_distr. reflexivity. }
  rewrite Hrev, (TrimLeftFunc_fixed _ _ _ Ha), <- Hrev, rev_involutive.
  rewrite (TrimLeftFunc_fixed _ _ _ Hb). reflexivity.
Qed.

Section WakeWordFacts.
Import Stt.

Variable caseTable : rune -> rune.

Lemma HasPrefix_sliceFrom trigger : forall text,
  width_preserving caseTable text ->
  HasPrefix (ToLower caseTable text) trigger = true ->
  sliceFrom text (len trigger) = Some (drop (length trigger) text).
Proof.
  induction trigger as [|w trigger IH]; intros text Hw Hpre.
  - rewrite sliceFrom_eq. reflexivity.
  - destruct text as [|x text]; [discriminate|].
    simpl in Hpre. apply andb_prop in Hpre as [Hx Hpre].
    apply Z.eqb_eq in Hx. inversion Hw as [|? ? Hwx Hw']; subst.
    rewrite sliceFrom_eq, len_cons.
    pose proof (RuneLen_pos (toLowerRune caseTable x)).
    pose proof (len_nonneg trigger).
    rewrite (proj2 (Z.eqb_neq _ 0)) by lia.
    rewrite (proj2 (Z.ltb_ge _ _)) by lia.
    replace (RuneLen (toLowerRune caseTable x) + len trigger - RuneLen x)
      with (len trigger) by lia.
    simpl. apply IH; assumption.
Qed.

(** The byte offsets of the code and the cut by runes agree on a
    transcript whose lower-casing keeps the widths. *)
Lemma cutTrigger_offsets trigger : forall text acc,
  width_preserving caseTable text ->
  0 <= acc ->
  match cutTrigger caseTable text trigger with
  | None => IndexFrom acc (ToLower caseTable text) trigger = -1
  | Some cut =>
      let idx := IndexFrom acc (ToLower caseTable text) trigger in
      acc <= idx
      /\ exists before after,
           sliceTo text (idx - acc) = Some before
           /\ sliceFrom text (idx - acc + len trigger) = Some after
           /\ cut = before ++ after
  end.
Proof.
  induction text as [|r text IH]; intros acc Hw Hacc;
    remember (IndexFrom acc (ToLower caseTable _) trigger) as idx eqn:Hidx;
    rewrite IndexFrom_eq in Hidx.
  - destruct trigger as [|w trigger]; simpl in *; [|exact Hidx].
    subst idx. split; [lia|]. exists [], []. rewrite Z.sub_diag.
    split; [reflexivity|]. split; reflexivity.
  - apply Forall_cons in Hw as [Hwr Hw'].
    change (cutTrigger caseTable (r :: text) trigger)
      with (if HasPrefix (ToLower caseTable (r :: text)) trigger
            then Some (drop (length trigger) (r :: text))
            else option_map (cons r) (cutTrigger caseTable text trigger)).
    destruct (HasPrefix (ToLower caseTable (r :: text)) trigger) eqn:Hpre.
    + subst idx. cbv zeta. split; [lia|].
      exists [], (drop (length trigger) (r :: text)).
      rewrite Z.sub_diag. split; [reflexivity|]. split; [|reflexivity].
      apply HasPrefix_sliceFrom; [|assumption].
      apply Forall_cons. split; assumption.
    + simpl ToLower in Hidx. cbv iota in Hidx. rewrite Hwr in Hidx.
      pose proof (RuneLen_pos r) as Hr.
      specialize (IH (acc + RuneLen r) Hw' ltac:(lia)).
      rewrite <- Hidx in IH. clear Hidx.
      destruct (cutTrigger caseTable text trigger) as [cut|];
        cbn [option_map]; cbv zeta in *.
      * destruct IH as [Hle (before & after & Hto & Hfrom & ->)].
        split; [lia|]. exists (r :: before), after.
        pose proof (len_nonneg trigger).
        split; [|split; [|reflexivity]].
        -- rewrite sliceTo_eq.
           rewrite (proj2 (Z.eqb_neq _ 0)) by lia.
           rewrite (proj2 (Z.ltb_ge _ _)) by lia.
           replace (idx - acc - RuneLen r) with (idx - (acc + RuneLen r)) by lia.
           rewrite Hto. reflexivity.
        -- rewrite sliceFrom_eq.
           rewrite (proj2 (Z.eqb_neq _ 0)) by lia.
           rewrite (proj2 (Z.ltb_ge _ _)) by lia.
           replace (idx - acc + len trigger - RuneLen r)
             with (idx - (acc + RuneLen r) + len trigger) by lia.
           exact Hfrom.
      * exact IH.
Qed.

Lemma removeWakeWord_width_preserving text trigger :
  width_preserving caseTable text ->
  ToLower caseTable trigger = trigger ->
  removeWakeWord caseTable text trigger
  = Runes (match stripTrigger caseTable text trigger with
           | Some stripped => stripped
           | None => text
           end)
  /\ Contains (ToLower caseTable text) trigger
     = match cutTrigger caseTable text trigger with
       | Some _ => true
       | None => false
       end.
Proof.
  intros Hw Hidem.
  pose proof (cutTrigger_offsets trigger text 0 Hw ltac:(lia)) as H.
  unfold removeWakeWord, stripTrigger, Contains, Index. rewrite Hidem.
  destruct (cutTrigger caseTable text trigger) as [cut|]; simpl in *.
  - destruct H as [Hle (before & after & Hto & Hfrom & ->)].
    set (idx := IndexFrom 0 (ToLower caseTable text) trigger) in *.
    rewrite Z.sub_0_r in Hto, Hfrom.
    split; [|apply Z.leb_le; exact Hle].
    rewrite (proj2 (Z.eqb_neq idx (-1))) by lia.
    destruct (sliceTo_len _ _ _ Hto) as [_ Hto'].
    pose proof (sliceFrom_len _ _ _ Hfrom) as Hfrom'.
    unfold slice_to, slice_from.
    rewrite (proj2 (Z.ltb_ge idx 0)) by lia.
    rewrite (proj2 (Z.ltb_ge (len text) idx)) by lia.
    rewrite (proj2 (Z.ltb_ge (idx + len trigger) 0)) by lia.
    rewrite (proj2 (Z.ltb_ge (len text) (idx + len trigger))) by lia.
    simpl. rewrite Hto, Hfrom. reflexivity.
  - rewrite H. split; reflexivity.
Qed.

(** X10.  The wake-word gate on the transcripts for which the code is
    right (the others are C7's): for a transcript and a wake word that are
    valid UTF-8 without U+FFFD, when lower-casing changes the width of no
    rune of the transcript (every ASCII transcript is one), a transcript
    that does not read the wake word is dropped, the wake word alone gives
    ["Hello"], and otherwise the text forwarded is the transcript without
    the first occurrence of the wake word, without punctuation and blanks
    in front and without blanks at the end. *)
Theorem wake_word_gate_width_preserving r decode samples resultText :
  samples <> [] ->
  decode samples = Some resultText ->
  decodable resultText ->
  decodable (wakeWord r) ->
  TrimSpace resultText <> [] ->
  wakeWord r <> [] ->
  ToLower caseTable (wakeWord r) = wakeWord r ->
  width_preserving caseTable (TrimSpace resultText) ->
  (Contains (ToLower caseTable (TrimSpace resultText)) (wakeWord r) = false ->
   TranscribeSegment caseTable r decode samples = Runes [])
  /\ (Contains (ToLower caseTable (TrimSpace resultText)) (wakeWord r) = true ->
      exists stripped,
        stripTrigger caseTable (TrimSpace resultText) (wakeWord r)
        = Some stripped
        /\ TranscribeSegment caseTable r decode samples
           = Runes (match stripped with
                    | [] => runes "Hello"
                    | _ :: _ => stripped
                    end)).
Proof.
  intros Hs Hdec _ _ Htext Hwake Hidem Hw.
  destruct (removeWakeWord_width_preserving _ _ Hw Hidem) as [Hrm Hc].
  assert (Hunfold :
    TranscribeSegment caseTable r decode samples
    = if negb (Contains (ToLower caseTable (TrimSpace resultText)) (wakeWord r))
      then Runes []
      else match removeWakeWord caseTable (TrimSpace resultText) (wakeWord r) with
           | Runes text1 =>
               match TrimSpace text1 with
               | [] => Runes (runes "Hello")
               | text2 => Runes text2
               end
           | Torn => Torn
           | SlicePanic => SlicePanic
           end).
  { unfold TranscribeSegment. destruct samples; [congruence|].
    simpl Nat.eqb. cbv iota. rewrite Hdec.
    destruct (TrimSpace resultText); [congruence|].
    destruct (wakeWord r); [congruence|]. reflexivity. }
  split.
  - intros Hno. rewrite Hunfold, Hno. reflexivity.
  - intros Hyes. rewrite Hunfold, Hyes, Hrm. simpl negb. cbv iota.
    rewrite Hyes in Hc. unfold stripTrigger in *.
    destruct (cutTrigger caseTable (TrimSpace resultText) (wakeWord r))
      as [cut|]; [|discriminate].
    simpl. eexists. split; [reflexivity|].
    rewrite TrimSpace_idem.
    destruct (TrimSpace (TrimLeft cut wakeCutset)); reflexivity.
Qed.

End WakeWordFacts.

Lemma wake_word_gate_width_preserving_witness :
  let r := Stt.mkRecognizer (runes "hey assistant") false 16000 1 2
                            (runes "cpu") in
  Stt.TranscribeSegment Stt.caseTable_U0130 r
    (fun _ => Some (runes "Hey Assistant, what time is it")) [0]
  = Stt.Runes (runes "what time is it").
Proof.
  intros r.
  assert (Hw : Stt.width_preserving Stt.caseTable_U0130
                 (TrimSpace (runes "Hey Assistant, what time is it"))).
  { refine (bool_decide_unpack _ _). vm_compute. exact I. }
  destruct (wake_word_gate_width_preserving Stt.caseTable_U0130 r
              (fun _ => Some (runes "Hey Assistant, what time is it")) [0]
              (runes "Hey Assistant, what time is it")
              ltac:(discriminate) eq_refl
              ltac:(unfold decodable; repeat constructor)
              ltac:(unfold decodable; repeat constructor)
              ltac:(vm_compute; discriminate)
              ltac:(discriminate) eq_refl Hw)
    as [_ Hyes].
  destruct (Hyes eq_refl) as (stripped & Hstrip & Hres).
  vm_compute in Hstrip. injection Hstrip as <-. exact Hres.
Defined.

(** ** Go float64: rounding *)

Lemma iter_pos_nat {A : Type} (f : A -> A) p : forall x,
  iter_pos f p x = Nat.iter (Pos.to_nat p) f x.
Proof.
  induction p as [p IH|p IH|]; intros x; cbn [iter_pos].
  - rewrite !IH, Pos2Nat.inj_xI.
    replace (S (2 * Pos.to_nat p)) with (S (Pos.to_nat p + Pos.to_nat p)) by lia.
    rewrite Nat.iter_succ, Nat.iter_add, !Nat.iter_swap. reflexivity.
  - rewrite !IH, Pos2Nat.inj_xO.
    replace (2 * Pos.to_nat p)%nat with (Pos.to_nat p + Pos.to_nat p)%nat by lia.
    rewrite Nat.iter_add. reflexivity.
  - reflexivity.
Qed.

Lemma digits2_pos_bounds m :
  2 ^ (Zpos (digits2_pos m) - 1) <= Zpos m < 2 ^ Zpos (digits2_pos m).
Proof.
  induction m as [m IH|m IH|]; simpl digits2_pos.
  - rewrite Pos2Z.inj_succ.
    replace (Z.succ (Zpos (digits2_pos m)) - 1) with (Z.succ (Zpos (digits2_pos m) - 1)) by lia.
    rewrite !Z.pow_succ_r by lia. lia.
  - rewrite Pos2Z.inj_succ.
    replace (Z.succ (Zpos (digits2_pos m)) - 1) with (Z.succ (Zpos (digits2_pos m) - 1)) by lia.
    rewrite !Z.pow_succ_r by lia. lia.
  - simpl. lia.
Qed.

Lemma places_step N U m r s m' (b : bool) :
  0 < U ->
  places N U (Build_shr_record m r s) ->
  m = 2 * m' + (if b then 1 else 0) ->
  0 <= m' ->
  places N (2 * U) (Build_shr_record m' b (orb r s)).
Proof.
  intros HU (Hm & HN & Hr & Hs) Hmb Hm'. simpl in *.
  assert (E : m' * (2 * U) = m * U - (if b then U else 0)).
  { subst m. destruct b; ring. }
  assert (E1 : (m' + 1) * (2 * U) = m * U - (if b then U else 0) + 2 * U).
  { subst m. destruct b; ring. }
  assert (Hrs : orb r s = true <-> N <> m * U).
  { rewrite orb_true_iff, Hr, Hs. split.
    - intros [H|[H _]]; [lia|exact H].
    - intros H. destruct (Z.eq_dec (2 * (N - m * U)) U);
        [left; lia|right; split; assumption]. }
  clear Hr Hs Hmb.
  assert (E2 : (m + 1) * U = m * U + U) by ring.
  rewrite E2 in HN. clear E2.
  unfold places. cbn [shr_m shr_r shr_s]. rewrite E, E1. clear E E1.
  generalize dependent (m * U). intros X HN Hrs.
  split; [exact Hm'|]. split; [destruct b; lia|]. split.
  - destruct b; split; intros H; try reflexivity; try discriminate; lia.
  - rewrite Hrs. destruct b; split; intros H; lia.
Qed.

Lemma places_shr_1 N U mrs :
  0 < U -> places N U mrs -> places N (2 * U) (shr_1 mrs).
Proof.
  intros HU. destruct mrs as [m r s]. intros H.
  pose proof H as (Hm & _). simpl in Hm.
  destruct m as [|[p|p|]|p]; cbn [shr_1]; try lia.
  - apply (places_step N U 0 r s 0 false); try assumption; lia.
  - apply (places_step N U (Zpos p~1) r s (Zpos p) true); try assumption; lia.
  - apply (places_step N U (Zpos p~0) r s (Zpos p) false); try assumption; lia.
  - apply (places_step N U 1 r s 0 true); try assumption; lia.
Qed.

Lemma places_iter N U mrs n :
  0 < U -> places N U mrs ->
  places N (2 ^ Z.of_nat n * U) (Nat.iter n shr_1 mrs).
Proof.
  intros HU H. induction n as [|n IH].
  - change (2 ^ Z.of_nat 0) with 1. rewrite Z.mul_1_l. exact H.
  - rewrite Nat2Z.inj_succ, Z.pow_succ_r by lia. cbn [Nat.iter nat_rect].
    replace (2 * 2 ^ Z.of_nat n * U) with (2 * (2 ^ Z.of_nat n * U)) by ring.
    apply places_shr_1; [|exact IH].
    pose proof (Z.pow_pos_nonneg 2 (Z.of_nat n)). nia.
Qed.

(** Round to nearest even lands within one half of [U]. *)
Lemma round_nearest_even_places N U mrs :
  0 < U -> places N U mrs ->
  let m := round_nearest_even (shr_m mrs) (loc_of_shr_record mrs) in
  (m = shr_m mrs \/ m = shr_m mrs + 1)
  /\ - U <= 2 * (m * U - N) <= U.
Proof.
  intros HU. destruct mrs as [m r s]. intros (Hm & HN & Hr & Hs).
  simpl in *. 
  assert (E1 : (m + 1) * U = m * U + U) by ring.
  rewrite E1 in *. clear E1.
  destruct r, s; simpl.
  - (* Gt *) destruct (proj1 Hs eq_refl) as [H1 H2].
    pose proof (proj1 Hr eq_refl).
    split; [right; reflexivity|].
    replace ((m + 1) * U) with (m * U + U) by ring. lia.
  - (* Eq *) pose proof (proj1 Hr eq_refl).
    assert (2 * (N - m * U) = U).
    { destruct (Z.eq_dec (2 * (N - m * U)) U) as [E|E]; [exact E|].
      assert (false = true) by (apply Hs; split; [lia|exact E]). discriminate. }
    destruct (Z.even m).
    + split; [left; reflexivity|lia].
    + split; [right; reflexivity|].
      replace ((m + 1) * U) with (m * U + U) by ring. lia.
  - (* Lt *) destruct (proj1 Hs eq_refl) as [H1 H2].
    assert (~ U <= 2 * (N - m * U)).
    { intros H. apply Hr in H. discriminate. }
    split; [left; reflexivity|lia].
  - (* Exact *)
    assert (N = m * U).
    { destruct (Z.eq_dec N (m * U)) as [E|E]; [exact E|].
      destruct (Z.eq_dec (2 * (N - m * U)) U) as [E2|E2].
      - assert (false = true) by (apply Hr; lia). discriminate.
      - assert (false = true) by (apply Hs; split; assumption). discriminate. }
    split; [left; reflexivity|lia].
Qed.

Lemma digits2_pos_unique m k :
  2 ^ (k - 1) <= Zpos m < 2 ^ k -> Zpos (digits2_pos m) = k.
Proof.
  intros [H1 H2]. pose proof (digits2_pos_bounds m) as [H3 H4].
  assert (Hk : 0 < k).
  { destruct (Z.lt_ge_cases 0 k) as [H|H]; [exact H|].
    exfalso. assert (2 ^ k <= 1).
    { destruct (Z.eq_dec k 0) as [->|]; [simpl; lia|].
      rewrite Z.pow_neg_r by lia. lia. }
    lia. }
  assert (Zpos (digits2_pos m) - 1 < k).
  { apply (Z.pow_lt_mono_r_iff 2); lia. }
  assert (k - 1 < Zpos (digits2_pos m)).
  { apply (Z.pow_lt_mono_r_iff 2); lia. }
  lia.
Qed.

Lemma shr_nat mrs e n :
  0 <= n -> shr mrs e n = (Nat.iter (Z.to_nat n) shr_1 mrs, e + n).
Proof.
  intros Hn. unfold shr. destruct n as [|p|p]; [| |lia].
  - simpl. rewrite Z.add_0_r. reflexivity.
  - rewrite iter_pos_nat. reflexivity.
Qed.

(** Rounding to 53 bits in the normal range: the result keeps 53 bits and
    is within one half of the unit of the first shift. *)
Lemma binary_round_aux_normal sx m0 e0 lx N D :
  0 < D ->
  places N D (shr_record_of_loc (Zpos m0) lx) ->
  let d0 := Zpos (digits2_pos m0) in
  53 <= d0 ->
  -1074 <= e0 + d0 - 53 ->
  e0 + d0 - 53 + 1 <= 971 ->
  exists m e,
    binary_round_aux 53 1024 sx (Zpos m0) e0 lx = S754_finite sx m e
    /\ 2 ^ 52 <= Zpos m < 2 ^ 53
    /\ e0 + d0 - 53 <= e <= e0 + d0 - 53 + 1
    /\ - (2 ^ (d0 - 53) * D) <= 2 * (Zpos m * 2 ^ (e - e0) * D - N)
       <= 2 ^ (d0 - 53) * D.
Proof.
  intros HD Hpl d0 Hd0 Hlo Hhi.
  set (n := d0 - 53).
  assert (Hn : 0 <= n) by (unfold n; lia).
  pose proof (digits2_pos_bounds m0) as Hm0. fold d0 in Hm0.
  unfold binary_round_aux, shr_fexp.
  assert (Hshift1 : fexp 53 1024 (Zdigits2 (Zpos m0) + e0) - e0 = n).
  { unfold fexp, emin. simpl Zdigits2. fold d0. unfold n. lia. }
  rewrite Hshift1, (shr_nat _ _ n Hn).
  set (mrs1 := Nat.iter (Z.to_nat n) shr_1 (shr_record_of_loc (Zpos m0) lx)).
  pose proof (places_iter N D _ (Z.to_nat n) HD Hpl) as Hpl1.
  rewrite Z2Nat.id in Hpl1 by exact Hn. fold mrs1 in Hpl1.
  set (U := 2 ^ n * D) in *.
  assert (Hpow : 0 < 2 ^ n) by (apply Z.pow_pos_nonneg; lia).
  assert (HU : 0 < U) by (unfold U; nia).
  (* the mantissa after the first shift has 53 bits *)
  assert (HN0 : Zpos m0 * D <= N < (Zpos m0 + 1) * D).
  { destruct Hpl as (_ & H & _). destruct lx as [|[| |]]; exact H. }
  assert (Hd0pow : 2 ^ d0 = 2 ^ 53 * 2 ^ n).
  { unfold n. rewrite <- Z.pow_add_r by lia. f_equal. lia. }
  assert (Hd0pow' : 2 ^ (d0 - 1) = 2 ^ 52 * 2 ^ n).
  { unfold n. rewrite <- Z.pow_add_r by lia. f_equal. lia. }
  destruct Hpl1 as (Hm1 & HN1 & Hr1 & Hs1).
  set (m1 := shr_m mrs1) in *.
  assert (Hm1b : 2 ^ 52 <= m1 < 2 ^ 53).
  { rewrite Hd0pow in Hm0. rewrite Hd0pow' in Hm0. unfold U in HN1.
    split.
    - assert (2 ^ 52 * 2 ^ n * D < (m1 + 1) * (2 ^ n * D)) by nia.
      assert (2 ^ 52 < m1 + 1) by nia. lia.
    - assert (m1 * (2 ^ n * D) < 2 ^ 53 * 2 ^ n * D) by nia.
      nia. }
  pose proof (round_nearest_even_places N U mrs1 HU
                (conj Hm1 (conj HN1 (conj Hr1 Hs1)))) as [Hm2 Herr].
  fold m1 in Hm2, Herr.
  set (m2 := round_nearest_even m1 (loc_of_shr_record mrs1)) in *.
  assert (Hm2b : 2 ^ 52 <= m2 <= 2 ^ 53) by lia.
  destruct m2 as [|p2|p2] eqn:Em2; try lia.
  destruct (Z.eq_dec (Zpos p2) (2 ^ 53)) as [Htop|Hntop].
  - (* the rounding carried: one more shift, exact *)
    assert (Hdig : Zpos (digits2_pos p2) = 54).
    { apply digits2_pos_unique. rewrite Htop. simpl. lia. }
    assert (Hshift2 : fexp 53 1024 (Zdigits2 (Zpos p2) + (e0 + n)) - (e0 + n) = 1).
    { unfold fexp, emin. simpl Zdigits2. rewrite Hdig. unfold n. lia. }
    rewrite Hshift2.
    injection Htop as ->. 
    exists (2 ^ 52)%positive, (e0 + n + 1). split; [|split; [|split]].
    + cbn -[Z.leb]. 
      destruct (Z.leb_spec (e0 + n + 1) (1024 - 53)); [reflexivity|unfold n in *; lia].
    + simpl. lia.
    + unfold n. lia.
    + replace (e0 + n + 1 - e0) with (n + 1) by lia.
      rewrite Z.pow_add_r by lia. fold n.
      change (Zpos (2 ^ 52)) with (2 ^ 52). change (2 ^ 1) with 2.
      change (Zpos 9007199254740992) with (2 ^ 53) in Herr.
      replace (2 ^ 52 * (2 ^ n * 2) * D) with (2 ^ 53 * U)
        by (unfold U; change (2 ^ 53) with (2 * 2 ^ 52); ring).
      exact Herr.
  - assert (Hdig : Zpos (digits2_pos p2) = 53).
    { apply digits2_pos_unique. simpl. lia. }
    assert (Hshift2 : fexp 53 1024 (Zdigits2 (Zpos p2) + (e0 + n)) - (e0 + n) = 0).
    { unfold fexp, emin. simpl Zdigits2. rewrite Hdig. unfold n. lia. }
    rewrite Hshift2.
    exists p2, (e0 + n). split; [|split; [|split]].
    + cbn -[Z.leb].
      destruct (Z.leb_spec (e0 + n) (1024 - 53)); [reflexivity|unfold n in *; lia].
    + lia.
    + unfold n. lia.
    + replace (e0 + n - e0) with n by lia. fold n.
      replace (Zpos p2 * 2 ^ n * D) with (Zpos p2 * U) by (unfold U; ring).
      exact Herr.
Qed.

(** The relative form: the error is at most [2^-53] of the exact value. *)
Lemma binary_round_aux_relative sx m0 e0 lx N D :
  0 < D ->
  places N D (shr_record_of_loc (Zpos m0) lx) ->
  let d0 := Zpos (digits2_pos m0) in
  53 <= d0 ->
  -1074 <= e0 + d0 - 53 ->
  e0 + d0 - 53 + 1 <= 971 ->
  exists m e,
    binary_round_aux 53 1024 sx (Zpos m0) e0 lx = S754_finite sx m e
    /\ 2 ^ 52 <= Zpos m < 2 ^ 53
    /\ e0 <= e
    /\ e0 + d0 - 53 <= e <= e0 + d0 - 53 + 1
    /\ - N <= 2 ^ 53 * (Zpos m * 2 ^ (e - e0) * D - N) <= N.
Proof.
  intros HD Hpl d0 Hd0 Hlo Hhi.
  destruct (binary_round_aux_normal sx m0 e0 lx N D HD Hpl Hd0 Hlo Hhi)
    as (m & e & Heq & Hm & He & Herr).
  exists m, e. fold d0 in He, Herr.
  split; [exact Heq|]. split; [exact Hm|]. split; [lia|]. split; [exact He|].
  pose proof (digits2_pos_bounds m0) as [Hm0 _]. fold d0 in Hm0.
  assert (HN0 : Zpos m0 * D <= N).
  { destruct Hpl as (_ & H & _). destruct lx as [|[| |]]; apply H. }
  assert (Hpow : 2 ^ (d0 - 1) = 2 ^ 52 * 2 ^ (d0 - 53)).
  { rewrite <- Z.pow_add_r by lia. f_equal. lia. }
  rewrite Hpow in Hm0.
  assert (Hp : 0 < 2 ^ (d0 - 53)) by (apply Z.pow_pos_nonneg; lia).
  set (P := 2 ^ (d0 - 53)) in *.
  set (X := Zpos m * 2 ^ (e - e0) * D - N) in *.
  assert (HPD : 2 ^ 52 * (P * D) <= N) by nia.
  change (2 ^ 53) with (2 * 2 ^ 52). lia.
Qed.

Lemma scale_pos : 0 < scale.
Proof. unfold scale. apply Z.pow_pos_nonneg; lia. Qed.

Lemma places_exact N : 0 <= N -> places N 1 (shr_record_of_loc N loc_Exact).
Proof.
  intros HN. unfold places. simpl. split; [exact HN|]. split; [lia|].
  split; split; intros H; try discriminate; lia.
Qed.

Lemma pos_iter_xO p k : Zpos (Pos.iter xO p k) = Zpos p * 2 ^ Zpos k.
Proof.
  induction k as [|k IH] using Pos.peano_ind.
  - simpl. lia.
  - rewrite Pos.iter_succ, Pos2Z.inj_succ, Z.pow_succ_r by lia.
    rewrite Pos2Z.inj_xO, IH. ring.
Qed.

(** The conversion of an integer below [2^53] is exact. *)
Lemma float64_of_int_exact z :
  0 < z < 2 ^ 53 ->
  exists m e,
    float64_of_int z = S754_finite false m e
    /\ 2 ^ 52 <= Zpos m < 2 ^ 53
    /\ -52 <= e <= 0
    /\ val m e = z * scale.
Proof.
  intros [Hz0 Hz1]. destruct z as [|p|p]; try lia.
  unfold float64_of_int, binary_normalize, binary_round.
  pose proof (digits2_pos_bounds p) as [Hd1 Hd2].
  set (d := Zpos (digits2_pos p)) in *.
  assert (Hd : 1 <= d <= 53).
  { split; [unfold d; lia|].
    destruct (Z.le_gt_cases d 53) as [H|H]; [exact H|]. exfalso.
    assert (2 ^ 53 <= 2 ^ (d - 1)) by (apply Z.pow_le_mono_r; lia). lia. }
  assert (Hfexp : fexp 53 1024 (d + 0) = d - 53).
  { unfold fexp, emin. lia. }
  rewrite Hfexp. unfold shl_align.
  assert (Hcase : exists mz,
             (match d - 53 - 0 with
              | Zneg k => (Pos.iter xO p k, d - 53)
              | _ => (p, 0)
              end) = (mz, d - 53)
             /\ Zpos mz = Zpos p * 2 ^ (53 - d)).
  { destruct (Z.eq_dec d 53) as [E|E].
    - rewrite E. simpl. exists p. split; [reflexivity|]. lia.
    - destruct (d - 53 - 0) as [|k|k] eqn:Ek; try lia.
      exists (Pos.iter xO p k). split; [reflexivity|].
      rewrite pos_iter_xO. f_equal. f_equal. lia. }
  destruct Hcase as (mz & -> & Hmz).
  assert (Hmzb : 2 ^ 52 <= Zpos mz < 2 ^ 53).
  { rewrite Hmz.
    assert (E1 : 2 ^ 52 = 2 ^ (d - 1) * 2 ^ (53 - d)).
    { rewrite <- Z.pow_add_r by lia. f_equal. lia. }
    assert (E2 : 2 ^ 53 = 2 ^ d * 2 ^ (53 - d)).
    { rewrite <- Z.pow_add_r by lia. f_equal. lia. }
    assert (0 < 2 ^ (53 - d)) by (apply Z.pow_pos_nonneg; lia).
    rewrite E1, E2. nia. }
  assert (Hdz : Zpos (digits2_pos mz) = 53).
  { apply digits2_pos_unique. exact Hmzb. }
  destruct (binary_round_aux_normal false mz (d - 53) loc_Exact (Zpos mz) 1)
    as (m & e & Heq & Hm & He & Herr); try lia.
  { apply places_exact. lia. }
  rewrite Hdz in He, Herr. simpl in Herr.
  assert (Hee : e = d - 53).
  { destruct (Z.eq_dec e (d - 53)) as [E|E]; [exact E|]. exfalso.
    replace (e - (d - 53)) with 1 in Herr by lia. simpl in Herr. lia. }
  subst e. replace (d - 53 - (d - 53)) with 0 in Herr by lia.
  simpl in Herr. assert (Zpos m = Zpos mz) by lia.
  exists m, (d - 53). split; [exact Heq|]. split; [lia|]. split; [lia|].
  unfold val, scale. replace (Zpos m) with (Zpos mz) by lia. rewrite Hmz.
  rewrite <- Z.mul_assoc, <- Z.pow_add_r by lia. do 2 f_equal. lia.
Qed.

(** Multiplication of two normal numbers with 53-bit mantissas. *)
Lemma float64_mul_relative m1 e1 m2 e2 :
  2 ^ 52 <= Zpos m1 < 2 ^ 53 ->
  2 ^ 52 <= Zpos m2 < 2 ^ 53 ->
  -500 <= e1 <= 400 ->
  -500 <= e2 <= 400 ->
  exists m e,
    float64_mul (S754_finite false m1 e1) (S754_finite false m2 e2)
    = S754_finite false m e
    /\ 2 ^ 52 <= Zpos m < 2 ^ 53
    /\ e1 + e2 + 52 <= e <= e1 + e2 + 54
    /\ - (val m1 e1 * val m2 e2)
       <= 2 ^ 53 * (val m e * scale - val m1 e1 * val m2 e2)
       <= val m1 e1 * val m2 e2.
Proof.
  intros Hm1 Hm2 He1 He2.
  unfold float64_mul, SFmul. simpl xorb.
  assert (Hprod : 2 ^ 104 <= Zpos (m1 * m2) < 2 ^ 106).
  { rewrite Pos2Z.inj_mul.
    change (2 ^ 104) with (2 ^ 52 * 2 ^ 52).
    change (2 ^ 106) with (2 ^ 53 * 2 ^ 53). nia. }
  assert (Hd : Zpos (digits2_pos (m1 * m2)) = 105
               \/ Zpos (digits2_pos (m1 * m2)) = 106).
  { destruct (Z.lt_ge_cases (Zpos (m1 * m2)) (2 ^ 105)).
    - left. apply digits2_pos_unique. simpl. lia.
    - right. apply digits2_pos_unique. simpl. lia. }
  destruct (binary_round_aux_relative false (m1 * m2) (e1 + e2) loc_Exact
              (Zpos (m1 * m2)) 1)
    as (m & e & Heq & Hm & He0 & He' & Herr); try lia.
  { apply places_exact. lia. }
  exists m, e. split; [exact Heq|]. split; [exact Hm|]. split; [lia|].
  unfold val, scale.
  set (c := 2 ^ (e1 + e2 + 2200)).
  assert (Hc : 0 < c) by (apply Z.pow_pos_nonneg; lia).
  assert (E1 : Zpos m * 2 ^ (e + 1100) * 2 ^ 1100
               = Zpos m * 2 ^ (e - (e1 + e2)) * c).
  { unfold c. rewrite <- !Z.mul_assoc, <- !Z.pow_add_r by lia.
    do 2 f_equal. lia. }
  assert (E2 : Zpos m1 * 2 ^ (e1 + 1100) * (Zpos m2 * 2 ^ (e2 + 1100))
               = Zpos (m1 * m2) * c).
  { unfold c. rewrite Pos2Z.inj_mul.
    replace (e1 + e2 + 2200) with ((e1 + 1100) + (e2 + 1100)) by lia.
    rewrite (Z.pow_add_r 2 (e1 + 1100) (e2 + 1100)) by lia. ring. }
  rewrite E1, E2. rewrite Z.mul_1_r in Herr.
  set (A := Zpos m * 2 ^ (e - (e1 + e2))) in *.
  set (N := Zpos (m1 * m2)) in *.
  replace (A * c - N * c) with ((A - N) * c) by ring. nia.
Qed.

Lemma places_new_location D q r :
  0 < D -> 0 <= q -> 0 <= r < D ->
  places (D * q + r) D (shr_record_of_loc q (new_location D r)).
Proof.
  intros HD Hq Hr. unfold places.
  assert (Hm : shr_m (shr_record_of_loc q (new_location D r)) = q).
  { destruct (new_location D r) as [|[| |]]; reflexivity. }
  rewrite Hm. split; [exact Hq|]. split; [lia|].
  replace (D * q + r - q * D) with r by ring.
  assert (Hne : D * q + r <> q * D <-> r <> 0) by lia.
  rewrite Hne. clear Hne Hm.
  unfold new_location, new_location_even, new_location_odd.
  destruct (Z.even D) eqn:Heven.
  - destruct (Z.eqb_spec r 0) as [->|Hr0]; simpl.
    + split; split; intros H; try discriminate; lia.
    + destruct (Z.compare_spec (2 * r) D); simpl;
        split; split; intros H'; try reflexivity; try discriminate; lia.
  - assert (Hodd : 2 * r <> D).
    { intros E. rewrite <- E in Heven. rewrite Z.even_mul in Heven.
      discriminate. }
    destruct (Z.eqb_spec r 0) as [->|Hr0]; simpl.
    + split; split; intros H; try discriminate; lia.
    + destruct (Z.compare_spec (2 * r + 1) D); simpl;
        split; split; intros H'; try reflexivity; try discriminate; lia.
Qed.

(** Division of two normal numbers with 53-bit mantissas. *)
Lemma float64_div_relative m1 e1 m2 e2 :
  2 ^ 52 <= Zpos m1 < 2 ^ 53 ->
  2 ^ 52 <= Zpos m2 < 2 ^ 53 ->
  -500 <= e1 <= 400 ->
  -500 <= e2 <= 400 ->
  exists m e,
    float64_div (S754_finite false m1 e1) (S754_finite false m2 e2)
    = S754_finite false m e
    /\ 2 ^ 52 <= Zpos m < 2 ^ 53
    /\ e1 - e2 - 53 <= e <= e1 - e2 - 51
    /\ - (val m1 e1 * scale)
       <= 2 ^ 53 * (val m e * val m2 e2 - val m1 e1 * scale)
       <= val m1 e1 * scale.
Proof.
  intros Hm1 Hm2 He1 He2.
  unfold float64_div, SFdiv, SFdiv_core_binary. simpl xorb. simpl Zdigits2.
  rewrite (digits2_pos_unique m1 53 Hm1), (digits2_pos_unique m2 53 Hm2).
  assert (He' : Z.min (fexp 53 1024 (53 + e1 - (53 + e2))) (e1 - e2)
                = e1 - e2 - 53).
  { unfold fexp, emin. lia. }
  rewrite He'. replace (e1 - e2 - (e1 - e2 - 53)) with 53 by lia.
  rewrite Z.shiftl_mul_pow2 by lia.
  pose proof (Z_div_mod (Zpos m1 * 2 ^ 53) (Zpos m2) ltac:(lia)) as Hdiv.
  destruct (Z.div_eucl (Zpos m1 * 2 ^ 53) (Zpos m2)) as [q r].
  destruct Hdiv as [Hqr Hr].
  assert (Hq : 2 ^ 52 <= q < 2 ^ 54).
  { change (2 ^ 54) with (2 * 2 ^ 53) in *. split; nia. }
  destruct q as [|pq|pq]; try lia.
  assert (Hd : Zpos (digits2_pos pq) = 53 \/ Zpos (digits2_pos pq) = 54).
  { destruct (Z.lt_ge_cases (Zpos pq) (2 ^ 53)).
    - left. apply digits2_pos_unique. simpl. lia.
    - right. apply digits2_pos_unique. simpl. lia. }
  destruct (binary_round_aux_relative false pq (e1 - e2 - 53)
              (new_location (Zpos m2) r) (Zpos m1 * 2 ^ 53) (Zpos m2))
    as (m & e & Heq & Hm & He0 & Hee & Herr); try lia.
  { rewrite Hqr. apply places_new_location; lia. }
  exists m, e. split; [exact Heq|]. split; [exact Hm|]. split; [lia|].
  unfold val, scale.
  set (c := 2 ^ (e1 + 2147)).
  assert (Hc : 0 < c) by (apply Z.pow_pos_nonneg; lia).
  assert (E1 : Zpos m * 2 ^ (e + 1100) * (Zpos m2 * 2 ^ (e2 + 1100))
               = Zpos m * 2 ^ (e - (e1 - e2 - 53)) * Zpos m2 * c).
  { unfold c.
    replace (e1 + 2147)
      with ((e + 1100) + (e2 + 1100) - (e - (e1 - e2 - 53))) by lia.
    assert (Hs : 2 ^ (e + 1100) * 2 ^ (e2 + 1100)
                 = 2 ^ (e - (e1 - e2 - 53))
                   * 2 ^ (e + 1100 + (e2 + 1100) - (e - (e1 - e2 - 53)))).
    { rewrite <- !Z.pow_add_r by lia. f_equal. lia. }
    set (a := 2 ^ (e + 1100)) in *. set (b := 2 ^ (e2 + 1100)) in *.
    set (x := 2 ^ (e - (e1 - e2 - 53))) in *.
    set (y := 2 ^ (e + 1100 + (e2 + 1100) - (e - (e1 - e2 - 53)))) in *.
    transitivity (Zpos m * Zpos m2 * (a * b)); [ring|].
    rewrite Hs. ring. }
  assert (E2 : Zpos m1 * 2 ^ (e1 + 1100) * 2 ^ 1100
               = Zpos m1 * 2 ^ 53 * c).
  { unfold c. rewrite <- !Z.mul_assoc, <- !Z.pow_add_r by lia.
    do 2 f_equal. lia. }
  rewrite E1, E2.
  set (A := Zpos m * 2 ^ (e - (e1 - e2 - 53)) * Zpos m2) in *.
  set (N := Zpos m1 * 2 ^ 53) in *.
  replace (A * c - N * c) with ((A - N) * c) by ring. nia.
Qed.
Lemma val_pos m e : -1100 <= e -> 0 < val m e.
Proof.
  intros He. unfold val. apply Z.mul_pos_pos; [lia|].
  apply Z.pow_pos_nonneg; lia.
Qed.

Lemma int_of_float64_val m e :
  -1100 <= e ->
  val m e / scale < 2 ^ 63 ->
  int_of_float64 (S754_finite false m e) = Some (val m e / scale).
Proof.
  intros He Hlt.
  assert (Hmag : (if 0 <=? e then Zpos m * 2 ^ e else Zpos m / 2 ^ (- e))
                 = val m e / scale).
  { unfold val, scale. destruct (Z.leb_spec 0 e).
    - rewrite Z.pow_add_r by lia. rewrite Z.mul_assoc.
      rewrite Z.div_mul; [reflexivity|].
      apply Z.pow_nonzero; lia.
    - assert (Hs : 2 ^ 1100 = 2 ^ (- e) * 2 ^ (e + 1100)).
      { rewrite <- Z.pow_add_r by lia. f_equal. lia. }
      rewrite Hs.
      rewrite Z.div_mul_cancel_r; try (apply Z.pow_nonzero; lia).
      reflexivity. }
  assert (Hge : 0 <= val m e / scale).
  { apply Z.div_pos; [pose proof (val_pos m e He); lia | apply scale_pos]. }
  unfold int_of_float64. cbv zeta. rewrite Hmag.
  rewrite (proj2 (Z.leb_le (- 2 ^ 63) (val m e / scale))) by lia.
  rewrite (proj2 (Z.ltb_lt (val m e / scale) (2 ^ 63))) by lia.
  reflexivity.
Qed.

Lemma val_one : val 4503599627370496 (-52) = scale.
Proof.
  unfold val, scale.
  replace (Zpos 4503599627370496) with (2 ^ 52) by reflexivity.
  replace (-52 + 1100) with 1048 by reflexivity.
  rewrite <- Z.pow_add_r by lia.
  f_equal.
Qed.

Lemma float64_eqb_one_inv m e :
  SFeqb (S754_finite false m e) float64_one = true ->
  e = -52 /\ m = 4503599627370496%positive.
Proof.
  unfold SFeqb. cbn [SFcompare float64_one].
  destruct (Z.compare_spec e (-52)) as [He|Hlt|Hgt].
  2: intros H; discriminate H.
  2: intros H; discriminate H.
  intros H. split; [exact He|].
  apply Pos.compare_eq. unfold Pos.compare.
  destruct (Pos.compare_cont Eq m 4503599627370496);
    [reflexivity | discriminate H | discriminate H].
Qed.

Lemma float64_eqb_one m e :
  SFeqb (S754_finite false m e) float64_one = true -> val m e = scale.
Proof.
  intros H. apply float64_eqb_one_inv in H as [He Hm].
  rewrite He, Hm. exact val_one.
Qed.

(** A rate divided by itself is exactly [1.0]. *)
Lemma float64_div_self z :
  0 < z < 2 ^ 53 ->
  float64_div (float64_of_int z) (float64_of_int z) = float64_one.
Proof.
  intros Hz.
  destruct (float64_of_int_exact z Hz) as (m & e & -> & Hm & He & _).
  unfold float64_div, SFdiv, SFdiv_core_binary. simpl xorb. simpl Zdigits2.
  rewrite (digits2_pos_unique m 53 Hm).
  replace (53 + e - (53 + e)) with 0 by lia.
  replace (e - e) with 0 by lia.
  change (Z.min (fexp 53 1024 0) 0) with (-53).
  change (0 - -53) with 53.
  rewrite Z.shiftl_mul_pow2 by lia.
  pose proof (Z_div_mod (Zpos m * 2 ^ 53) (Zpos m) ltac:(lia)) as Hdiv.
  destruct (Z.div_eucl (Zpos m * 2 ^ 53) (Zpos m)) as [q r].
  destruct Hdiv as [Hqr Hr].
  assert (Hq : q = 2 ^ 53).
  { rewrite (Z.div_unique_pos (Zpos m * 2 ^ 53) (Zpos m) q r Hr Hqr).
    rewrite Z.mul_comm. apply Z.div_mul. lia. }
  assert (Hr0 : r = 0).
  { rewrite (Z.mod_unique_pos (Zpos m * 2 ^ 53) (Zpos m) q r Hr Hqr).
    rewrite Z.mul_comm. apply Z.mod_mul. lia. }
  rewrite Hq, Hr0.
  assert (Hloc : new_location (Zpos m) 0 = loc_Exact).
  { unfold new_location, new_location_even, new_location_odd.
    destruct (Z.even (Zpos m)); reflexivity. }
  rewrite Hloc. reflexivity.
Qed.

(** The ratio of two rates: the quotient up to a relative error of
    [2 ^ -53]. *)
Lemma ratio_spec fromRate toRate :
  0 < fromRate < 2 ^ 53 ->
  0 < toRate < 2 ^ 53 ->
  exists m e,
    float64_div (float64_of_int toRate) (float64_of_int fromRate)
    = S754_finite false m e
    /\ 2 ^ 52 <= Zpos m < 2 ^ 53
    /\ -105 <= e <= 1
    /\ - (toRate * scale)
       <= 2 ^ 53 * (val m e * fromRate - toRate * scale)
       <= toRate * scale.
Proof.
  intros Hfrom Hto.
  destruct (float64_of_int_exact toRate Hto)
    as (mt & et & -> & Hmt & Het & Hvt).
  destruct (float64_of_int_exact fromRate Hfrom)
    as (mf & ef & -> & Hmf & Hef & Hvf).
  destruct (float64_div_relative mt et mf ef)
    as (m & e & Heq & Hm & He & Herr); try lia.
  exists m, e. split; [exact Heq|]. split; [exact Hm|]. split; [lia|].
  rewrite Hvt, Hvf in Herr.
  pose proof scale_pos as HB.
  set (B := scale) in *. set (R := val m e) in *. clearbody B R.
  replace (2 ^ 53 * (R * (fromRate * B) - toRate * B * B))
    with (B * (2 ^ 53 * (R * fromRate - toRate * B))) in Herr by ring.
  replace (toRate * B * B) with (B * (toRate * B)) in Herr by ring.
  rewrite <- Z.mul_opp_r in Herr.
  destruct Herr as [Hlo Hhi].
  apply Z.mul_le_mono_pos_l in Hlo; [|exact HB].
  apply Z.mul_le_mono_pos_l in Hhi; [|exact HB].
  lia.
Qed.
(** The product [float64(N) * ratio], for a ratio within [2 ^ -53] of
    [toRate / fromRate]: it lies strictly between the two integers next to
    the floor of [N * toRate / fromRate]. *)
Lemma outputLen_spec fromRate toRate N m e :
  0 < fromRate -> 0 < toRate -> 0 < N < 2 ^ 53 ->
  2 ^ 52 <= Zpos m < 2 ^ 53 -> -105 <= e <= 1 ->
  - (toRate * scale)
    <= 2 ^ 53 * (val m e * fromRate - toRate * scale)
    <= toRate * scale ->
  N * toRate < 2 ^ 46 * fromRate ->
  exists mP eP,
    float64_mul (float64_of_int N) (S754_finite false m e)
    = S754_finite false mP eP
    /\ -1100 <= eP
    /\ - (N * val m e) <= 2 ^ 53 * (val mP eP - N * val m e) <= N * val m e
    /\ (N * toRate / fromRate - 1) * scale < val mP eP
       < (N * toRate / fromRate + 2) * scale.
Proof.
  intros Hfrom Hto HN Hm He Hr Hfit.
  destruct (float64_of_int_exact N HN) as (mn & en & -> & Hmn & Hen & Hvn).
  destruct (float64_mul_relative mn en m e)
    as (mP & eP & Heq & HmP & HeP & Herr); try lia.
  exists mP, eP. split; [exact Heq|]. split; [lia|].
  rewrite Hvn in Herr.
  pose proof scale_pos as HB.
  pose proof (Z.mul_div_le (N * toRate) fromRate Hfrom) as HF1.
  pose proof (Z.mul_succ_div_gt (N * toRate) fromRate Hfrom) as HF2.
  set (F := N * toRate / fromRate) in *.
  set (B := scale) in *. set (R := val m e) in *.
  set (V := val mP eP) in *. clearbody B R V F.
  assert (H2 : - (N * R) <= 2 ^ 53 * (V - N * R) <= N * R).
  { replace (2 ^ 53 * (V * B - N * B * R))
      with (B * (2 ^ 53 * (V - N * R))) in Herr by ring.
    replace (N * B * R) with (B * (N * R)) in Herr by ring.
    rewrite <- Z.mul_opp_r in Herr.
    destruct Herr as [Hlo Hhi].
    apply Z.mul_le_mono_pos_l in Hlo; [|exact HB].
    apply Z.mul_le_mono_pos_l in Hhi; [|exact HB].
    lia. }
  split; [exact H2|].
  destruct H2 as [H2lo H2hi]. destruct Hr as [Hrlo Hrhi].
  apply (Z.mul_le_mono_nonneg_r _ _ fromRate) in H2lo; [|lia].
  apply (Z.mul_le_mono_nonneg_r _ _ fromRate) in H2hi; [|lia].
  apply (Z.mul_le_mono_nonneg_r _ _ N) in Hrlo; [|lia].
  apply (Z.mul_le_mono_nonneg_r _ _ N) in Hrhi; [|lia].
  assert (HF1' : fromRate * F * B <= N * toRate * B).
  { apply Z.mul_le_mono_nonneg_r; lia. }
  assert (HF2' : (N * toRate + 1) * B <= fromRate * Z.succ F * B).
  { apply Z.mul_le_mono_nonneg_r; lia. }
  assert (Hfit' : (N * toRate + 1) * B <= 2 ^ 46 * fromRate * B).
  { apply Z.mul_le_mono_nonneg_r; lia. }
  assert (Ht : 0 < fromRate * B) by (apply Z.mul_pos_pos; lia).
  split.
  - apply (Z.mul_lt_mono_pos_r fromRate); [lia|]. lia.
  - apply (Z.mul_lt_mono_pos_r fromRate); [lia|]. lia.
Qed.

(** A source position [float64(i) / ratio] for an output index [i]
    truncates to an index of the input or to its length. *)
Lemma srcIdx_spec N m e mP eP i :
  2 ^ 52 <= Zpos m < 2 ^ 53 -> -105 <= e <= 1 ->
  0 <= N <= 2 ^ 46 ->
  2 ^ 53 * (val mP eP - N * val m e) <= N * val m e ->
  0 < i < 2 ^ 53 ->
  (i + 1) * scale <= val mP eP ->
  exists k,
    int_of_float64 (float64_div (float64_of_int i) (S754_finite false m e))
    = Some k
    /\ 0 <= k <= N.
Proof.
  intros Hm He HN H2 Hi HiV.
  destruct (float64_of_int_exact i Hi) as (mi & ei & -> & Hmi & Hei & Hvi).
  destruct (float64_div_relative mi ei m e)
    as (mq & eq & Heq & Hmq & Heq' & Herr); try lia.
  rewrite Heq. rewrite Hvi in Herr.
  pose proof scale_pos as HB.
  pose proof (val_pos m e ltac:(lia)) as HR.
  pose proof (val_pos mq eq ltac:(lia)) as HQ.
  assert (Hlt : val mq eq < (N + 1) * scale).
  { set (B := scale) in *. set (R := val m e) in *.
    set (V := val mP eP) in *. set (Q := val mq eq) in *.
    clearbody B R V Q.
    destruct (Z.lt_ge_cases Q ((N + 1) * B)) as [|Hge]; [assumption|].
    exfalso.
    destruct Herr as [_ Hhi].
    apply (Z.mul_le_mono_nonneg_r _ _ B) in HiV; [|lia].
    apply (Z.mul_le_mono_nonneg_r _ _ B) in H2; [|lia].
    apply (Z.mul_le_mono_nonneg_r _ _ R) in Hge; [|lia].
    assert (HBB : 0 < B * B) by (apply Z.mul_pos_pos; lia).
    assert (HBR : 0 < B * R) by (apply Z.mul_pos_pos; lia).
    assert (HN' : N * (B * R) <= 2 ^ 46 * (B * R)).
    { apply Z.mul_le_mono_nonneg_r; lia. }
    lia. }
  assert (Hk : 0 <= val mq eq / scale <= N).
  { split.
    - apply Z.div_pos; lia.
    - apply Z.lt_succ_r. apply Z.div_lt_upper_bound; [exact HB|]. lia. }
  exists (val mq eq / scale). split; [|exact Hk].
  apply int_of_float64_val; lia.
Qed.

Lemma srcIdx_zero m e :
  int_of_float64 (float64_div (float64_of_int 0) (S754_finite false m e))
  = Some 0.
Proof. reflexivity. Qed.
(** ** Package audio: the polyphase resampler *)

Lemma to_int_Some f z :
  int_of_float64 f = Some z -> Polyphase.to_int f = Polyphase.Done z.
Proof. intros H. unfold Polyphase.to_int. rewrite H. reflexivity. Qed.

(** Output length and source positions, for the ratio of two rates. *)
Lemma outputLen_Done fromRate toRate N :
  0 < fromRate < 2 ^ 53 -> 0 < toRate < 2 ^ 53 ->
  0 < N <= 2 ^ 46 ->
  N * toRate / fromRate + 1 <= 2 ^ 46 ->
  let rho := float64_div (float64_of_int toRate) (float64_of_int fromRate) in
  exists L,
    Polyphase.to_int (float64_mul (float64_of_int N) rho) = Polyphase.Done L
    /\ N * toRate / fromRate - 1 <= L <= N * toRate / fromRate + 1
    /\ 0 <= L
    /\ forall i, 0 <= i < L ->
         exists k,
           Polyphase.to_int (float64_div (float64_of_int i) rho)
           = Polyphase.Done k
           /\ 0 <= k <= N.
Proof.
  intros Hfrom Hto HN HF rho. subst rho.
  destruct (ratio_spec fromRate toRate Hfrom Hto)
    as (m & e & -> & Hm & He & Hr).
  assert (Hfit : N * toRate < 2 ^ 46 * fromRate).
  { pose proof (Z.mul_succ_div_gt (N * toRate) fromRate ltac:(lia)) as H.
    assert (fromRate * Z.succ (N * toRate / fromRate) <= fromRate * 2 ^ 46).
    { apply Z.mul_le_mono_nonneg_l; lia. }
    lia. }
  destruct (outputLen_spec fromRate toRate N m e)
    as (mP & eP & Heq & HeP & H2 & Hlo & Hhi); try lia.
  pose proof scale_pos as HB.
  pose proof (val_pos mP eP HeP) as HV.
  assert (HL : N * toRate / fromRate - 1 <= val mP eP / scale
               <= N * toRate / fromRate + 1).
  { split.
    - apply Z.div_le_lower_bound; [exact HB|]. lia.
    - apply Z.lt_succ_r. apply Z.div_lt_upper_bound; [exact HB|]. lia. }
  assert (HL0 : 0 <= val mP eP / scale) by (apply Z.div_pos; lia).
  exists (val mP eP / scale). rewrite Heq.
  split; [apply to_int_Some, int_of_float64_val; lia|].
  split; [exact HL|]. split; [exact HL0|].
  intros i Hi.
  destruct (Z.eq_dec i 0) as [->|Hi0].
  - exists 0. split; [apply to_int_Some, srcIdx_zero | lia].
  - pose proof (Z.mul_div_le (val mP eP) scale HB) as Hmd.
    assert (HiV : (i + 1) * scale <= val mP eP).
    { assert ((i + 1) * scale <= val mP eP / scale * scale).
      { apply Z.mul_le_mono_nonneg_r; lia. }
      lia. }
    destruct (srcIdx_spec N m e mP eP i) as (k & Hk & Hk'); try lia.
    exists k. split; [apply to_int_Some, Hk | exact Hk'].
Qed.

Lemma index_Done (s : list Z) i :
  0 <= i < Z.of_nat (length s) -> exists x, Polyphase.index s i = Polyphase.Done x.
Proof.
  intros Hi. unfold Polyphase.index.
  destruct (Z.ltb_spec i 0); [lia|].
  destruct (s !! Z.to_nat i) as [x|] eqn:E; [eauto|].
  apply lookup_ge_None in E. lia.
Qed.

Lemma reslice_Done (s : list Z) i :
  0 <= i <= Z.of_nat (length s) ->
  Polyphase.reslice s i = Polyphase.Done (drop (Z.to_nat i) s).
Proof.
  intros Hi. unfold Polyphase.reslice.
  rewrite (proj2 (Z.leb_le 0 i)) by lia.
  rewrite (proj2 (Z.leb_le i (Z.of_nat (length s)))) by lia.
  reflexivity.
Qed.

Lemma makeslice_Done n :
  0 <= n -> 4 * n <= Polyphase.maxAlloc ->
  Polyphase.makeslice n = Polyphase.Done (Capture.make n).
Proof.
  intros H0 H1. unfold Polyphase.makeslice.
  rewrite (proj2 (Z.ltb_ge n 0)) by lia.
  rewrite (proj2 (Z.ltb_ge Polyphase.maxAlloc (4 * n))) by lia.
  reflexivity.
Qed.

Lemma length_make n : length (Capture.make n) = Z.to_nat n.
Proof. unfold Capture.make. apply length_replicate. Qed.

Lemma length_copy dst src :
  length (Capture.copy dst src).1 = length dst.
Proof.
  unfold Capture.copy. cbn [fst].
  rewrite length_app, length_take, length_drop. lia.
Qed.

Lemma assign_Done body n : forall i output,
  (forall j, i <= j < i + Z.of_nat n ->
     exists v, body j = Polyphase.Done v) ->
  exists output',
    Polyphase.assign body n i output = Polyphase.Done output'
    /\ length output' = length output.
Proof.
  induction n as [|n IH]; intros i output Hbody.
  - exists output. split; reflexivity.
  - cbn [Polyphase.assign].
    destruct (Hbody i ltac:(lia)) as (v & ->). cbn [Polyphase.bind].
    destruct (IH (i + 1) (<[Z.to_nat i := v]> output)) as (o & Ho & Hlen).
    { intros j Hj. apply Hbody. lia. }
    exists o. split; [exact Ho|].
    rewrite Hlen. apply length_insert.
Qed.
Section ResampleFacts.

Variables f32_add f32_sub f32_mul f32_div : Z -> Z -> Z.
Variable float32_of_float64 : spec_float -> Z.
Variable windowedSinc : spec_float -> spec_float -> Z -> spec_float.

Local Abbreviation NewPolyphaseResampler :=
  (Polyphase.NewPolyphaseResampler f32_add f32_div float32_of_float64
                                   windowedSinc).
Local Abbreviation state_of :=
  (Polyphase.state_of f32_add f32_div float32_of_float64 windowedSinc).
Local Abbreviation interpolate :=
  (Polyphase.interpolate f32_add f32_sub f32_mul float32_of_float64).
Local Abbreviation upsample :=
  (Polyphase.upsample f32_add f32_sub f32_mul float32_of_float64).
Local Abbreviation taps := (Polyphase.taps f32_add f32_mul).
Local Abbreviation convolve := (Polyphase.convolve f32_add f32_mul).
Local Abbreviation downsample := (Polyphase.downsample f32_add f32_mul).
Local Abbreviation Resample :=
  (Polyphase.Resample f32_add f32_sub f32_mul float32_of_float64).

Lemma state_of_New fromRate toRate :
  state_of fromRate toRate (NewPolyphaseResampler fromRate toRate).
Proof. repeat split. Qed.

Lemma state_of_facts fromRate toRate r :
  state_of fromRate toRate r ->
  Polyphase.ratio r
  = float64_div (float64_of_int toRate) (float64_of_int fromRate)
  /\ Polyphase.filterLen r = 64
  /\ length (Polyphase.filter r) = 64%nat
  /\ length (Polyphase.history r) = 64%nat.
Proof.
  intros (H1 & H2 & H3 & H4).
  split; [exact H1|]. split; [exact H3|]. split.
  - rewrite H2. cbn [Polyphase.filter Polyphase.NewPolyphaseResampler].
    rewrite !length_fmap, length_seqZ. reflexivity.
  - rewrite H4. reflexivity.
Qed.

Lemma state_of_with_history fromRate toRate r h :
  state_of fromRate toRate r -> length h = 64%nat ->
  state_of fromRate toRate (Polyphase.with_history r h).
Proof.
  intros (H1 & H2 & H3 & H4) Hh.
  split; [exact H1|]. split; [exact H2|]. split; [exact H3|].
  cbn [Polyphase.with_history Polyphase.history]. rewrite Hh. reflexivity.
Qed.

Lemma state_of_with_lastSample fromRate toRate r x :
  state_of fromRate toRate r ->
  state_of fromRate toRate (Polyphase.with_lastSample r x).
Proof. intros (H1 & H2 & H3 & H4). repeat split; assumption. Qed.

Lemma interpolate_Done r (input : list Z) i k :
  Z.of_nat (length input) <= 2 ^ 46 ->
  Polyphase.to_int (float64_div (float64_of_int i) (Polyphase.ratio r))
  = Polyphase.Done k ->
  0 <= k <= Z.of_nat (length input) ->
  exists v, interpolate r input i = Polyphase.Done v.
Proof.
  intros HN Hk Hrange. unfold Polyphase.interpolate. cbv zeta.
  rewrite Hk. cbn [Polyphase.bind].
  rewrite (wrap_int_small (k + 1)) by lia.
  assert (H1 : exists s1,
    (if k <? Z.of_nat (length input) then Polyphase.index input k
     else Polyphase.Done (Polyphase.lastSample r)) = Polyphase.Done s1).
  { destruct (Z.ltb_spec k (Z.of_nat (length input))); [|eauto].
    apply index_Done. lia. }
  destruct H1 as (s1 & ->). cbn [Polyphase.bind].
  assert (H2 : exists s2,
    (if k + 1 <? Z.of_nat (length input)
     then Polyphase.index input (k + 1)
     else if k <? Z.of_nat (length input)
          then Polyphase.index input (Z.of_nat (length input) - 1)
          else Polyphase.Done s1) = Polyphase.Done s2).
  { destruct (Z.ltb_spec (k + 1) (Z.of_nat (length input))).
    - apply index_Done. lia.
    - destruct (Z.ltb_spec k (Z.of_nat (length input))); [|eauto].
      apply index_Done. lia. }
  destruct H2 as (s2 & ->). cbn [Polyphase.bind]. eauto.
Qed.

Lemma taps_Done r (combined : list Z) srcIdx n : forall j sample,
  0 <= j ->
  j + Z.of_nat n <= Z.of_nat (length (Polyphase.filter r)) ->
  exists v, taps r combined srcIdx n j sample = Polyphase.Done v.
Proof.
  induction n as [|n IH]; intros j sample Hj Hn.
  - eexists. reflexivity.
  - cbn [Polyphase.taps]. cbv zeta.
    set (idx := wrap_int (wrap_int (srcIdx - Polyphase.filterLen r ÷ 2) + j)).
    destruct ((0 <=? idx) && (idx <? Z.of_nat (length combined))) eqn:Hg.
    + apply andb_true_iff in Hg as [Hg1 Hg2].
      apply Z.leb_le in Hg1. apply Z.ltb_lt in Hg2.
      destruct (index_Done combined idx ltac:(lia)) as (c & ->).
      destruct (index_Done (Polyphase.filter r) j ltac:(lia)) as (f & ->).
      cbn [Polyphase.bind]. apply IH; lia.
    + apply IH; lia.
Qed.

Lemma convolve_Done r (combined : list Z) i k :
  Polyphase.filterLen r = Z.of_nat (length (Polyphase.filter r)) ->
  Polyphase.to_int (float64_div (float64_of_int i) (Polyphase.ratio r))
  = Polyphase.Done k ->
  exists v, convolve r combined i = Polyphase.Done v.
Proof.
  intros Hlen Hk. unfold Polyphase.convolve. cbv zeta.
  rewrite Hk. cbn [Polyphase.bind].
  apply taps_Done; [lia|]. rewrite Hlen. lia.
Qed.

Lemma upsample_Done fromRate toRate r (input : list Z) :
  0 < fromRate < 2 ^ 53 -> 0 < toRate < 2 ^ 53 ->
  0 < Z.of_nat (length input) ->
  4 * Z.of_nat (length input) <= Polyphase.maxAlloc ->
  4 * (Z.of_nat (length input) * toRate / fromRate + 1)
  <= Polyphase.maxAlloc ->
  state_of fromRate toRate r ->
  exists output r',
    upsample r input = Polyphase.Done (output, r')
    /\ state_of fromRate toRate r'
    /\ Z.of_nat (length input) * toRate / fromRate - 1
       <= Z.of_nat (length output)
       <= Z.of_nat (length input) * toRate / fromRate + 1.
Proof.
  intros Hfrom Hto HN0 HN HF Hst.
  destruct (state_of_facts _ _ _ Hst) as (Hratio & HfL & Hfilter & Hhist).
  unfold Polyphase.maxAlloc in HN, HF.
  destruct (outputLen_Done fromRate toRate (Z.of_nat (length input)))
    as (L & HL & HLF & HL0 & Hidx); try lia.
  unfold Polyphase.upsample. cbv zeta.
  rewrite Hratio, HL. cbn [Polyphase.bind].
  rewrite makeslice_Done by (unfold Polyphase.maxAlloc; lia).
  cbn [Polyphase.bind].
  destruct (assign_Done (interpolate r input) (Z.to_nat L) 0
                        (Capture.make L)) as (out & Hout & Hlen).
  { intros j Hj. destruct (Hidx j ltac:(lia)) as (k & Hk & Hk').
    apply (interpolate_Done r input j k); [lia | | exact Hk'].
    rewrite Hratio. exact Hk. }
  rewrite Hout. cbn [Polyphase.bind].
  rewrite (proj2 (Z.ltb_lt 0 (Z.of_nat (length input)))) by lia.
  destruct (index_Done input (Z.of_nat (length input) - 1) ltac:(lia))
    as (x & ->).
  cbn [Polyphase.bind].
  exists out, (Polyphase.with_lastSample r x).
  split; [reflexivity|].
  split; [apply state_of_with_lastSample, Hst|].
  rewrite Hlen, length_make. lia.
Qed.

Lemma downsample_Done fromRate toRate r (input : list Z) :
  0 < fromRate < 2 ^ 53 -> 0 < toRate < 2 ^ 53 ->
  0 < Z.of_nat (length input) ->
  4 * Z.of_nat (length input) <= Polyphase.maxAlloc ->
  4 * (Z.of_nat (length input) * toRate / fromRate + 1)
  <= Polyphase.maxAlloc ->
  state_of fromRate toRate r ->
  exists output r',
    downsample r input = Polyphase.Done (output, r')
    /\ state_of fromRate toRate r'
    /\ Z.of_nat (length input) * toRate / fromRate - 1
       <= Z.of_nat (length output)
       <= Z.of_nat (length input) * toRate / fromRate + 1.
Proof.
  intros Hfrom Hto HN0 HN HF Hst.
  destruct (state_of_facts _ _ _ Hst) as (Hratio & HfL & Hfilter & Hhist).
  unfold Polyphase.maxAlloc in HN, HF.
  destruct (outputLen_Done fromRate toRate (Z.of_nat (length input)))
    as (L & HL & HLF & HL0 & Hidx); try lia.
  unfold Polyphase.downsample. cbv zeta.
  rewrite Hratio, HL. cbn [Polyphase.bind].
  rewrite makeslice_Done by (unfold Polyphase.maxAlloc; lia).
  cbn [Polyphase.bind].
  destruct (assign_Done (convolve r (Polyphase.history r ++ input))
                        (Z.to_nat L) 0 (Capture.make L))
    as (out & Hout & Hlen).
  { intros j Hj. destruct (Hidx j ltac:(lia)) as (k & Hk & Hk').
    apply (convolve_Done r _ j k); [lia|].
    rewrite Hratio. exact Hk. }
  rewrite Hout. cbn [Polyphase.bind].
  assert (Hbound : Z.of_nat (length input) * toRate / fromRate - 1
                   <= Z.of_nat (length out)
                   <= Z.of_nat (length input) * toRate / fromRate + 1).
  { rewrite Hlen, length_make. lia. }
  rewrite HfL.
  destruct (Z.leb_spec 64 (Z.of_nat (length input))) as [Hge|Hlt].
  - rewrite reslice_Done by lia. cbn [Polyphase.bind].
    eexists _, _. split; [reflexivity|]. split; [|exact Hbound].
    apply state_of_with_history; [exact Hst|].
    rewrite length_copy. exact Hhist.
  - rewrite reslice_Done by lia. cbn [Polyphase.bind].
    rewrite reslice_Done by (rewrite length_copy; lia).
    cbn [Polyphase.bind].
    eexists _, _. split; [reflexivity|]. split; [|exact Hbound].
    apply state_of_with_history; [exact Hst|].
    rewrite length_app, length_take, !length_copy, length_drop,
      ?length_copy.
    lia.
Qed.

(** With [ratio == 1.0] the rates are equal. *)
Lemma ratio_one_rates fromRate toRate :
  0 < fromRate < 2 ^ 53 -> 0 < toRate < 2 ^ 53 ->
  SFeqb (float64_div (float64_of_int toRate) (float64_of_int fromRate))
        float64_one = true ->
  toRate = fromRate.
Proof.
  intros Hfrom Hto Hone.
  destruct (ratio_spec fromRate toRate Hfrom Hto)
    as (m & e & Heq & Hm & He & Hr).
  rewrite Heq in Hone. apply float64_eqb_one in Hone.
  rewrite Hone in Hr. pose proof scale_pos as HB.
  set (B := scale) in *. clearbody B.
  replace (2 ^ 53 * (B * fromRate - toRate * B))
    with (B * (2 ^ 53 * (fromRate - toRate))) in Hr by ring.
  replace (toRate * B) with (B * toRate) in Hr by ring.
  rewrite <- Z.mul_opp_r in Hr. destruct Hr as [Hlo Hhi].
  apply Z.mul_le_mono_pos_l in Hlo; [|exact HB].
  apply Z.mul_le_mono_pos_l in Hhi; [|exact HB].
  lia.
Qed.

(** C6.  A resampler built for the rates [fromRate] and [toRate] (both
    below [2 ^ 53]), in any state, given an input of [N] samples such that
    the input and an output of [N * toRate / fromRate + 1] samples stay
    within the allocation limit: [Resample] returns, the resampler stays a
    resampler for these rates, and the length of the output is the floor of
    [N * toRate / fromRate], give or take one.  With equal rates the
    output is the input itself and the resampler is unchanged, so that
    resampling the result again gives the same as resampling once. *)
Theorem Resample_length_and_identity fromRate toRate r (input : list Z) :
  0 < fromRate < 2 ^ 53 -> 0 < toRate < 2 ^ 53 ->
  4 * Z.of_nat (length input) <= Polyphase.maxAlloc ->
  4 * (Z.of_nat (length input) * toRate / fromRate + 1)
  <= Polyphase.maxAlloc ->
  state_of fromRate toRate r ->
  exists output r',
    Resample r input = Polyphase.Done (output, r')
    /\ state_of fromRate toRate r'
    /\ Z.of_nat (length input) * toRate / fromRate - 1
       <= Z.of_nat (length output)
       <= Z.of_nat (length input) * toRate / fromRate + 1
    /\ (toRate = fromRate ->
        output = input /\ r' = r
        /\ Polyphase.bind (Resample r input)
                          (fun p => Resample p.2 p.1)
           = Resample r input).
Proof.
  intros Hfrom Hto HN HF Hst.
  pose proof (state_of_facts _ _ _ Hst) as (Hratio & _).
  unfold Polyphase.Resample. cbv zeta.
  destruct (SFeqb (Polyphase.ratio r) float64_one) eqn:Hone.
  - exists input, r. split; [reflexivity|]. split; [exact Hst|].
    pose proof Hone as Hrates. rewrite Hratio in Hrates.
    apply ratio_one_rates in Hrates; [|assumption..].
    rewrite Hrates, Z.div_mul by lia.
    split; [lia|]. intros _. split; [reflexivity|]. split; [reflexivity|].
    cbn [Polyphase.bind fst snd]. rewrite Hone. reflexivity.
  - assert (Hne : toRate <> fromRate).
    { intros ->. rewrite Hratio, float64_div_self in Hone by assumption.
      discriminate Hone. }
    destruct (Z.eqb_spec (Z.of_nat (length input)) 0) as [H0|H0].
    + exists input, r. split; [reflexivity|]. split; [exact Hst|].
      rewrite H0, Z.mul_0_l, Z.div_0_l by lia.
      split; [lia|]. intros E. contradiction.
    + destruct (SFltb float64_one (Polyphase.ratio r)).
      * destruct (upsample_Done fromRate toRate r input)
          as (out & r' & Hup & Hst' & Hlen); try assumption; [lia|].
        exists out, r'. split; [exact Hup|]. split; [exact Hst'|].
        split; [exact Hlen|]. intros E. contradiction.
      * destruct (downsample_Done fromRate toRate r input)
          as (out & r' & Hdn & Hst' & Hlen); try assumption; [lia|].
        exists out, r'. split; [exact Hdn|]. split; [exact Hst'|].
        split; [exact Hlen|]. intros E. contradiction.
Qed.

End ResampleFacts.
Lemma Resample_length_and_identity_witness :
  exists output r',
    Polyphase.Resample Z.add Z.sub Z.mul (fun _ => 0)
      (Polyphase.NewPolyphaseResampler Z.add Z.quot (fun _ => 0)
         (fun _ _ _ => float64_zero) 48000 16000)
      [0; 0; 0; 0; 0; 0]
    = Polyphase.Done (output, r')
    /\ Polyphase.state_of Z.add Z.quot (fun _ => 0)
         (fun _ _ _ => float64_zero) 48000 16000 r'
    /\ Z.of_nat (length [0; 0; 0; 0; 0; 0]) * 16000 / 48000 - 1
       <= Z.of_nat (length output)
       <= Z.of_nat (length [0; 0; 0; 0; 0; 0]) * 16000 / 48000 + 1
    /\ (16000 = 48000 ->
        output = [0; 0; 0; 0; 0; 0]
        /\ r' = Polyphase.NewPolyphaseResampler Z.add Z.quot (fun _ => 0)
                  (fun _ _ _ => float64_zero) 48000 16000
        /\ Polyphase.bind
             (Polyphase.Resample Z.add Z.sub Z.mul (fun _ => 0)
                (Polyphase.NewPolyphaseResampler Z.add Z.quot (fun _ => 0)
                   (fun _ _ _ => float64_zero) 48000 16000)
                [0; 0; 0; 0; 0; 0])
             (fun p => Polyphase.Resample Z.add Z.sub Z.mul (fun _ => 0)
                         p.2 p.1)
           = Polyphase.Resample Z.add Z.sub Z.mul (fun _ => 0)
               (Polyphase.NewPolyphaseResampler Z.add Z.quot (fun _ => 0)
                  (fun _ _ _ => float64_zero) 48000 16000)
               [0; 0; 0; 0; 0; 0]).
Proof.
  apply (Resample_length_and_identity Z.add Z.sub Z.mul Z.quot (fun _ => 0)
           (fun _ _ _ => float64_zero) 48000 16000).
  - lia.
  - lia.
  - vm_compute. discriminate.
  - vm_compute. discriminate.
  - repeat split.
Defined.

(* ===================================================================== *)
(** * Part II, continued: the rest of the packages                       *)
(* ===================================================================== *)

(** ** Package config *)

(** X1.  [ParseInterruptMode] and [InterruptMode.String] are inverse to
    each other on the two modes: a string that parses is the name of the
    mode it parses to, and the name of [InterruptAlways] or
    [InterruptWait] parses back to it.  Every other mode is printed as
    ["unknown"], which does not parse: the error comes with
    [InterruptWait]. *)
Theorem InterruptMode_round_trip :
  (forall s m,
     InterruptMode.ParseInterruptMode s = (m, None) ->
     InterruptMode.String m = s)
  /\ (forall m,
        m = InterruptMode.InterruptAlways \/ m = InterruptMode.InterruptWait ->
        InterruptMode.ParseInterruptMode (InterruptMode.String m) = (m, None))
  /\ (forall m,
        m <> InterruptMode.InterruptAlways ->
        m <> InterruptMode.InterruptWait ->
        exists e,
          InterruptMode.ParseInterruptMode (InterruptMode.String m)
          = (InterruptMode.InterruptWait, Some e)).
Proof.
  split; [|split].
  - intros s m. unfold InterruptMode.ParseInterruptMode.
    repeat case_bool_decide; intros E; inversion E; subst; reflexivity.
  - intros m [-> | ->]; reflexivity.
  - intros m H0 H1. unfold InterruptMode.String.
    rewrite (proj2 (Z.eqb_neq m _) H0), (proj2 (Z.eqb_neq m _) H1).
    eexists. reflexivity.
Qed.

(** [normalizeThreadCounts], field by field. *)
Lemma normalizeThreadCounts_eq cpuCores w sr sp tp v n vad stt tts :
  Config.normalizeThreadCounts cpuCores
    (Config.mkConfig w sr sp tp v n vad stt tts)
  = let n' := if n =? 0 then Z.max 1 (cpuCores ÷ 3) else n in
    Config.mkConfig w sr sp tp v n'
      (if vad =? 0 then 1 else vad)
      (if stt =? 0 then n' else stt)
      (if tts =? 0 then n' else tts).
Proof.
  unfold Config.normalizeThreadCounts.
  cbn [Config.NumThreads].
  destruct (n =? 0); cbv zeta;
    cbn [Config.set_threads Config.NumThreads Config.VADThreads
         Config.STTThreads Config.TTSThreads Config.WakeWord
         Config.SampleRate Config.STTProvider Config.TTSProvider
         Config.Verbose];
    destruct (vad =? 0);
    cbn [Config.set_threads Config.NumThreads Config.VADThreads
         Config.STTThreads Config.TTSThreads Config.WakeWord
         Config.SampleRate Config.STTProvider Config.TTSProvider
         Config.Verbose];
    destruct (stt =? 0);
    cbn [Config.set_threads Config.NumThreads Config.VADThreads
         Config.STTThreads Config.TTSThreads Config.WakeWord
         Config.SampleRate Config.STTProvider Config.TTSProvider
         Config.Verbose];
    destruct (tts =? 0); reflexivity.
Qed.

(** X2.  After [normalizeThreadCounts] none of the four thread counts is
    0, whatever the number of CPUs; a count that was given (not 0) is
    kept; no other field changes; and normalising again, on any number of
    CPUs, changes nothing. *)
Theorem normalizeThreadCounts_settles cpuCores c :
  let c' := Config.normalizeThreadCounts cpuCores c in
  (Config.NumThreads c' <> 0 /\ Config.VADThreads c' <> 0
   /\ Config.STTThreads c' <> 0 /\ Config.TTSThreads c' <> 0)
  /\ (Config.NumThreads c <> 0 -> Config.NumThreads c' = Config.NumThreads c)
  /\ (Config.VADThreads c <> 0 -> Config.VADThreads c' = Config.VADThreads c)
  /\ (Config.STTThreads c <> 0 -> Config.STTThreads c' = Config.STTThreads c)
  /\ (Config.TTSThreads c <> 0 -> Config.TTSThreads c' = Config.TTSThreads c)
  /\ (Config.WakeWord c' = Config.WakeWord c
      /\ Config.SampleRate c' = Config.SampleRate c
      /\ Config.STTProvider c' = Config.STTProvider c
      /\ Config.TTSProvider c' = Config.TTSProvider c
      /\ Config.Verbose c' = Config.Verbose c)
  /\ forall cpuCores', Config.normalizeThreadCounts cpuCores' c' = c'.
Proof.
  destruct c as [w sr sp tp v n vad stt tts]. intros c'. subst c'.
  rewrite normalizeThreadCounts_eq. cbv zeta.
  cbn [Config.NumThreads Config.VADThreads Config.STTThreads
       Config.TTSThreads Config.WakeWord Config.SampleRate
       Config.STTProvider Config.TTSProvider Config.Verbose].
  assert (Hmax : Z.max 1 (cpuCores ÷ 3) <> 0) by lia.
  set (g := Z.max 1 (cpuCores ÷ 3)) in *. clearbody g.
  split.
  { destruct (Z.eqb_spec n 0), (Z.eqb_spec vad 0), (Z.eqb_spec stt 0),
      (Z.eqb_spec tts 0); repeat split; lia. }
  split; [intros H; rewrite (proj2 (Z.eqb_neq n 0) H); reflexivity|].
  split; [intros H; rewrite (proj2 (Z.eqb_neq vad 0) H); reflexivity|].
  split; [intros H; rewrite (proj2 (Z.eqb_neq stt 0) H); reflexivity|].
  split; [intros H; rewrite (proj2 (Z.eqb_neq tts 0) H); reflexivity|].
  split; [repeat split|].
  intros cpuCores'. rewrite normalizeThreadCounts_eq. cbv zeta.
  destruct (Z.eqb_spec n 0), (Z.eqb_spec vad 0), (Z.eqb_spec stt 0),
    (Z.eqb_spec tts 0);
    repeat match goal with
           | |- context [?x =? 0] => rewrite (proj2 (Z.eqb_neq x 0)) by lia
           end;
    reflexivity.
Qed.

(** ** Package llm *)

Lemma Chat_Err_inv srv c userMessage e c1 :
  Llm.Chat srv c userMessage = Returns (Err e, c1) ->
  c1 = Llm.set_history c
         (Llm.history c ++ [Llm.mkMessage (runes "user") userMessage]).
Proof.
  unfold Llm.Chat. cbv zeta.
  destruct (srv _) as [content|e'].
  - destruct (Llm.trimHistory _); intros H; inversion H.
  - intros H. inversion H. reflexivity.
Qed.

(** A call of [Chat] on a client whose system turn is pinned returns, and
    the system turn stays pinned; the history grows by two turns at most. *)
Lemma Chat_pinned sys M srv c userMessage :
  1 <= M < 2 ^ 62 ->
  Llm.pinned sys M c ->
  Z.of_nat (length (Llm.history c)) + 2 <= 2 ^ 62 ->
  exists r c',
    Llm.Chat srv c userMessage = Returns (r, c')
    /\ Llm.pinned sys M c'
    /\ Z.of_nat (length (Llm.history c'))
       <= Z.of_nat (length (Llm.history c)) + 2
    /\ (r = Err (runes "chat request failed: "
                 ++ match srv (Llm.mkChatRequest (Llm.model c)
                                 (Llm.history c
                                  ++ [Llm.mkMessage (runes "user") userMessage])
                                 false (Llm.temperature c) 150 1024) with
                    | Err e => e
                    | Ok _ => []
                    end)
        \/ exists content, r = Ok (TrimSpace content)).
Proof.
  intros HM [HMc [rest Hh]] Hlen.
  unfold Llm.Chat. cbv zeta.
  cbn [Llm.model Llm.history Llm.temperature Llm.set_history].
  destruct (srv _) as [content|e].
  - set (c2 := Llm.set_history _ _).
    destruct (trimHistory_pinned sys M c2 HM) as (c3 & Ht & Hp & Hl).
    { split; [exact HMc|]. unfold c2. cbn [Llm.set_history Llm.history].
      rewrite Hh. eexists. rewrite <- !app_comm_cons. reflexivity. }
    { unfold c2. cbn [Llm.set_history Llm.history].
      rewrite !length_app. cbn [length]. unfold MaxInt. lia. }
    rewrite Ht. exists (Ok (TrimSpace content)), c3.
    split; [reflexivity|]. split; [exact Hp|]. split.
    + rewrite Hl. unfold c2. cbn [Llm.set_history Llm.history].
      rewrite !length_app. cbn [length]. lia.
    + right. eexists. reflexivity.
  - eexists _, _. split; [reflexivity|]. split.
    + split; [exact HMc|]. cbn [Llm.set_history Llm.history].
      rewrite Hh. eexists. rewrite <- app_comm_cons. reflexivity.
    + split; [|left; reflexivity].
      cbn [Llm.set_history Llm.history]. rewrite length_app. cbn [length].
      lia.
Qed.

(** X3.  [ClearHistory] starts the conversation again: on a client whose
    history begins with the system turn, it returns, leaves exactly that
    turn and the configured bound, and [K] successful turns afterwards
    give the history of a new client: the system turn and the last
    [min K M] pairs. *)
Theorem ClearHistory_restarts sys M c :
  1 <= M < 2 ^ 62 ->
  Llm.pinned sys M c ->
  exists c',
    Llm.ClearHistory c = Returns c'
    /\ Llm.history c' = [sys]
    /\ Llm.maxHistory c' = M
    /\ forall K c'',
         Llm.successful_turns c' K c'' ->
         Z.of_nat (length (Llm.history c''))
         = Z.min (1 + 2 * Z.of_nat K) (1 + 2 * M)
         /\ Llm.history c'' !! 0%nat = Some sys.
Proof.
  intros HM [HMc [rest Hh]].
  unfold Llm.ClearHistory. rewrite Hh.
  eexists. split; [reflexivity|].
  cbn [Llm.set_history Llm.history Llm.maxHistory].
  split; [reflexivity|]. split; [exact HMc|].
  intros K c'' Hturns.
  destruct (successful_turns_length sys M (Llm.set_history c [sys]) K c'' HM)
    as [[_ [r Hr]] Hl];
    [ | | exact Hturns | ].
  - split; [exact HMc|]. exists []. reflexivity.
  - cbn [Llm.set_history Llm.history length]. lia.
  - split.
    + rewrite Hl. cbn [Llm.set_history Llm.history length]. lia.
    + rewrite Hr. reflexivity.
Qed.

Lemma ClearHistory_restarts_witness :
  let sys := Llm.mkMessage (runes "system") (runes "Be brief.") in
  let c := Llm.mkClient (runes "http://localhost:11434") (runes "gemma3:1b")
             [sys; Llm.mkMessage (runes "user") (runes "hi");
              Llm.mkMessage (runes "assistant") (runes "Hello.")]
             false 10 0 in
  exists c',
    Llm.ClearHistory c = Returns c'
    /\ Llm.history c' = [sys]
    /\ Llm.maxHistory c' = 10
    /\ forall K c'',
         Llm.successful_turns c' K c'' ->
         Z.of_nat (length (Llm.history c''))
         = Z.min (1 + 2 * Z.of_nat K) (1 + 2 * 10)
         /\ Llm.history c'' !! 0%nat = Some sys.
Proof.
  intros sys c.
  apply (ClearHistory_restarts sys 10 c).
  - lia.
  - split; [reflexivity|]. eexists. reflexivity.
Defined.

(** X4.  Failed requests are never trimmed away: after a run of calls of
    [Chat] that all failed, the history is the one before followed by one
    user turn for each call, in order, whatever the bound [maxHistory]. *)
Theorem failed_turns_accumulate c userMessages c' :
  Conversation.failed_turns c userMessages c' ->
  Llm.history c'
  = Llm.history c ++ map (Llm.mkMessage (runes "user")) userMessages
  /\ Llm.maxHistory c' = Llm.maxHistory c.
Proof.
  induction 1 as [c|c srv m e c1 rest c2 HChat _ IH].
  - rewrite app_nil_r. split; reflexivity.
  - apply Chat_Err_inv in HChat. subst c1.
    destruct IH as [IHh IHm]. rewrite IHh, IHm.
    cbn [Llm.set_history Llm.history Llm.maxHistory map].
    rewrite <- app_assoc. split; reflexivity.
Qed.

Lemma failed_turns_accumulate_witness :
  let sys := Llm.mkMessage (runes "system") (runes "Be brief.") in
  let c := Llm.mkClient (runes "http://localhost:11434") (runes "gemma3:1b")
             [sys] false 1 0 in
  exists c',
    Conversation.failed_turns c [runes "a"; runes "b"; runes "c"; runes "d"] c'
    /\ Llm.history c'
       = Llm.history c
         ++ map (Llm.mkMessage (runes "user"))
                [runes "a"; runes "b"; runes "c"; runes "d"]
    /\ Llm.maxHistory c' = Llm.maxHistory c.
Proof.
  intros sys c.
  assert (H : exists c',
    Conversation.failed_turns c [runes "a"; runes "b"; runes "c"; runes "d"] c').
  { eexists.
    do 4 (eapply (Conversation.failed_chat _ (fun _ => Err (runes "timeout")));
          [reflexivity|]).
    apply Conversation.failed_done. }
  destruct H as [c' H]. exists c'. split; [exact H|].
  exact (failed_turns_accumulate c _ c' H).
Defined.

(** ** Package llm: the client that keeps the system prompt apart *)

(** X5.  The client that keeps the system prompt in a field of its own
    writes its history only after the request succeeded.  With a bound
    [M = maxHistory] and at most [2 * M] turns stored: a failed request
    leaves the client as it was; a successful one appends the user turn
    and the trimmed reply and keeps the last [2 * M] turns.  Every request
    carries the system prompt, the stored turns and the new user turn, in
    this order. *)
Theorem Chat_separate_prompt srv c userMessage :
  1 <= LlmSeparatePrompt.maxHistory c < 2 ^ 62 ->
  Z.of_nat (length (LlmSeparatePrompt.history c))
  <= 2 * LlmSeparatePrompt.maxHistory c ->
  let turns := LlmSeparatePrompt.history c in
  let request :=
    LlmSeparatePrompt.mkChatRequest (LlmSeparatePrompt.model c)
      (Llm.mkMessage (runes "system") (LlmSeparatePrompt.systemPrompt c)
       :: turns ++ [Llm.mkMessage (runes "user") userMessage])
      false LlmSeparatePrompt.temperature 150 1024 in
  match srv request with
  | Err e =>
      LlmSeparatePrompt.Chat srv c userMessage
      = Returns (Err (runes "chat request failed: " ++ e), c)
  | Ok content =>
      let turns' :=
        turns ++ [Llm.mkMessage (runes "user") userMessage;
                  Llm.mkMessage (runes "assistant") (TrimSpace content)] in
      LlmSeparatePrompt.Chat srv c userMessage
      = Returns
          (Ok (TrimSpace content),
           LlmSeparatePrompt.set_history c
             (drop (length turns' - Z.to_nat (2 * LlmSeparatePrompt.maxHistory c))
                   turns'))
      /\ Z.of_nat
           (length (drop (length turns'
                          - Z.to_nat (2 * LlmSeparatePrompt.maxHistory c))
                         turns'))
         <= 2 * LlmSeparatePrompt.maxHistory c
  end.
Proof.
  intros HM Hlen turns request.
  unfold LlmSeparatePrompt.Chat. cbv zeta.
  change ([] ++ [Llm.mkMessage (runes "system")
                   (LlmSeparatePrompt.systemPrompt c)])
    with [Llm.mkMessage (runes "system") (LlmSeparatePrompt.systemPrompt c)].
  change (([Llm.mkMessage (runes "system") (LlmSeparatePrompt.systemPrompt c)]
           ++ LlmSeparatePrompt.history c)
          ++ [Llm.mkMessage (runes "user") userMessage])
    with (Llm.mkMessage (runes "system") (LlmSeparatePrompt.systemPrompt c)
          :: turns ++ [Llm.mkMessage (runes "user") userMessage]).
  fold request. destruct (srv request) as [content|e]; [|reflexivity].
  cbv zeta.
  cbn [LlmSeparatePrompt.set_history LlmSeparatePrompt.history].
  rewrite <- app_assoc. cbn [app]. fold turns.
  set (turns' := turns ++ [Llm.mkMessage (runes "user") userMessage;
                           Llm.mkMessage (runes "assistant")
                                         (TrimSpace content)]).
  assert (Hn : Z.of_nat (length turns') = Z.of_nat (length turns) + 2).
  { unfold turns'. rewrite length_app. cbn [length]. lia. }
  unfold LlmSeparatePrompt.trimHistory.
  cbn [LlmSeparatePrompt.set_history LlmSeparatePrompt.history
       LlmSeparatePrompt.maxHistory].
  rewrite (wrap_int_small (LlmSeparatePrompt.maxHistory c * 2)) by lia.
  fold turns in Hlen.
  destruct (Z.of_nat (length turns') >? LlmSeparatePrompt.maxHistory c * 2)
    eqn:Hgt.
  - apply Z.gtb_lt in Hgt.
    rewrite wrap_int_small by lia.
    rewrite (proj2 (Z.ltb_ge _ 0)) by lia.
    rewrite (proj2 (Z.ltb_ge _ _)) by lia.
    cbn [orb].
    replace (Z.to_nat (Z.of_nat (length turns')
                       - LlmSeparatePrompt.maxHistory c * 2))
      with (length turns'
            - Z.to_nat (2 * LlmSeparatePrompt.maxHistory c))%nat by lia.
    split; [reflexivity|]. rewrite length_drop. lia.
  - assert (Hle : Z.of_nat (length turns')
                  <= LlmSeparatePrompt.maxHistory c * 2).
    { destruct (Z.gtb_spec (Z.of_nat (length turns'))
                           (LlmSeparatePrompt.maxHistory c * 2));
        [discriminate|lia]. }
    replace (length turns'
             - Z.to_nat (2 * LlmSeparatePrompt.maxHistory c))%nat
      with 0%nat by lia.
    rewrite drop_0. split; [|lia].
    destruct c; reflexivity.
Qed.

Lemma Chat_separate_prompt_witness :
  let c := LlmSeparatePrompt.mkClient (runes "http://localhost:11434")
             (runes "gemma3:1b") (runes "Be brief.")
             [Llm.mkMessage (runes "user") (runes "hi");
              Llm.mkMessage (runes "assistant") (runes "Hello.")]
             false 1 in
  LlmSeparatePrompt.Chat (fun _ => Err (runes "timeout")) c (runes "again")
  = Returns (Err (runes "chat request failed: " ++ runes "timeout"), c).
Proof.
  intros c.
  apply (Chat_separate_prompt (fun _ => Err (runes "timeout")) c
           (runes "again")).
  - cbn. lia.
  - cbn. lia.
Defined.

(** ** Package tts *)

Lemma TrimLeftFunc_nil_inv f s :
  TrimLeftFunc f s = [] -> Forall (fun r => f r = true) s.
Proof.
  induction s as [|r s IH]; intros H; [constructor|].
  cbn [TrimLeftFunc] in H. destruct (f r) eqn:Hr; [|discriminate].
  constructor; [exact Hr | exact (IH H)].
Qed.

Lemma TrimSpace_nil_inv s :
  TrimSpace s = [] -> Forall (fun r => isSpace r = true) s.
Proof.
  unfold TrimSpace, TrimRightFunc. intros H.
  apply (f_equal (@rev Z)) in H. rewrite rev_involutive in H.
  cbn [rev] in H. apply TrimLeftFunc_nil_inv in H.
  apply Forall_rev in H. rewrite rev_involutive in H.
  destruct (TrimLeftFunc isSpace s) as [|a u] eqn:Hu.
  - apply TrimLeftFunc_nil_inv. exact Hu.
  - apply TrimLeftFunc_head in Hu. inversion H as [|? ? Ha _]; subst.
    congruence.
Qed.

Lemma sentence_of_trimmed piece :
  Forall (fun s => s <> [] /\ TrimSpace s = s) (Tts.sentence_of piece).
Proof.
  unfold Tts.sentence_of.
  destruct (TrimSpace piece) as [|a u] eqn:E; constructor; [|constructor].
  split; [discriminate|]. rewrite <- E. apply TrimSpace_idem.
Qed.

Lemma Forall_Forall_concat {A : Type} (P : A -> Prop) (ls : list (list A)) :
  Forall P (concat ls) <-> Forall (Forall P) ls.
Proof.
  induction ls as [|l ls IH]; cbn [concat].
  - split; constructor.
  - rewrite Forall_app, IH. split.
    + intros [H1 H2]. constructor; assumption.
    + intros H. inversion H; subst. split; assumption.
Qed.

Lemma concat_nil_inv {A : Type} (ls : list (list A)) :
  concat ls = [] -> Forall (fun l => l = []) ls.
Proof.
  induction ls as [|l ls IH]; cbn [concat]; intros H; [constructor|].
  apply app_eq_nil in H as [H1 H2]. constructor; [exact H1 | exact (IH H2)].
Qed.

Lemma SplitSentences_sentences_trimmed_aux text :
  Forall (fun s => s <> [] /\ TrimSpace s = s) (Tts.SplitSentences text)
  /\ (Tts.SplitSentences text = [] <-> Tts.only_whitespace text).
Proof.
  unfold Tts.SplitSentences. rewrite splitLoop_pieces. cbn [app].
  split.
  - apply Forall_Forall_concat. apply Forall_forall. intros l Hl.
    apply list_elem_of_fmap in Hl as (piece & -> & _).
    apply sentence_of_trimmed.
  - split.
    + intros H. apply concat_nil_inv in H.
      unfold Tts.only_whitespace.
      rewrite <- (app_nil_l text), <- (concat_pieces text []).
      apply Forall_Forall_concat. apply Forall_forall. intros piece Hp.
      rewrite Forall_forall in H.
      assert (Hs : Tts.sentence_of piece = []).
      { apply H. apply list_elem_of_fmap. exists piece. split; [reflexivity|].
        exact Hp. }
      unfold Tts.sentence_of in Hs.
      destruct (TrimSpace piece) eqn:E; [|discriminate].
      apply TrimSpace_nil_inv. exact E.
    + intros Hw.
      pose proof (pieces_Forall (fun c => isSpace c = true) text []
                    ltac:(constructor) Hw) as Hp.
      induction Hp as [|piece ps Hpiece _ IH]; [reflexivity|].
      cbn [map concat]. rewrite IH. unfold Tts.sentence_of.
      rewrite (TrimSpace_blank piece Hpiece). reflexivity.
Qed.

(** X6.  No sentence that [SplitSentences] returns is empty or has blanks
    at either end, so the callers' tests for an empty sentence never
    fire; and it returns no sentence at all exactly for the texts made of
    white space only. *)
Theorem SplitSentences_sentences_trimmed text :
  Forall (fun s => s <> [] /\ TrimSpace s = s) (Tts.SplitSentences text)
  /\ (Tts.SplitSentences text = [] <-> Tts.only_whitespace text).
Proof. exact (SplitSentences_sentences_trimmed_aux text). Qed.

Lemma omap_cons_eq {A B : Type} (f : A -> option B) x l :
  omap f (x :: l)
  = match f x with Some y => y :: omap f l | None => omap f l end.
Proof. reflexivity. Qed.

Section SynthesisFacts.

Variable Generate : gostring -> Z -> Z -> option Synthesis.GeneratedAudio.

Lemma synthesizeLoop_omap s sentences :
  Forall (fun x => x <> []) sentences ->
  forall results,
    Synthesis.synthesizeLoop Generate s sentences results
    = results ++ omap (Synthesis.generated Generate s) sentences.
Proof.
  induction 1 as [|x sentences Hx _ IH]; intros results.
  - cbn. rewrite app_nil_r. reflexivity.
  - cbn [Synthesis.synthesizeLoop].
    destruct x as [|a x']; [contradiction|].
    rewrite omap_cons_eq.
    assert (Hg : Synthesis.generated Generate s (a :: x')
                 = match Generate (a :: x') (Synthesis.speakerID s)
                                  (Synthesis.speed s) with
                   | None => None
                   | Some audio =>
                       if (length (Synthesis.ga_Samples audio) =? 0)%nat
                       then None
                       else Some (Synthesis.mkAudioOutput
                                    (Synthesis.ga_Samples audio)
                                    (Synthesis.ga_SampleRate audio))
                   end) by reflexivity.
    rewrite Hg. clear Hg.
    destruct (Generate (a :: x') _ _) as [audio|]; [|apply IH].
    destruct (length (Synthesis.ga_Samples audio) =? 0)%nat; [apply IH|].
    rewrite IH, <- app_assoc. reflexivity.
Qed.

Lemma SynthesizeStreaming_eq s text :
  Synthesis.SynthesizeStreaming Generate s text
  = match TrimSpace text with
    | [] => Err (runes "empty text")
    | _ :: _ =>
        match omap (Synthesis.generated Generate s)
                   (Tts.SplitSentences (TrimSpace text)) with
        | [] => Err (runes "TTS generation failed for all sentences")
        | results => Ok results
        end
    end.
Proof.
  unfold Synthesis.SynthesizeStreaming. cbv zeta.
  destruct (TrimSpace text) as [|a u] eqn:E; [reflexivity|].
  destruct (SplitSentences_sentences_trimmed_aux (a :: u)) as [Hall Hnil].
  destruct (Tts.SplitSentences (a :: u)) as [|x xs] eqn:Hs.
  - exfalso. assert (Hw : Tts.only_whitespace (a :: u))
      by (apply Hnil; reflexivity).
    rewrite <- E in Hw. apply TrimSpace_blank in Hw.
    rewrite TrimSpace_idem, E in Hw. discriminate.
  - cbn [length Nat.eqb].
    rewrite synthesizeLoop_omap; [reflexivity|].
    eapply Forall_impl; [exact Hall|]. intros ? [? _]. assumption.
Qed.

(** X7.  [SynthesizeStreaming] refuses a blank text; for any other text
    it returns, in order, the audio of the sentences the engine could
    generate (with at least one sample), and fails when there is none.
    The error ["no sentences to synthesize"] is never returned: a text
    that is not blank always has a sentence. *)
Theorem SynthesizeStreaming_spec s text :
  Synthesis.SynthesizeStreaming Generate s text
  = match TrimSpace text with
    | [] => Err (runes "empty text")
    | _ :: _ =>
        match omap (Synthesis.generated Generate s)
                   (Tts.SplitSentences (TrimSpace text)) with
        | [] => Err (runes "TTS generation failed for all sentences")
        | results => Ok results
        end
    end
  /\ Synthesis.SynthesizeStreaming Generate s text
     <> Err (runes "no sentences to synthesize").
Proof.
  split; [apply SynthesizeStreaming_eq|]. rewrite SynthesizeStreaming_eq.
  destruct (TrimSpace text); [discriminate|].
  destruct (omap _ _); discriminate.
Qed.

Lemma Forall_TrimLeftFunc (P : Z -> Prop) f s :
  Forall P s -> Forall P (TrimLeftFunc f s).
Proof.
  induction 1 as [|r s Hr Hs IH]; [constructor|].
  cbn [TrimLeftFunc]. destruct (f r); [exact IH|].
  constructor; assumption.
Qed.

Lemma Forall_TrimSpace (P : Z -> Prop) s :
  Forall P s -> Forall P (TrimSpace s).
Proof.
  intros H. unfold TrimSpace, TrimRightFunc.
  apply Forall_rev, Forall_TrimLeftFunc, Forall_rev, Forall_TrimLeftFunc, H.
Qed.

(** X8.  On a text without a sentence boundary the two entry points
    agree: [SynthesizeStreaming] returns the one chunk that [Synthesize]
    returns, refuses a blank text with the same error, and fails when
    [Synthesize] fails. *)
Theorem SynthesizeStreaming_single_sentence s text :
  Tts.no_terminator text ->
  Synthesis.SynthesizeStreaming Generate s text
  = match TrimSpace text, Synthesis.Synthesize Generate s text with
    | [], _ => Err (runes "empty text")
    | _ :: _, Ok audio => Ok [audio]
    | _ :: _, Err _ => Err (runes "TTS generation failed for all sentences")
    end
  /\ (TrimSpace text = [] ->
      Synthesis.Synthesize Generate s text = Err (runes "empty text")).
Proof.
  intros Hno. rewrite SynthesizeStreaming_eq.
  unfold Synthesis.Synthesize. cbv zeta.
  pose proof (Forall_TrimSpace _ _ Hno) as Hno'.
  pose proof (TrimSpace_idem text) as Hidem.
  destruct (TrimSpace text) as [|a u] eqn:E.
  { split; reflexivity. }
  split; [|discriminate].
  unfold Tts.SplitSentences. rewrite splitLoop_pieces. cbn [app].
  rewrite (pieces_no_terminator (a :: u) [] Hno'). cbn [app map concat].
  rewrite app_nil_r. unfold Tts.sentence_of. rewrite Hidem.
  rewrite omap_cons_eq. unfold Synthesis.generated.
  destruct (Generate (a :: u) _ _) as [audio|]; [|reflexivity].
  destruct (length (Synthesis.ga_Samples audio) =? 0)%nat; reflexivity.
Qed.

End SynthesisFacts.

Lemma SynthesizeStreaming_single_sentence_witness :
  let Generate := fun (text : list Z) (_ _ : Z) =>
                    Some (Synthesis.mkGeneratedAudio text 24000) in
  let s := Synthesis.mkSynthesizer 24000 2 0 false in
  Synthesis.SynthesizeStreaming Generate s (runes " hello there ")
  = match TrimSpace (runes " hello there "),
          Synthesis.Synthesize Generate s (runes " hello there ") with
    | [], _ => Err (runes "empty text")
    | _ :: _, Ok audio => Ok [audio]
    | _ :: _, Err _ => Err (runes "TTS generation failed for all sentences")
    end
  /\ (TrimSpace (runes " hello there ") = [] ->
      Synthesis.Synthesize Generate s (runes " hello there ")
      = Err (runes "empty text")).
Proof.
  intros Generate s.
  apply (SynthesizeStreaming_single_sentence Generate s
           (runes " hello there ")).
  unfold Tts.no_terminator. vm_compute. repeat constructor.
Defined.

(** ** Package stt *)

(** X9.  Whatever [TranscribeSegment] returns has no white space at
    either end: it is the empty string, ["Hello"], or a text that
    [strings.TrimSpace] leaves as it is. *)
Theorem TranscribeSegment_trimmed caseTable r decode samples :
  match Stt.TranscribeSegment caseTable r decode samples with
  | Stt.Runes text => TrimSpace text = text
  | _ => True
  end.
Proof.
  unfold Stt.TranscribeSegment.
  destruct (length samples =? 0)%nat; [reflexivity|].
  destruct (decode samples) as [resultText|]; [|reflexivity].
  destruct (TrimSpace resultText) as [|a u] eqn:E; [reflexivity|].
  destruct (Stt.wakeWord r) as [|w ws].
  { rewrite <- E. apply TrimSpace_idem. }
  destruct (negb _); [reflexivity|].
  destruct (Stt.removeWakeWord _ _ _) as [text1| |]; [|exact I|exact I].
  destruct (TrimSpace text1) as [|b v] eqn:E1; [reflexivity|].
  rewrite <- E1. apply TrimSpace_idem.
Qed.

(** ** Package main: the LLM loop *)

(** X11.  [llmProcessor] answers every transcript exactly once and in
    order.  On a client with bound [1 <= M < 2 ^ 62] whose history starts
    with the system turn and has room for two turns per transcript below
    [2 ^ 62], and as long as the sends are delivered, a run over [n]
    transcripts does not panic and sends [n] messages to the TTS stage:
    the [i]-th message answers the [i]-th transcript, put to [Chat] on the
    client as the earlier transcripts left it, and is the reply that
    [Chat] returned, or the apology if that request failed.  A reply has
    no white space at either end, and the system turn stays at the head
    of the history. *)
Theorem llmProcessor_one_reply_each sys M c out inputs :
  1 <= M < 2 ^ 62 ->
  Llm.pinned sys M c ->
  Z.of_nat (length (Llm.history c)) + 2 * Z.of_nat (length inputs) <= 2 ^ 62 ->
  Forall LlmLoop.delivered_transcript inputs ->
  exists c' replies,
    LlmLoop.llmProcessor c out inputs = Returns (c', out ++ replies)
    /\ LlmLoop.answers c inputs replies c'
    /\ length replies = length inputs
    /\ Llm.pinned sys M c'
    /\ Forall (fun reply =>
                 reply = runes "I'm sorry, I encountered an error."
                 \/ TrimSpace reply = reply) replies.
Proof.
  intros HM Hp Hlen Hin. revert c out Hp Hlen.
  induction Hin as [|i inputs Hi _ IH]; intros c out Hp Hlen.
  - exists c, []. rewrite app_nil_r. split; [reflexivity|].
    split; [constructor|].
    split; [reflexivity|]. split; [exact Hp | constructor].
  - destruct i as [| |text srv delivered]; try contradiction.
    cbn [LlmLoop.delivered_transcript] in Hi. subst delivered.
    cbn [LlmLoop.llmProcessor]. cbn [length] in Hlen.
    destruct (Chat_pinned sys M srv c text HM Hp ltac:(lia))
      as (r & c1 & HChat & Hp1 & Hl1 & Hr).
    rewrite HChat.
    destruct r as [response|e].
    + destruct (IH c1 (out ++ [response]) Hp1 ltac:(lia))
        as (c' & replies & Hrun & Hans & Hn & Hp' & Hall).
      exists c', (response :: replies).
      rewrite Hrun, <- app_assoc. split; [reflexivity|].
      split.
      { exact (LlmLoop.answers_cons c text srv (Ok response) c1 inputs
                 replies c' HChat Hans). }
      split; [cbn [length]; lia|]. split; [exact Hp'|].
      constructor; [|exact Hall].
      right. destruct Hr as [Hr|[content Hr]]; [discriminate|].
      inversion Hr. apply TrimSpace_idem.
    + destruct (IH c1 (out ++ [runes "I'm sorry, I encountered an error."])
                  Hp1 ltac:(lia))
        as (c' & replies & Hrun & Hans & Hn & Hp' & Hall).
      exists c', (runes "I'm sorry, I encountered an error." :: replies).
      rewrite Hrun, <- app_assoc. split; [reflexivity|].
      split.
      { exact (LlmLoop.answers_cons c text srv (Err e) c1 inputs
                 replies c' HChat Hans). }
      split; [cbn [length]; lia|]. split; [exact Hp'|].
      constructor; [left; reflexivity | exact Hall].
Qed.

Lemma llmProcessor_one_reply_each_witness :
  let sys := Llm.mkMessage (runes "system") (runes "Be brief.") in
  let c := Llm.mkClient (runes "http://localhost:11434") (runes "gemma3:1b")
             [sys] false 10 0 in
  let inputs :=
    [LlmLoop.Transcript (runes "hi") (fun _ => Ok (runes " Hello. ")) true;
     LlmLoop.Transcript (runes "and now") (fun _ => Err (runes "timeout"))
                        true] in
  exists c' replies,
    LlmLoop.llmProcessor c [] inputs = Returns (c', [] ++ replies)
    /\ LlmLoop.answers c inputs replies c'
    /\ length replies = length inputs
    /\ Llm.pinned sys 10 c'
    /\ Forall (fun reply =>
                 reply = runes "I'm sorry, I encountered an error."
                 \/ TrimSpace reply = reply) replies.
Proof.
  intros sys c inputs.
  apply (llmProcessor_one_reply_each sys 10 c [] inputs).
  - lia.
  - split; [reflexivity|]. eexists. reflexivity.
  - cbn. lia.
  - repeat constructor.
Defined.

(** ** Package sherpa *)

Lemma substring_Returns (s : list Z) i n :
  0 <= i -> i + Z.of_nat n <= Z.of_nat (length s) ->
  Sherpa.substring s i (i + Z.of_nat n)
  = Returns (take n (drop (Z.to_nat i) s)).
Proof.
  intros Hi Hn. unfold Sherpa.substring.
  rewrite (proj2 (Z.leb_le 0 i)) by lia.
  rewrite (proj2 (Z.leb_le i (i + Z.of_nat n))) by lia.
  rewrite (proj2 (Z.leb_le (i + Z.of_nat n) _)) by lia.
  cbn [andb]. do 2 f_equal. lia.
Qed.

(** An occurrence of [substr] in [s] at the byte offset [k]. *)
Lemma occurrence_infix (s substr : list Z) :
  (exists k : nat,
     (k + length substr <= length s)%nat
     /\ take (length substr) (drop k s) = substr)
  <-> exists before after, s = before ++ substr ++ after.
Proof.
  split.
  - intros (k & Hk & Heq).
    exists (take k s), (drop (length substr) (drop k s)).
    rewrite <- Heq at 1. rewrite take_drop, take_drop. reflexivity.
  - intros (before & after & ->). exists (length before).
    rewrite !length_app. split; [lia|].
    rewrite drop_app_length, take_app_length. reflexivity.
Qed.

Lemma findLoop_spec (s substr : list Z) fuel : forall i : nat,
  (length s + 1 <= fuel + i)%nat ->
  exists b,
    Sherpa.findLoop s substr fuel (Z.of_nat i) = Returns b
    /\ (b = true
        <-> exists k : nat,
              (i <= k)%nat /\ (k + length substr <= length s)%nat
              /\ take (length substr) (drop k s) = substr).
Proof.
  induction fuel as [|fuel IH]; intros i Hfuel.
  - exists false. split; [reflexivity|]. split; [discriminate|].
    intros (k & ? & ? & _). lia.
  - cbn [Sherpa.findLoop].
    destruct (Z.leb_spec (Z.of_nat i)
                (Z.of_nat (length s) - Z.of_nat (length substr)))
      as [Hle|Hgt].
    + rewrite substring_Returns by lia. rewrite Nat2Z.id.
      case_bool_decide as Heq.
      * exists true. split; [reflexivity|]. split; [|reflexivity].
        intros _. exists i. split; [lia|]. split; [lia | exact Heq].
      * destruct (IH (S i) ltac:(lia)) as (b & Hb & Hiff).
        replace (Z.of_nat i + 1) with (Z.of_nat (S i)) by lia.
        exists b. split; [exact Hb|]. rewrite Hiff. split.
        -- intros (k & ? & ? & ?). exists k. split; [lia|]. split; assumption.
        -- intros (k & Hik & Hk & Hkeq).
           destruct (Nat.eq_dec k i) as [->|]; [contradiction|].
           exists k. split; [lia|]. split; assumption.
    + exists false. split; [reflexivity|]. split; [discriminate|].
      intros (k & ? & ? & _). lia.
Qed.

(** X12.  The hand-written [contains] of package sherpa is the substring
    test: it never panics (no slice goes out of range), and it answers
    [true] exactly when [substr] occurs in [s] as a run of consecutive
    bytes; the empty string occurs in every string. *)
Theorem contains_is_substring_test (s substr : list Z) :
  exists b,
    Sherpa.contains s substr = Returns b
    /\ (b = true <-> exists before after, s = before ++ substr ++ after).
Proof.
  unfold Sherpa.contains.
  destruct (Z.geb_spec (Z.of_nat (length s)) (Z.of_nat (length substr)))
    as [Hge|Hlt].
  - case_bool_decide as Heq.
    { exists true. split; [reflexivity|]. split; [|reflexivity].
      intros _. exists [], []. rewrite app_nil_r. exact Heq. }
    destruct (Z.eqb_spec (Z.of_nat (length substr)) 0) as [H0|H0].
    { exists true. split; [reflexivity|]. split; [|reflexivity].
      intros _. destruct substr; [|discriminate]. exists [], s. reflexivity. }
    assert (Hpos : (Z.of_nat (length s) >? 0)
                   && (Z.of_nat (length substr) >? 0) = true).
    { apply andb_true_intro. split; apply Z.gtb_lt; lia. }
    rewrite Hpos. unfold Sherpa.findSubstring.
    destruct (findLoop_spec s substr (S (length s)) 0 ltac:(lia))
      as (b & Hb & Hiff).
    exists b. split; [exact Hb|]. rewrite Hiff, <- occurrence_infix.
    split; intros (k & H); exists k; [apply H | split; [lia | exact H]].
  - exists false. split; [reflexivity|]. split; [discriminate|].
    intros (before & after & ->). rewrite !length_app in Hlt. lia.
Qed.

(** ** Package audio: a burst of captured chunks *)

Lemma Capture_push_full_state rb samples0 :
  Capture.wf rb ->
  Capture.occupancy rb = Capture.ringBufferSize ->
  let rb1 := Capture.ring (Capture.push rb samples0) in
  Capture.wf rb1
  /\ Capture.unread rb1 = Capture.unread rb
  /\ Capture.occupancy rb1 = Capture.occupancy rb
  /\ Capture.dropCount rb1 = wrap_uint64 (Capture.dropCount rb + 1).
Proof.
  intros Hwf Hocc rb1. subst rb1.
  rewrite Capture_push_full by lia. cbn [Capture.ring].
  split; [|repeat split].
  destruct Hwf as (H1 & H2 & H3 & H4 & H5 & H6).
  repeat split; try assumption; try apply H3; try apply H4;
    cbn [Capture.dropCount]; unfold wrap_uint64;
    apply Z.mod_pos_bound; lia.
Qed.

Lemma Capture_burst_state chunks : forall rb,
  Capture.wf rb ->
  let rb' := CaptureBurst.pushes rb chunks in
  let free := Z.to_nat (Capture.ringBufferSize - Capture.occupancy rb) in
  Capture.wf rb'
  /\ Capture.unread rb'
     = Capture.unread rb
       ++ take free
            (map (take (Z.to_nat Capture.maxSamplesPerChunk)) chunks)
  /\ Capture.dropCount rb'
     = wrap_uint64 (Capture.dropCount rb
                    + Z.of_nat (length chunks - free)).
Proof.
  induction chunks as [|c chunks IH]; intros rb Hwf.
  - cbn. rewrite take_nil, app_nil_r. split; [exact Hwf|].
    split; [reflexivity|]. rewrite Z.add_0_r.
    destruct Hwf as (_ & _ & _ & _ & Hd & _).
    unfold wrap_uint64. rewrite Z.mod_small by lia. reflexivity.
  - pose proof (occupancy_range rb) as Hrange.
    assert (Hle : Capture.occupancy rb <= Capture.ringBufferSize)
      by apply Hwf.
    unfold CaptureBurst.pushes. cbn [fold_left].
    fold (CaptureBurst.pushes (Capture.ring (Capture.push rb c)) chunks).
    destruct (Z.eq_dec (Capture.occupancy rb) Capture.ringBufferSize)
      as [Hfull|Hroom].
    + destruct (Capture_push_full_state rb c Hwf Hfull)
        as (Hwf1 & Hu1 & Ho1 & Hd1).
      destruct (IH _ Hwf1) as (Hwf' & Hu' & Hd').
      split; [exact Hwf'|]. rewrite Hu', Hd', Hu1, Ho1, Hd1, Hfull.
      rewrite Z.sub_diag. cbn [Z.to_nat take]. split; [reflexivity|].
      unfold wrap_uint64. rewrite Zplus_mod_idemp_l. f_equal.
      cbn [length]. lia.
    + destruct (Capture_push_room rb c Hwf ltac:(lia))
        as (_ & _ & Hwf1 & _ & _ & Hd1 & Ho1 & _ & Hu1).
      destruct (IH _ Hwf1) as (Hwf' & Hu' & Hd').
      split; [exact Hwf'|]. rewrite Hu', Hd', Hu1, Ho1, Hd1.
      unfold Capture.ringBufferSize in *.
      replace (Z.to_nat (128 - Capture.occupancy rb))
        with (S (Z.to_nat (128 - (Capture.occupancy rb + 1)))) by lia.
      cbn [map take length]. rewrite <- app_assoc. cbn [app].
      split; [reflexivity|]. f_equal.
Qed.

(** X13.  A burst of chunks pushed without a pop in between fills the
    free slots of the ring and loses the rest: the unread chunks are the
    old ones followed by the first [128 - occupancy] chunks of the burst,
    each cut at 2048 samples; the drop counter grows by the number of the
    others; and the consumer then pops exactly these chunks, in order,
    before it finds the ring empty. *)
Theorem Capture_burst rb chunks :
  Capture.wf rb ->
  let rb' := CaptureBurst.pushes rb chunks in
  let free := Z.to_nat (Capture.ringBufferSize - Capture.occupancy rb) in
  Capture.unread rb'
  = Capture.unread rb
    ++ take free (map (take (Z.to_nat Capture.maxSamplesPerChunk)) chunks)
  /\ Capture.dropCount rb'
     = wrap_uint64 (Capture.dropCount rb + Z.of_nat (length chunks - free))
  /\ exists rb'',
       Capture.pops (length (Capture.unread rb')) rb'
       = (map Some (Capture.unread rb'), rb'')
       /\ Capture.pop rb'' = (None, rb'').
Proof.
  intros Hwf rb' free.
  destruct (Capture_burst_state chunks rb Hwf) as (Hwf' & Hu & Hd).
  split; [exact Hu|]. split; [exact Hd|].
  destruct (pops_unread rb' Hwf') as (rb'' & Hpops & Hpop & _).
  exists rb''. split; assumption.
Qed.

Lemma Capture_burst_witness :
  let chunks := map (fun k => [Z.of_nat k]) (seq 0 130) in
  let rb' := CaptureBurst.pushes Capture.newRingBuffer chunks in
  Capture.unread rb' = take 128 chunks
  /\ Capture.dropCount rb' = 2.
Proof.
  intros chunks rb'.
  pose proof (Capture_burst Capture.newRingBuffer chunks) as H.
  cbv zeta in H.
  destruct H as (Hu & Hd & _).
  - refine (bool_decide_unpack _ _); vm_compute; exact I.
  - split.
    + unfold rb'. rewrite Hu. vm_compute. reflexivity.
    + unfold rb'. rewrite Hd. vm_compute. reflexivity.
Defined.

(** ** Package audio: samples and bytes *)

Lemma words_cons b0 b1 b2 b3 rest :
  SampleBytes.words (b0 :: b1 :: b2 :: b3 :: rest)
  = Z.lor (Z.lor (Z.lor b0 (Z.shiftl b1 8)) (Z.shiftl b2 16))
          (Z.shiftl b3 24)
    :: SampleBytes.words rest.
Proof. reflexivity. Qed.

Lemma length_words : forall (n : nat) (data : list Z),
  (length data < 4 * S n)%nat ->
  (4 * length (SampleBytes.words data) <= length data
   < 4 * length (SampleBytes.words data) + 4)%nat.
Proof.
  induction n as [|n IH]; intros data Hn.
  - destruct data as [|b0 [|b1 [|b2 [|b3 rest]]]]; cbn in *; lia.
  - destruct data as [|b0 [|b1 [|b2 [|b3 rest]]]]; try (cbn; lia).
    rewrite words_cons. cbn [length] in *.
    specialize (IH rest ltac:(lia)). lia.
Qed.

Lemma decodeLoop_spec (data : list Z) n : forall (i : nat) samples,
  length samples = (i + n)%nat ->
  (4 * (i + n) <= length data)%nat ->
  SampleBytes.decodeLoop data samples n (Z.of_nat i)
  = Returns (take i samples
             ++ take n (SampleBytes.words (drop (4 * i) data))).
Proof.
  induction n as [|n IH]; intros i samples Hlen Hdata.
  - cbn [SampleBytes.decodeLoop take]. rewrite app_nil_r, take_ge by lia.
    reflexivity.
  - cbn [SampleBytes.decodeLoop]. unfold SampleBytes.from.
    rewrite (proj2 (Z.leb_le 0 (Z.of_nat i * 4))) by lia.
    rewrite (proj2 (Z.leb_le (Z.of_nat i * 4) _)) by lia.
    cbn [andb].
    replace (Z.to_nat (Z.of_nat i * 4)) with (4 * i)%nat by lia.
    assert (Hd : (4 <= length (drop (4 * i) data))%nat)
      by (rewrite length_drop; lia).
    destruct (drop (4 * i) data) as [|b0 [|b1 [|b2 [|b3 rest]]]] eqn:E;
      try (cbn [length] in Hd; lia).
    cbn [SampleBytes.Uint32]. rewrite Nat2Z.id.
    replace (Z.of_nat i + 1) with (Z.of_nat (S i)) by lia.
    rewrite IH; [| rewrite length_insert; lia | lia].
    assert (Hrest : drop (4 * S i) data = rest).
    { replace (4 * S i)%nat with (4 * i + 4)%nat by lia.
      rewrite <- drop_drop, E. reflexivity. }
    rewrite Hrest, words_cons.
    rewrite (take_S_r _ i (Z.lor (Z.lor (Z.lor b0 (Z.shiftl b1 8))
                                        (Z.shiftl b2 16)) (Z.shiftl b3 24))).
    + rewrite take_insert, decide_False by lia.
      rewrite <- app_assoc. reflexivity.
    + apply list_lookup_insert_eq. lia.
Qed.

Lemma bytesToFloat32_eq (pBuf : list Z) (data : list Z) :
  SampleBytes.bytesToFloat32 pBuf data = Returns (SampleBytes.words data)
  /\ Z.of_nat (length (SampleBytes.words data))
     = Z.of_nat (length data) / 4.
Proof.
  pose proof (length_words (length data) data ltac:(lia)) as Hw.
  assert (Hq : Z.of_nat (length data) / 4
               = Z.of_nat (length (SampleBytes.words data))).
  { symmetry. apply (Z.div_unique _ 4 _
      (Z.of_nat (length data)
       - 4 * Z.of_nat (length (SampleBytes.words data)))); lia. }
  split; [|lia].
  unfold SampleBytes.bytesToFloat32. cbv zeta.
  rewrite Z.quot_div_nonneg by lia. rewrite Hq, Nat2Z.id.
  set (n := length (SampleBytes.words data)) in *.
  set (buf := if Z.of_nat (length pBuf) <? Z.of_nat n
              then Capture.make (Z.of_nat n) else pBuf).
  assert (Hbuf : (n <= length buf)%nat).
  { unfold buf. destruct (Z.ltb_spec (Z.of_nat (length pBuf)) (Z.of_nat n)).
    - rewrite length_make. lia.
    - lia. }
  rewrite length_take, Nat.min_l by lia.
  rewrite (decodeLoop_spec data n 0%nat);
    [| rewrite length_take; lia | cbn [Nat.add]; apply Hw].
  rewrite take_0, app_nil_l, Nat.mul_0_r, drop_0.
  rewrite take_ge by (unfold n; apply Nat.le_refl).
  reflexivity.
Qed.

(** X14.  [bytesToFloat32] never panics and returns, for a byte buffer of
    any length, its little-endian words in order: one sample for every
    four bytes, a rest of fewer than four bytes ignored.  Nothing of what
    the pooled buffer held before shows in the result. *)
Theorem bytesToFloat32_words (pBuf : list Z) (data : list Z) :
  SampleBytes.bytesToFloat32 pBuf data = Returns (SampleBytes.words data)
  /\ Z.of_nat (length (SampleBytes.words data))
     = Z.of_nat (length data) / 4.
Proof. exact (bytesToFloat32_eq pBuf data). Qed.

(** A byte [(v >> k) & 0xff] moved back to its place. *)
Lemma byte_bit v k n :
  0 <= k -> 0 <= n ->
  Z.testbit (Z.shiftl (Z.shiftr v k mod 2 ^ 8) k) n
  = (k <=? n) && (n <? k + 8) && Z.testbit v n.
Proof.
  intros Hk Hn. destruct (Z.leb_spec k n) as [Hle|Hlt]; cbn [andb].
  - rewrite Z.shiftl_spec by lia. rewrite Z.testbit_mod_pow2 by lia.
    rewrite Z.shiftr_spec by lia. replace (n - k + k) with n by lia.
    f_equal. destruct (Z.ltb_spec (n - k) 8), (Z.ltb_spec n (k + 8));
      try reflexivity; lia.
  - rewrite Z.shiftl_spec by lia. apply Z.testbit_neg_r. lia.
Qed.

(** [Uint32] reads back what [PutUint32] wrote. *)
Lemma Uint32_PutUint32 v :
  0 <= v < 2 ^ 32 ->
  Z.lor (Z.lor (Z.lor (v mod 256) (Z.shiftl (Z.shiftr v 8 mod 256) 8))
               (Z.shiftl (Z.shiftr v 16 mod 256) 16))
        (Z.shiftl (Z.shiftr v 24 mod 256) 24)
  = v.
Proof.
  intros Hv. apply Z.bits_inj'. intros n Hn.
  rewrite !Z.lor_spec.
  change 256 with (2 ^ 8).
  rewrite !byte_bit by lia.
  rewrite Z.testbit_mod_pow2 by lia.
  assert (Hhigh : 32 <= n -> Z.testbit v n = false).
  { intros H32. rewrite <- (Z.mod_small v (2 ^ 32)) by lia.
    rewrite Z.testbit_mod_pow2 by lia.
    rewrite (proj2 (Z.ltb_ge n 32)) by lia. reflexivity. }
  destruct (Z.testbit v n) eqn:Hb.
  - assert (n < 32).
    { destruct (Z.lt_ge_cases n 32) as [|H32]; [assumption|].
      specialize (Hhigh H32). congruence. }
    rewrite !andb_true_r.
    destruct (Z.ltb_spec n 8), (Z.leb_spec 8 n), (Z.ltb_spec n (8 + 8)),
      (Z.leb_spec 16 n), (Z.ltb_spec n (16 + 8)), (Z.leb_spec 24 n),
      (Z.ltb_spec n (24 + 8)); try reflexivity; lia.
  - rewrite !andb_false_r. reflexivity.
Qed.

(** ** Package audio: the playback ring *)

(** The array index ignores the wrap of a position: the ring size
    divides [2 ^ 64]. *)
Lemma wrap_mod_ring z :
  wrap_uint64 z mod Playback.playbackRingSize
  = z mod Playback.playbackRingSize.
Proof.
  unfold wrap_uint64, Playback.playbackRingSize.
  apply Z.mod_mod_divide. exists (2 ^ 45). reflexivity.
Qed.

Lemma wrap_uint64_small z : 0 <= z < 2 ^ 64 -> wrap_uint64 z = z.
Proof. intros H. unfold wrap_uint64. apply Z.mod_small. exact H. Qed.

Lemma wrap_add_mod_ring a k :
  (wrap_uint64 a + k) mod Playback.playbackRingSize
  = (a + k) mod Playback.playbackRingSize.
Proof.
  rewrite Zplus_mod, wrap_mod_ring, <- Zplus_mod. reflexivity.
Qed.

Lemma ring_index_inj a j j' :
  - Playback.playbackRingSize < j - j' < Playback.playbackRingSize ->
  (a + j) mod Playback.playbackRingSize
  = (a + j') mod Playback.playbackRingSize ->
  j = j'.
Proof.
  unfold Playback.playbackRingSize. intros Hd Heq.
  pose proof (Z.div_mod (a + j) 524288 ltac:(lia)) as H1.
  pose proof (Z.div_mod (a + j') 524288 ltac:(lia)) as H2.
  rewrite Heq in H1. lia.
Qed.

Lemma ring_index_lt (buf : list Z) z :
  Z.of_nat (length buf) = Playback.playbackRingSize ->
  (Z.to_nat (z mod Playback.playbackRingSize) < length buf)%nat.
Proof.
  intros Hl. pose proof (Z.mod_pos_bound z Playback.playbackRingSize) as Hb.
  unfold Playback.playbackRingSize in *. lia.
Qed.

Lemma length_write h (src : list Z) n : forall buf i,
  length (Playback.write buf h src n i) = length buf.
Proof.
  induction n as [|n IH]; intros buf i; [reflexivity|].
  cbn [Playback.write]. rewrite IH. apply length_insert.
Qed.

Lemma write_other h (src : list Z) n : forall buf i (p : nat),
  (forall j, i <= j < i + Z.of_nat n ->
     Z.to_nat ((h + j) mod Playback.playbackRingSize) <> p) ->
  Playback.write buf h src n i !! p = buf !! p.
Proof.
  induction n as [|n IH]; intros buf i p Hp; [reflexivity|].
  cbn [Playback.write]. rewrite IH.
  - rewrite wrap_mod_ring. apply list_lookup_insert_ne. apply Hp. lia.
  - intros j Hj. apply Hp. lia.
Qed.

Lemma write_hit h (src : list Z) n : forall buf i j,
  Z.of_nat (length buf) = Playback.playbackRingSize ->
  i <= j < i + Z.of_nat n ->
  Z.of_nat n <= Playback.playbackRingSize ->
  Playback.write buf h src n i
    !! Z.to_nat ((h + j) mod Playback.playbackRingSize)
  = Some (src !!! Z.to_nat j).
Proof.
  induction n as [|n IH]; intros buf i j Hl Hj Hn; [lia|].
  cbn [Playback.write]. rewrite wrap_mod_ring.
  destruct (Z.eq_dec j i) as [->|Hne].
  - rewrite write_other.
    + apply list_lookup_insert_eq. apply ring_index_lt. exact Hl.
    + intros j' Hj' Heq.
      pose proof (Z.mod_pos_bound (h + j') Playback.playbackRingSize
                    ltac:(unfold Playback.playbackRingSize; lia)).
      pose proof (Z.mod_pos_bound (h + i) Playback.playbackRingSize
                    ltac:(unfold Playback.playbackRingSize; lia)).
      apply Z2Nat.inj in Heq; [|lia|lia].
      apply ring_index_inj in Heq; lia.
  - apply IH; [rewrite length_insert; exact Hl | lia | lia].
Qed.

Lemma playback_occupancy_range rb : 0 <= Playback.occupancy rb < 2 ^ 64.
Proof.
  unfold Playback.occupancy, wrap_uint64. apply Z.mod_pos_bound. lia.
Qed.

(** The slot after the unread samples is the one at [head]. *)
Lemma head_index rb k :
  (Playback.tail rb + Playback.occupancy rb + k)
    mod Playback.playbackRingSize
  = (Playback.head rb + k) mod Playback.playbackRingSize.
Proof.
  unfold Playback.occupancy, wrap_uint64.
  rewrite (Z.mod_eq (Playback.head rb - Playback.tail rb) (2 ^ 64)) by lia.
  set (q := (Playback.head rb - Playback.tail rb) / 2 ^ 64).
  replace (Playback.tail rb
           + (Playback.head rb - Playback.tail rb - 2 ^ 64 * q) + k)
    with (Playback.head rb + k
          + (- (2 ^ 45) * q) * Playback.playbackRingSize)
    by (unfold Playback.playbackRingSize; lia).
  apply Z_mod_plus_full.
Qed.

Lemma lookup_total_eq (l1 l2 : list Z) i :
  l1 !! i = l2 !! i -> l1 !!! i = l2 !!! i.
Proof. intros H. rewrite !list_lookup_total_alt, H. reflexivity. Qed.

Lemma Playback_push_spec rb (src : list Z) :
  Playback.wf rb ->
  let n := Z.min (Z.of_nat (length src))
                 (Playback.playbackRingSize - Playback.occupancy rb) in
  (Playback.push rb src).1 = n
  /\ Playback.wf (Playback.push rb src).2
  /\ Playback.tail (Playback.push rb src).2 = Playback.tail rb
  /\ Playback.occupancy (Playback.push rb src).2 = Playback.occupancy rb + n
  /\ Playback.unread (Playback.push rb src).2
     = Playback.unread rb ++ take (Z.to_nat n) src.
Proof.
  intros (Hl & Hh & Ht & Ho) n.
  pose proof (playback_occupancy_range rb) as Hrange.
  assert (Hn : 0 <= n <= Playback.playbackRingSize - Playback.occupancy rb)
    by (unfold n; lia).
  assert (HS : Playback.playbackRingSize = 524288) by reflexivity.
  unfold Playback.push. cbv zeta.
  fold (Playback.occupancy rb).
  rewrite (wrap_int_small (Playback.occupancy rb)) by lia.
  rewrite (wrap_int_small (_ - _)) by lia.
  assert (Hto : (if Z.of_nat (length src)
                    >? Playback.playbackRingSize - Playback.occupancy rb
                 then Playback.playbackRingSize - Playback.occupancy rb
                 else Z.of_nat (length src)) = n).
  { unfold n. destruct (Z.gtb_spec (Z.of_nat (length src))
                 (Playback.playbackRingSize - Playback.occupancy rb)); lia. }
  rewrite Hto. cbn [fst snd].
  rewrite (wrap_uint64_small n) by lia.
  set (buf := Playback.write (Playback.samples rb) (Playback.head rb) src
                (Z.to_nat n) 0).
  assert (Hocc : wrap_uint64 (wrap_uint64 (Playback.head rb + n)
                              - Playback.tail rb)
                 = Playback.occupancy rb + n).
  { unfold Playback.occupancy, wrap_uint64.
    rewrite Zminus_mod_idemp_l.
    replace (Playback.head rb + n - Playback.tail rb)
      with (Playback.head rb - Playback.tail rb + n) by lia.
    rewrite <- Zplus_mod_idemp_l. apply Z.mod_small.
    unfold Playback.occupancy, wrap_uint64 in Hrange, Hn, Ho. lia. }
  split; [reflexivity|]. split.
  { unfold Playback.wf, Playback.occupancy.
    cbn [Playback.samples Playback.head Playback.tail].
    rewrite Hocc. split; [unfold buf; rewrite length_write; exact Hl|].
    split; [unfold wrap_uint64; apply Z.mod_pos_bound; lia|].
    split; [exact Ht | lia]. }
  split; [reflexivity|]. split; [exact Hocc|].
  unfold Playback.unread at 1. unfold Playback.occupancy at 1.
  cbn [Playback.samples Playback.head Playback.tail]. rewrite Hocc.
  replace (Z.to_nat (Playback.occupancy rb + n))
    with (Z.to_nat (Playback.occupancy rb) + Z.to_nat n)%nat by lia.
  rewrite seq_app, map_app. cbn [Nat.add]. f_equal.
  - unfold Playback.unread. apply map_ext_in. intros k Hk.
    apply in_seq in Hk. apply lookup_total_eq. unfold buf.
    apply write_other. intros j Hj Heq.
    pose proof (Z.mod_pos_bound (Playback.head rb + j)
                  Playback.playbackRingSize ltac:(lia)).
    pose proof (Z.mod_pos_bound (Playback.tail rb + Z.of_nat k)
                  Playback.playbackRingSize ltac:(lia)).
    apply Z2Nat.inj in Heq; [|lia|lia].
    rewrite <- head_index in Heq.
    replace (Playback.tail rb + Playback.occupancy rb + j)
      with (Playback.tail rb + (Playback.occupancy rb + j)) in Heq by lia.
    apply ring_index_inj in Heq; lia.
  - apply list_eq. intros i.
    rewrite list_lookup_fmap.
    destruct (Nat.lt_ge_cases i (Z.to_nat n)) as [Hi|Hi].
    + rewrite lookup_seq_lt by exact Hi. cbn [fmap option_fmap option_map].
      rewrite lookup_take_lt by exact Hi.
      rewrite (list_lookup_lookup_total_lt src i) by lia.
      f_equal. apply list_lookup_total_correct.
      replace (Playback.tail rb
               + Z.of_nat (Z.to_nat (Playback.occupancy rb) + i))
        with (Playback.tail rb + Playback.occupancy rb + Z.of_nat i) by lia.
      rewrite head_index. unfold buf.
      rewrite (write_hit _ _ _ _ 0 (Z.of_nat i)); [|exact Hl|lia|lia].
      rewrite Nat2Z.id. reflexivity.
    + rewrite lookup_seq_ge by exact Hi.
      rewrite lookup_take_ge by exact Hi. reflexivity.
Qed.

(** X15.  [push] on the playback ring writes as many samples as fit and
    no more: the count returned is the smaller of the length of the input
    and the free space, the unread samples are the old ones followed by
    that many samples of the input, in order, and nothing unread is
    overwritten. *)
Theorem Playback_push_appends rb (src : list Z) :
  Playback.wf rb ->
  let written := (Playback.push rb src).1 in
  let rb' := (Playback.push rb src).2 in
  written = Z.min (Z.of_nat (length src))
                  (Playback.playbackRingSize - Playback.occupancy rb)
  /\ Playback.wf rb'
  /\ Playback.unread rb'
     = Playback.unread rb ++ take (Z.to_nat written) src
  /\ Z.of_nat (length (Playback.unread rb')) <= Playback.playbackRingSize.
Proof.
  intros Hwf written rb'.
  destruct (Playback_push_spec rb src Hwf) as (Hn & Hwf' & _ & Ho & Hu).
  split; [exact Hn|]. split; [exact Hwf'|]. split.
  - unfold written. rewrite Hn. exact Hu.
  - unfold Playback.unread. rewrite length_map, length_seq.
    destruct Hwf' as (_ & _ & _ & Hle).
    pose proof (playback_occupancy_range rb'). fold rb' in Hle. lia.
Qed.

Lemma Playback_pop_empty rb :
  Playback.wf rb ->
  Playback.occupancy rb = 0 ->
  Playback.pop rb = (0, false, rb) /\ Playback.isEmpty rb = true
  /\ Playback.unread rb = [].
Proof.
  intros (_ & Hh & Ht & _) Ho.
  assert (Heq : Playback.head rb = Playback.tail rb).
  { unfold Playback.occupancy, wrap_uint64 in Ho.
    pose proof (Z.div_mod (Playback.head rb - Playback.tail rb) (2 ^ 64)
                  ltac:(lia)) as Hd.
    rewrite Ho in Hd. lia. }
  unfold Playback.pop, Playback.isEmpty, Playback.unread.
  rewrite Ho, (proj2 (Z.eqb_eq _ _) Heq). repeat split.
Qed.

Lemma Playback_pop_nonempty rb :
  Playback.wf rb ->
  0 < Playback.occupancy rb ->
  exists x rb',
    Playback.pop rb = (x, true, rb')
    /\ Playback.unread rb = x :: Playback.unread rb'
    /\ Playback.wf rb'
    /\ Playback.occupancy rb' = Playback.occupancy rb - 1
    /\ Playback.samples rb' = Playback.samples rb.
Proof.
  intros (Hl & Hh & Ht & Hle) Ho.
  pose proof (playback_occupancy_range rb) as Hrange.
  assert (Hne : Playback.head rb <> Playback.tail rb).
  { intros Heq. unfold Playback.occupancy in Ho.
    rewrite Heq, Z.sub_diag in Ho. unfold wrap_uint64 in Ho.
    rewrite Z.mod_0_l in Ho by lia. lia. }
  unfold Playback.pop. rewrite (proj2 (Z.eqb_neq _ _) Hne).
  eexists _, _. split; [reflexivity|].
  assert (Hocc : wrap_uint64 (Playback.head rb
                              - wrap_uint64 (Playback.tail rb + 1))
                 = Playback.occupancy rb - 1).
  { unfold Playback.occupancy, wrap_uint64.
    rewrite Zminus_mod_idemp_r.
    replace (Playback.head rb - (Playback.tail rb + 1))
      with (Playback.head rb - Playback.tail rb - 1) by lia.
    rewrite <- Zminus_mod_idemp_l. apply Z.mod_small.
    unfold Playback.occupancy, wrap_uint64 in Hrange, Ho. lia. }
  split; [|split; [|split; [exact Hocc|reflexivity]]].
  - unfold Playback.unread, Playback.occupancy at 2.
    cbn [Playback.samples Playback.head Playback.tail]. rewrite Hocc.
    replace (Z.to_nat (Playback.occupancy rb))
      with (S (Z.to_nat (Playback.occupancy rb - 1))) by lia.
    cbn [seq map]. rewrite Z.add_0_r. f_equal.
    rewrite <- seq_shift, map_map. apply map_ext. intros k.
    rewrite wrap_add_mod_ring. do 3 f_equal. lia.
  - unfold Playback.wf, Playback.occupancy.
    cbn [Playback.samples Playback.head Playback.tail]. rewrite Hocc.
    split; [exact Hl|]. split; [exact Hh|].
    split; [unfold wrap_uint64; apply Z.mod_pos_bound; lia | lia].
Qed.

Lemma Playback_pops_unread n : forall rb,
  Playback.wf rb ->
  n = length (Playback.unread rb) ->
  exists rb',
    Playback.pops n rb
    = (map (fun x => (x, true)) (Playback.unread rb), rb')
    /\ Playback.wf rb'
    /\ Playback.occupancy rb' = 0
    /\ Playback.samples rb' = Playback.samples rb.
Proof.
  induction n as [|n IH]; intros rb Hwf Hn.
  - assert (Ho : Playback.occupancy rb = 0).
    { unfold Playback.unread in Hn. rewrite length_map, length_seq in Hn.
      pose proof (playback_occupancy_range rb). lia. }
    destruct (Playback_pop_empty rb Hwf Ho) as (_ & _ & Hu).
    exists rb. rewrite Hu. split; [reflexivity|]. split; [exact Hwf|].
    split; [exact Ho | reflexivity].
  - assert (Ho : 0 < Playback.occupancy rb).
    { unfold Playback.unread in Hn. rewrite length_map, length_seq in Hn.
      lia. }
    destruct (Playback_pop_nonempty rb Hwf Ho)
      as (x & rb1 & Hpop & Hu & Hwf1 & Ho1 & Hs1).
    destruct (IH rb1 Hwf1) as (rb' & Hpops & Hwf' & Ho' & Hs').
    { rewrite Hu in Hn. cbn [length] in Hn. lia. }
    exists rb'. cbn [Playback.pops]. rewrite Hpop, Hpops, Hu.
    cbn [map]. split; [reflexivity|]. split; [exact Hwf'|].
    split; [exact Ho' | congruence].
Qed.

(** X16.  The playback ring is first in, first out: after a [push], as
    many calls of [pop] as there are unread samples return the samples
    that were unread before the push, then the samples the push wrote,
    each with [true]; the next [pop] returns [false] and the ring is
    empty. *)
Theorem Playback_fifo rb (src : list Z) :
  Playback.wf rb ->
  let rb1 := (Playback.push rb src).2 in
  let written := (Playback.push rb src).1 in
  exists rb2,
    Playback.pops (length (Playback.unread rb) + Z.to_nat written) rb1
    = (map (fun x => (x, true))
           (Playback.unread rb ++ take (Z.to_nat written) src), rb2)
    /\ Playback.pop rb2 = (0, false, rb2)
    /\ Playback.isEmpty rb2 = true.
Proof.
  intros Hwf rb1 written.
  destruct (Playback_push_spec rb src Hwf) as (Hn & Hwf1 & _ & _ & Hu).
  fold rb1 in Hwf1, Hu. fold written in Hn.
  rewrite <- Hn in Hu.
  destruct (Playback_pops_unread
              (length (Playback.unread rb) + Z.to_nat written) rb1 Hwf1)
    as (rb2 & Hpops & Hwf2 & Ho2 & _).
  { rewrite Hu, length_app, length_take.
    pose proof (Z.le_min_l (Z.of_nat (length src))
                  (Playback.playbackRingSize - Playback.occupancy rb)).
    lia. }
  exists rb2. rewrite Hpops, Hu. split; [reflexivity|].
  destruct (Playback_pop_empty rb2 Hwf2 Ho2) as (Hp & He & _).
  split; assumption.
Qed.

(** The invariant of a concrete ring, by evaluation. *)
Ltac playback_wf :=
  unfold Playback.wf, Playback.occupancy, Playback.playbackRingSize;
  cbn [Playback.samples Playback.head Playback.tail];
  rewrite length_replicate;
  split; [lia|]; split; [lia|]; split; [lia|];
  vm_compute; discriminate.

Lemma Playback_push_appends_witness :
  let rb := Playback.mkPlaybackRing (replicate (Z.to_nat 524288) 0) 0 0 in
  (Playback.push rb [7; 8; 9]).1
  = Z.min (Z.of_nat (length [7; 8; 9]))
          (Playback.playbackRingSize - Playback.occupancy rb)
  /\ Playback.unread (Playback.push rb [7; 8; 9]).2
     = Playback.unread rb
       ++ take (Z.to_nat (Playback.push rb [7; 8; 9]).1) [7; 8; 9].
Proof.
  intros rb. subst rb.
  destruct (Playback_push_appends
              (Playback.mkPlaybackRing (replicate (Z.to_nat 524288) 0) 0 0)
              [7; 8; 9]) as (H1 & _ & H2 & _).
  - playback_wf.
  - split; assumption.
Defined.

Lemma Playback_fifo_witness :
  let rb := Playback.mkPlaybackRing (replicate (Z.to_nat 524288) 0) 0 0 in
  exists rb2,
    Playback.pops (length (Playback.unread rb)
                   + Z.to_nat (Playback.push rb [7; 8; 9]).1)
                  (Playback.push rb [7; 8; 9]).2
    = (map (fun x => (x, true))
           (Playback.unread rb
            ++ take (Z.to_nat (Playback.push rb [7; 8; 9]).1) [7; 8; 9]),
       rb2)
    /\ Playback.pop rb2 = (0, false, rb2)
    /\ Playback.isEmpty rb2 = true.
Proof.
  intros rb. subst rb.
  apply (Playback_fifo
           (Playback.mkPlaybackRing (replicate (Z.to_nat 524288) 0) 0 0)
           [7; 8; 9]).
  playback_wf.
Defined.

(** X17.  [clear] drops everything unread and nothing else: afterwards
    the ring is empty, and the whole ring is free again, so that a push of
    up to [playbackRingSize] samples is written in full and is all there
    is to pop. *)
Theorem Playback_clear_frees rb (src : list Z) :
  Playback.wf rb ->
  let rb0 := Playback.clear rb in
  Playback.wf rb0
  /\ Playback.unread rb0 = []
  /\ Playback.isEmpty rb0 = true
  /\ (Playback.push rb0 src).1
     = Z.min (Z.of_nat (length src)) Playback.playbackRingSize
  /\ Playback.unread (Playback.push rb0 src).2
     = take (Z.to_nat Playback.playbackRingSize) src.
Proof.
  intros (Hl & Hh & Ht & Hle) rb0.
  assert (Ho : Playback.occupancy rb0 = 0).
  { unfold rb0, Playback.clear, Playback.occupancy.
    cbn [Playback.head Playback.tail]. rewrite Z.sub_diag. reflexivity. }
  assert (Hwf0 : Playback.wf rb0).
  { unfold Playback.wf. rewrite Ho. unfold rb0, Playback.clear.
    cbn [Playback.samples Playback.head Playback.tail].
    repeat split; try assumption; try apply Hh.
    unfold Playback.playbackRingSize. lia. }
  destruct (Playback_pop_empty rb0 Hwf0 Ho) as (_ & He & Hu).
  destruct (Playback_push_spec rb0 src Hwf0) as (Hn & _ & _ & _ & Hu').
  rewrite Ho, Z.sub_0_r in Hn, Hu'.
  split; [exact Hwf0|]. split; [exact Hu|]. split; [exact He|].
  split; [exact Hn|]. rewrite Hu', Hu. cbn [app].
  destruct (Z.le_ge_cases (Z.of_nat (length src)) Playback.playbackRingSize).
  - rewrite Z.min_l by lia. rewrite !take_ge by lia. reflexivity.
  - rewrite Z.min_r by lia. reflexivity.
Qed.

Lemma Playback_clear_frees_witness :
  let rb := Playback.mkPlaybackRing (replicate (Z.to_nat 524288) 0) 5 2 in
  Playback.unread (Playback.clear rb) = []
  /\ (Playback.push (Playback.clear rb) [7; 8; 9]).1 = 3.
Proof.
  intros rb. subst rb.
  destruct (Playback_clear_frees
              (Playback.mkPlaybackRing (replicate (Z.to_nat 524288) 0) 5 2)
              [7; 8; 9]) as (_ & Hu & _ & Hn & _).
  - playback_wf.
  - split; [exact Hu | exact Hn].
Defined.

(** ** Package audio: the playback callback *)

Lemma length_le_bytes v : length (SampleBytes.le_bytes v) = 4%nat.
Proof. reflexivity. Qed.

Lemma length_flat_map_le_bytes l :
  length (flat_map SampleBytes.le_bytes l) = (4 * length l)%nat.
Proof.
  induction l as [|v l IH]; [reflexivity|].
  cbn [flat_map]. rewrite length_app, length_le_bytes, IH. cbn [length]. lia.
Qed.

(** What was encoded by [PutUint32] decodes to the same samples. *)
Lemma words_le_bytes l :
  Forall (fun v => 0 <= v < 2 ^ 32) l ->
  SampleBytes.words (flat_map SampleBytes.le_bytes l) = l.
Proof.
  induction 1 as [|v l Hv _ IH]; [reflexivity|].
  cbn [flat_map]. unfold SampleBytes.le_bytes at 1. cbn [app].
  rewrite words_cons, IH, Uint32_PutUint32 by exact Hv. reflexivity.
Qed.

Lemma put_at_spec (out : list Z) (i : nat) v :
  (4 * i + 4 <= length out)%nat ->
  Playback.put_at out (Z.of_nat i * 4) v
  = Returns (take (4 * i) out ++ SampleBytes.le_bytes v
             ++ drop (4 * i + 4) out).
Proof.
  intros Hlen. unfold Playback.put_at, SampleBytes.from.
  rewrite (proj2 (Z.leb_le 0 (Z.of_nat i * 4))) by lia.
  rewrite (proj2 (Z.leb_le (Z.of_nat i * 4) _)) by lia.
  cbn [andb].
  replace (Z.to_nat (Z.of_nat i * 4)) with (4 * i)%nat by lia.
  assert (Hd : (4 <= length (drop (4 * i) out))%nat)
    by (rewrite length_drop; lia).
  assert (Hrest : drop (4 * i + 4) out = drop 4 (drop (4 * i) out))
    by (rewrite drop_drop; reflexivity).
  rewrite Hrest.
  destruct (drop (4 * i) out) as [|b0 [|b1 [|b2 [|b3 rest]]]];
    try (cbn [length] in Hd; lia).
  reflexivity.
Qed.

Lemma splice_step (out mid rest : list Z) (i n : nat) :
  length mid = 4%nat ->
  (4 * i + 4 <= length out)%nat ->
  let out1 := take (4 * i) out ++ mid ++ drop (4 * i + 4) out in
  take (4 * S i) out1 ++ rest ++ drop (4 * (S i + n)) out1
  = take (4 * i) out ++ (mid ++ rest) ++ drop (4 * (i + S n)) out.
Proof.
  intros Hmid Hlen out1.
  assert (Hpre : length (take (4 * i) out) = (4 * i)%nat)
    by (apply length_take_le; lia).
  unfold out1. rewrite (app_assoc (take (4 * i) out) mid).
  rewrite take_app_length' by (rewrite length_app; lia).
  rewrite drop_app_ge by (rewrite length_app; lia).
  rewrite length_app, Hpre, Hmid, drop_drop.
  replace (4 * i + 4 + (4 * (S i + n) - (4 * i + 4)))%nat
    with (4 * (i + S n))%nat by lia.
  rewrite <- !app_assoc. reflexivity.
Qed.

Lemma sendLoop_spec interrupted n : forall rb (out : list Z) (i : nat),
  Playback.wf rb ->
  (4 * (i + n) <= length out)%nat ->
  exists rb',
    Playback.sendLoop interrupted rb out n (Z.of_nat i)
    = Returns (rb',
               take (4 * i) out
               ++ flat_map SampleBytes.le_bytes
                    (Playback.frames interrupted rb n)
               ++ drop (4 * (i + n)) out)
    /\ Playback.unread rb'
       = drop (Playback.played interrupted rb n) (Playback.unread rb)
    /\ Playback.wf rb'
    /\ Playback.samples rb' = Playback.samples rb.
Proof.
  induction n as [|n IH]; intros rb out i Hwf Hlen.
  - exists rb. cbn [Playback.sendLoop].
    assert (Hp : Playback.played interrupted rb 0 = 0%nat)
      by (unfold Playback.played; destruct interrupted; reflexivity).
    unfold Playback.frames. rewrite Hp, take_0, drop_0.
    cbn [replicate app flat_map Nat.sub].
    rewrite Nat.add_0_r, take_drop.
    split; [reflexivity|]. split; [reflexivity|]. split; [exact Hwf|].
    reflexivity.
  - cbn [Playback.sendLoop].
    replace (Z.of_nat i + 1) with (Z.of_nat (S i)) by lia.
    assert (Hstep : exists sample rb1,
      (if negb interrupted
       then let '(s, ok, rb1) := Playback.pop rb in
            (if ok then s else 0, rb1)
       else (0, rb)) = (sample, rb1)
      /\ Playback.wf rb1
      /\ Playback.samples rb1 = Playback.samples rb
      /\ Playback.frames interrupted rb (S n)
         = sample :: Playback.frames interrupted rb1 n
      /\ drop (Playback.played interrupted rb1 n) (Playback.unread rb1)
         = drop (Playback.played interrupted rb (S n)) (Playback.unread rb)).
    { destruct interrupted; cbn [negb].
      - exists 0, rb. unfold Playback.frames, Playback.played.
        rewrite !take_0, !Nat.sub_0_r. cbn [app replicate].
        split; [reflexivity|]. split; [exact Hwf|].
        split; [reflexivity|]. split; reflexivity.
      - pose proof (playback_occupancy_range rb) as Hrange.
        destruct (Z.eq_dec (Playback.occupancy rb) 0) as [Ho|Ho].
        + destruct (Playback_pop_empty rb Hwf Ho) as (Hpop & _ & Hu).
          rewrite Hpop. exists 0, rb.
          unfold Playback.frames, Playback.played. rewrite Hu.
          cbn [length]. rewrite !Nat.min_0_r, !take_0, !Nat.sub_0_r.
          cbn [app replicate].
          split; [reflexivity|]. split; [exact Hwf|].
          split; [reflexivity|]. split; reflexivity.
        + destruct (Playback_pop_nonempty rb Hwf ltac:(lia))
            as (x & rb1 & Hpop & Hu & Hwf1 & _ & Hs1).
          rewrite Hpop. exists x, rb1.
          unfold Playback.frames, Playback.played. rewrite Hu.
          cbn [length]. rewrite <- Nat.succ_min_distr.
          cbn [take drop Nat.sub app].
          split; [reflexivity|]. split; [exact Hwf1|].
          split; [exact Hs1|]. split; reflexivity. }
    destruct Hstep as (sample & rb1 & -> & Hwf1 & Hs1 & Hframes & Hdrop).
    rewrite put_at_spec by lia.
    set (out1 := take (4 * i) out ++ SampleBytes.le_bytes sample
                 ++ drop (4 * i + 4) out).
    assert (Hlen1 : length out1 = length out).
    { unfold out1. rewrite !length_app, length_take_le, length_drop by lia.
      rewrite length_le_bytes. lia. }
    destruct (IH rb1 out1 (S i) Hwf1 ltac:(lia))
      as (rb' & Hrun & Hu' & Hwf' & Hs').
    exists rb'. rewrite Hrun. split.
    + f_equal. f_equal. unfold out1.
      rewrite (splice_step out (SampleBytes.le_bytes sample) _ i n)
        by (try apply length_le_bytes; lia).
      rewrite Hframes. reflexivity.
    + split; [rewrite Hu'; exact Hdrop|]. split; [exact Hwf'|]. congruence.
Qed.

Lemma Forall_unread (P : Z -> Prop) rb :
  Playback.wf rb ->
  Forall P (Playback.samples rb) -> Forall P (Playback.unread rb).
Proof.
  intros (Hl & _) Hall. unfold Playback.unread. apply Forall_forall.
  intros x Hx. apply list_elem_of_fmap in Hx as (k & -> & _).
  rewrite list_lookup_total_alt.
  destruct (Playback.samples rb !! _) as [y|] eqn:E.
  - exact (Forall_lookup_1 _ _ _ _ Hall E).
  - apply lookup_ge_None in E.
    pose proof (ring_index_lt (Playback.samples rb)
                  (Playback.tail rb + Z.of_nat k) Hl).
    lia.
Qed.

(** X18.  The playback callback fills the output buffer frame by frame:
    the oldest unread samples of the ring, in order, and silence (zero
    samples) for the frames that are left when the ring runs out; when the
    playback is interrupted it writes silence only and takes nothing from
    the ring.  The bytes beyond the frames are not touched.  What it
    writes is what the capture side reads: [bytesToFloat32] of the frames
    returns the samples played.  It marks the playback as done exactly
    when it was interrupted or left the ring empty. *)
Theorem onSendFrames_plays interrupted st (out : list Z) (framecount : nat) :
  Playback.wf (Playback.ring st) ->
  Forall (fun v => 0 <= v < 2 ^ 32) (Playback.samples (Playback.ring st)) ->
  Z.of_nat framecount < 2 ^ 32 ->
  (4 * framecount <= length out)%nat ->
  let rb := Playback.ring st in
  let played := Playback.frames interrupted rb framecount in
  exists st',
    Playback.onSendFrames interrupted st out (Z.of_nat framecount)
    = Returns (st',
               flat_map SampleBytes.le_bytes played
               ++ drop (4 * framecount) out)
    /\ length played = framecount
    /\ (forall pBuf,
          SampleBytes.bytesToFloat32 pBuf
            (flat_map SampleBytes.le_bytes played)
          = Returns played)
    /\ Playback.unread (Playback.ring st')
       = drop (Playback.played interrupted rb framecount)
              (Playback.unread rb)
    /\ Playback.playing st'
       = (if interrupted
             || (length (Playback.unread rb) <=? framecount)%nat
          then false else Playback.playing st).
Proof.
  intros Hwf Hbits Hfc Hlen rb played.
  unfold Playback.onSendFrames.
  rewrite wrap_int_small by lia. rewrite Nat2Z.id.
  destruct (sendLoop_spec interrupted framecount rb out 0 Hwf ltac:(lia))
    as (rb' & Hrun & Hu & Hwf' & Hs).
  change (Z.of_nat 0) with 0 in Hrun. fold rb. rewrite Hrun.
  rewrite Nat.mul_0_r, take_0, app_nil_l, Nat.add_0_l. fold played.
  assert (Hk : (Playback.played interrupted rb framecount <= framecount)%nat).
  { unfold Playback.played. destruct interrupted; lia. }
  assert (Hlp : length played = framecount).
  { unfold played, Playback.frames.
    rewrite length_app, length_replicate, length_take.
    unfold Playback.played. destruct interrupted; lia. }
  assert (Hempty : Playback.isEmpty rb'
                   = (Playback.played interrupted rb framecount
                      =? length (Playback.unread rb))%nat
                     || (length (Playback.unread rb) <=? framecount)%nat
                        && negb interrupted).
  { pose proof (playback_occupancy_range rb') as Hrange.
    assert (Hlu : length (Playback.unread rb')
                  = Z.to_nat (Playback.occupancy rb')).
    { unfold Playback.unread. rewrite length_map, length_seq. reflexivity. }
    rewrite Hu, length_drop in Hlu.
    destruct (Z.eq_dec (Playback.occupancy rb') 0) as [Ho|Ho].
    - destruct (Playback_pop_empty rb' Hwf' Ho) as (_ & -> & _).
      symmetry. apply orb_true_intro. left. apply Nat.eqb_eq.
      unfold Playback.played in *. destruct interrupted; lia.
    - assert (Hne : Playback.isEmpty rb' = false).
      { unfold Playback.isEmpty. apply Z.eqb_neq. intros Heq.
        apply Ho. unfold Playback.occupancy.
        rewrite Heq, Z.sub_diag. reflexivity. }
      rewrite Hne. symmetry. apply orb_false_intro.
      + apply Nat.eqb_neq. lia.
      + unfold Playback.played in *. destruct interrupted.
        * apply andb_false_r.
        * cbn [negb]. rewrite andb_true_r. apply Nat.leb_gt. lia. }
  assert (Hflag : Playback.isEmpty rb' || interrupted
                  = interrupted
                    || (length (Playback.unread rb) <=? framecount)%nat).
  { rewrite Hempty. unfold Playback.played.
    destruct interrupted; cbn [negb orb andb].
    - rewrite andb_false_r, orb_false_r. apply orb_true_r.
    - rewrite andb_true_r, orb_false_r.
      destruct (Nat.leb_spec (length (Playback.unread rb)) framecount).
      + rewrite orb_true_r. reflexivity.
      + rewrite orb_false_r. apply Nat.eqb_neq. lia. }
  rewrite Hflag.
  assert (Hdec : forall pBuf,
            SampleBytes.bytesToFloat32 pBuf
              (flat_map SampleBytes.le_bytes played) = Returns played).
  { intros pBuf.
    rewrite (proj1 (bytesToFloat32_eq pBuf _)). f_equal.
    apply words_le_bytes. unfold played, Playback.frames.
    apply Forall_app. split.
    - apply Forall_take, Forall_unread; [exact Hwf | exact Hbits].
    - apply Forall_replicate. lia. }
  destruct (interrupted
            || (length (Playback.unread rb) <=? framecount)%nat);
    eexists; (split; [reflexivity|]); (split; [exact Hlp|]);
    (split; [exact Hdec|]); (split; [exact Hu | reflexivity]).
Qed.

Lemma onSendFrames_plays_witness :
  let rb := Playback.mkPlaybackRing (replicate (Z.to_nat 524288) 0) 2 0 in
  let st := Playback.mkShared rb true false in
  let out := replicate 16 255 in
  exists st',
    Playback.onSendFrames false st out (Z.of_nat 3)
    = Returns (st',
               flat_map SampleBytes.le_bytes (Playback.frames false rb 3)
               ++ drop (4 * 3) out)
    /\ length (Playback.frames false rb 3) = 3%nat
    /\ Playback.playing st' = false.
Proof.
  intros rb st out. subst rb st out.
  destruct (onSendFrames_plays false
              (Playback.mkShared
                 (Playback.mkPlaybackRing (replicate (Z.to_nat 524288) 0) 2 0)
                 true false)
              (replicate 16 255) 3) as (st' & H1 & H2 & _ & _ & H3).
  - cbn [Playback.ring]. playback_wf.
  - cbn [Playback.ring Playback.samples]. apply Forall_replicate. lia.
  - lia.
  - rewrite length_replicate. lia.
  - exists st'. split; [exact H1|]. split; [exact H2|]. exact H3.
Defined.

(** ** Package audio: the direction of a resampler *)

(** How a normal number compares to [1.0]. *)
Lemma float64_ltb_one m e :
  2 ^ 52 <= Zpos m < 2 ^ 53 ->
  (SFltb float64_one (S754_finite false m e) = true <-> scale < val m e).
Proof.
  intros Hm.
  pose proof val_one as Hone. unfold val in Hone.
  replace (-52 + 1100) with 1048 in Hone by reflexivity.
  assert (HX : 0 < 2 ^ 1048) by (apply Z.pow_pos_nonneg; lia).
  unfold val. rewrite <- Hone. clear Hone.
  change (Zpos 4503599627370496) with (2 ^ 52).
  remember (2 ^ 1048) as X eqn:HX'.
  unfold SFltb. cbn [SFcompare float64_one].
  destruct (Z.compare_spec (-52) e) as [He|Hlt|Hgt].
  - subst e. replace (-52 + 1100) with 1048 by reflexivity.
    rewrite <- HX'. clear HX'.
    pose proof (Pos.compare_spec 4503599627370496 m) as Hs.
    unfold Pos.compare in Hs.
    destruct Hs as [Hs|Hs|Hs].
    + split; [intros H; discriminate H|]. subst m. intros H. exfalso.
      apply Z.mul_lt_mono_pos_r in H; [|exact HX].
      change (Zpos 4503599627370496) with (2 ^ 52) in H. lia.
    + split; [|reflexivity]. intros _.
      apply Pos2Z.pos_lt_pos in Hs.
      change (Zpos 4503599627370496) with (2 ^ 52) in Hs.
      apply Z.mul_lt_mono_pos_r; [exact HX | exact Hs].
    + split; [intros H; discriminate H|]. intros H. exfalso.
      apply Pos2Z.pos_lt_pos in Hs.
      change (Zpos 4503599627370496) with (2 ^ 52) in Hs.
      apply Z.mul_lt_mono_pos_r in H; [|exact HX]. lia.
  - split; [|reflexivity]. intros _.
    replace (e + 1100) with ((e + 52) + 1048) by lia.
    rewrite Z.pow_add_r by lia. rewrite <- HX'. clear HX'.
    assert (Hp : 2 <= 2 ^ (e + 52)).
    { change 2 with (2 ^ 1) at 1. apply Z.pow_le_mono_r; lia. }
    set (p := 2 ^ (e + 52)) in *. clearbody p.
    rewrite Z.mul_assoc. apply Z.mul_lt_mono_pos_r; [exact HX|]. nia.
  - split; [intros H; discriminate H|]. intros H. exfalso.
    destruct (Z.lt_ge_cases (e + 1100) 0) as [Hneg|Hpos].
    + rewrite (Z.pow_neg_r 2 (e + 1100)) in H by lia. clear HX'. lia.
    + assert (HXe : X = 2 ^ (e + 1100) * 2 ^ (- 52 - e)).
      { rewrite HX'. rewrite <- Z.pow_add_r by lia. f_equal. lia. }
      clear HX'.
      assert (Hp : 2 <= 2 ^ (- 52 - e)).
      { change 2 with (2 ^ 1) at 1. apply Z.pow_le_mono_r; lia. }
      assert (HY : 0 < 2 ^ (e + 1100)) by (apply Z.pow_pos_nonneg; lia).
      rewrite HXe in H.
      set (Y := 2 ^ (e + 1100)) in *. set (q := 2 ^ (- 52 - e)) in *.
      clearbody Y q.
      replace (2 ^ 52 * (Y * q)) with ((2 ^ 52 * q) * Y) in H by ring.
      apply Z.mul_lt_mono_pos_r in H; [|exact HY]. nia.
Qed.

(** A number above [1.0] is at least the next one, [1 + 2 ^ -52]. *)
Lemma val_above_one m e :
  2 ^ 52 <= Zpos m < 2 ^ 53 -> scale < val m e ->
  (2 ^ 52 + 1) * scale <= 2 ^ 52 * val m e.
Proof.
  intros Hm H. unfold val, scale in *.
  destruct (Z.lt_trichotomy e (-52)) as [Hlt|[He|Hgt]].
  - exfalso.
    destruct (Z.lt_ge_cases (e + 1100) 0) as [Hneg|Hpos].
    + rewrite (Z.pow_neg_r 2 (e + 1100)) in H by lia.
      assert (HS : 0 < 2 ^ 1100) by (apply Z.pow_pos_nonneg; lia).
      set (S := 2 ^ 1100) in *. clearbody S. lia.
    + assert (HXe : 2 ^ 1100 = 2 ^ (e + 1100) * 2 ^ (- e)).
      { rewrite <- Z.pow_add_r by lia. f_equal. lia. }
      assert (Hp : 2 ^ 53 <= 2 ^ (- e)) by (apply Z.pow_le_mono_r; lia).
      assert (HY : 0 < 2 ^ (e + 1100)) by (apply Z.pow_pos_nonneg; lia).
      rewrite HXe in H. clear HXe.
      set (Y := 2 ^ (e + 1100)) in *. set (q := 2 ^ (- e)) in *.
      clearbody Y q.
      rewrite (Z.mul_comm Y q) in H.
      apply Z.mul_lt_mono_pos_r in H; [|exact HY]. lia.
  - subst e. replace (-52 + 1100) with 1048 in * by reflexivity.
    assert (HS : 2 ^ 1100 = 2 ^ 52 * 2 ^ 1048).
    { rewrite <- Z.pow_add_r by lia. f_equal. }
    rewrite HS in *. clear HS.
    assert (HX : 0 < 2 ^ 1048) by (apply Z.pow_pos_nonneg; lia).
    set (X := 2 ^ 1048) in *. clearbody X.
    apply Z.mul_lt_mono_pos_r in H; [|exact HX].
    rewrite !Z.mul_assoc. apply Z.mul_le_mono_nonneg_r; lia.
  - assert (HS : 2 ^ 1100 = 2 ^ 52 * 2 ^ 1048).
    { rewrite <- Z.pow_add_r by lia. f_equal. }
    assert (HE : 2 ^ (e + 1100) = 2 ^ (e + 52) * 2 ^ 1048).
    { rewrite <- Z.pow_add_r by lia. f_equal. lia. }
    rewrite HS, HE in *. clear HS HE.
    assert (HX : 0 < 2 ^ 1048) by (apply Z.pow_pos_nonneg; lia).
    assert (Hp : 2 <= 2 ^ (e + 52)).
    { change 2 with (2 ^ 1) at 1. apply Z.pow_le_mono_r; lia. }
    set (X := 2 ^ 1048) in *. set (p := 2 ^ (e + 52)) in *. clearbody X p.
    clear H. rewrite !Z.mul_assoc. apply Z.mul_le_mono_nonneg_r; [lia|].
    assert (Hmp : 2 ^ 52 * 2 <= Zpos m * p)
      by (apply Z.mul_le_mono_nonneg; lia).
    lia.
Qed.

(** The ratio of two rates is above [1.0] exactly when the target rate is
    the larger one. *)
Lemma ratio_direction fromRate toRate :
  0 < fromRate < 2 ^ 53 -> 0 < toRate < 2 ^ 53 ->
  (SFltb float64_one
         (float64_div (float64_of_int toRate) (float64_of_int fromRate))
   = true <-> fromRate < toRate).
Proof.
  intros Hfrom Hto.
  destruct (ratio_spec fromRate toRate Hfrom Hto)
    as (m & e & -> & Hm & He & Hr).
  rewrite (float64_ltb_one m e Hm).
  pose proof (val_above_one m e Hm) as Hgap.
  pose proof scale_pos as HB.
  set (B := scale) in *. set (R := val m e) in *. clearbody B R.
  assert (HBf : 0 < fromRate * B) by (apply Z.mul_pos_pos; lia).
  split.
  - intros HRB. specialize (Hgap HRB).
    destruct (Z.lt_ge_cases fromRate toRate) as [Hlt|Hge]; [exact Hlt|].
    exfalso.
    assert (H1 : toRate * B <= fromRate * B)
      by (apply Z.mul_le_mono_nonneg_r; lia).
    assert (H2 : (2 ^ 52 + 1) * B * fromRate <= 2 ^ 52 * R * fromRate)
      by (apply Z.mul_le_mono_nonneg_r; lia).
    lia.
  - intros Hlt.
    destruct (Z.lt_ge_cases B R) as [H|H]; [exact H|]. exfalso.
    assert (H1 : R * fromRate <= B * fromRate)
      by (apply Z.mul_le_mono_nonneg_r; lia).
    assert (H2 : ((2 ^ 53 - 1) * toRate) * B <= (2 ^ 53 * fromRate) * B)
      by lia.
    apply Z.mul_le_mono_pos_r in H2; [|exact HB]. lia.
Qed.

Lemma assign_ext body1 body2 n : forall i output,
  (forall j, body1 j = body2 j) ->
  Polyphase.assign body1 n i output = Polyphase.assign body2 n i output.
Proof.
  induction n as [|n IH]; intros i output H; cbn [Polyphase.assign].
  - reflexivity.
  - rewrite H. destruct (body2 i); cbn [Polyphase.bind]; auto.
Qed.

Lemma last_index (input : list Z) x :
  Polyphase.index input (Z.of_nat (length input) - 1) = Polyphase.Done x ->
  last input = Some x.
Proof.
  unfold Polyphase.index.
  destruct (Z.ltb_spec (Z.of_nat (length input) - 1) 0) as [H|H];
    [intros E; discriminate E|].
  rewrite last_lookup.
  replace (Z.to_nat (Z.of_nat (length input) - 1))
    with (pred (length input)) by lia.
  destruct (input !! pred (length input)); intros E;
    [injection E as ->; reflexivity | discriminate E].
Qed.

(** The history is a sliding window: what the two [copy] calls of
    [downsample] leave. *)
Lemma history_window (h input : list Z) :
  length h = 64%nat ->
  (if 64 <=? Z.of_nat (length input)
   then (Capture.copy h (drop (Z.to_nat (Z.of_nat (length input) - 64))
                              input)).1
   else
     let shift := 64 - Z.of_nat (length input) in
     let shifted :=
       (Capture.copy h (drop (Z.to_nat (Z.of_nat (length input))) h)).1 in
     take (Z.to_nat shift) shifted
     ++ (Capture.copy (drop (Z.to_nat shift) shifted) input).1)
  = drop (length input) (h ++ input).
Proof.
  intros Hh. unfold Capture.copy. cbn [fst]. cbv zeta.
  destruct (Z.leb_spec 64 (Z.of_nat (length input))) as [Hge|Hlt].
  - rewrite length_drop, Hh.
    replace (64 `min` (length input
                       - Z.to_nat (Z.of_nat (length input) - 64)))%nat
      with 64%nat by lia.
    rewrite (drop_ge h 64) by lia. rewrite app_nil_r.
    rewrite take_ge by (rewrite length_drop; lia).
    rewrite drop_app_ge by lia. f_equal. lia.
  - rewrite Nat2Z.id.
    set (N := length input) in *.
    rewrite length_drop, Hh.
    replace (64 `min` (64 - N))%nat with (64 - N)%nat by lia.
    replace (Z.to_nat (64 - Z.of_nat N)) with (64 - N)%nat by lia.
    rewrite (take_ge (drop N h)) by (rewrite length_drop; lia).
    rewrite take_app_length' by (rewrite length_drop; lia).
    rewrite drop_app_length' by (rewrite length_drop; lia).
    rewrite length_drop, Hh.
    replace ((64 - (64 - N)) `min` N)%nat with N by lia.
    rewrite take_ge by (fold N; lia).
    rewrite (drop_ge (drop (64 - N) h)) by (rewrite length_drop; lia).
    rewrite app_nil_r.
    rewrite drop_app_le by lia. reflexivity.
Qed.

Section LinearFacts.

Variables f32_add f32_sub f32_mul f32_div : Z -> Z -> Z.
Variable float32_of_float64 : spec_float -> Z.
Variable windowedSinc : spec_float -> spec_float -> Z -> spec_float.

Local Abbreviation NewPolyphaseResampler :=
  (Polyphase.NewPolyphaseResampler f32_add f32_div float32_of_float64
                                   windowedSinc).
Local Abbreviation state_of :=
  (Polyphase.state_of f32_add f32_div float32_of_float64 windowedSinc).
Local Abbreviation upsample :=
  (Polyphase.upsample f32_add f32_sub f32_mul float32_of_float64).
Local Abbreviation downsample := (Polyphase.downsample f32_add f32_mul).
Local Abbreviation Resample :=
  (Polyphase.Resample f32_add f32_sub f32_mul float32_of_float64).
Local Abbreviation LinearResample :=
  (Linear.Resample f32_add f32_sub f32_mul float32_of_float64).
Local Abbreviation ResampleInPlace :=
  (Linear.ResampleInPlace f32_add f32_sub f32_mul float32_of_float64).
Local Abbreviation ResamplePolyphase :=
  (Resampling.ResamplePolyphase f32_add f32_sub f32_mul f32_div
                                float32_of_float64 windowedSinc).

(** How the outcomes of the two resamplers compare. *)
Local Abbreviation same_outcome x y :=
  (match x, y with
   | Polyphase.Done (output, r'), Polyphase.Done (output', lr') =>
       output = output'
       /\ Linear.ratio lr' = Polyphase.ratio r'
       /\ Linear.lastSample lr' = Polyphase.lastSample r'
   | Polyphase.Panic, Polyphase.Panic => True
   | Polyphase.Unspecified, Polyphase.Unspecified => True
   | _, _ => False
   end).

Lemma Linear_interpolate_eq lr r (input : list Z) i :
  Linear.ratio lr = Polyphase.ratio r ->
  Linear.lastSample lr = Polyphase.lastSample r ->
  Linear.interpolate f32_add f32_sub f32_mul float32_of_float64 lr input i
  = Polyphase.interpolate f32_add f32_sub f32_mul float32_of_float64
                          r input i.
Proof.
  intros H1 H2. unfold Linear.interpolate, Polyphase.interpolate.
  rewrite H1, H2. reflexivity.
Qed.

(** The linear resampler past its two early returns is [upsample]. *)
Lemma Linear_Resample_upsample lr r (input : list Z) :
  Linear.ratio lr = Polyphase.ratio r ->
  Linear.lastSample lr = Polyphase.lastSample r ->
  SFeqb (Polyphase.ratio r) float64_one = false ->
  input <> [] ->
  same_outcome (upsample r input) (LinearResample lr input).
Proof.
  intros H1 H2 Hone HN.
  assert (HN' : Z.of_nat (length input) <> 0) by (destruct input; [congruence | cbn; lia]).
  unfold Linear.Resample, Polyphase.upsample. cbv zeta.
  rewrite H1, Hone. rewrite (proj2 (Z.eqb_neq _ _) HN').
  destruct (Polyphase.to_int _) as [L| |]; cbn [Polyphase.bind];
    [|exact I..].
  destruct (Polyphase.makeslice L) as [o| |]; cbn [Polyphase.bind];
    [|exact I..].
  rewrite (assign_ext
             (Linear.interpolate f32_add f32_sub f32_mul float32_of_float64
                                 lr input)
             (Polyphase.interpolate f32_add f32_sub f32_mul
                                    float32_of_float64 r input))
    by (intros j; apply Linear_interpolate_eq; assumption).
  destruct (Polyphase.assign _ _ _ _) as [o'| |]; cbn [Polyphase.bind];
    [|exact I..].
  destruct (0 <? Z.of_nat (length input)).
  - destruct (Polyphase.index _ _) as [x| |]; cbn [Polyphase.bind];
      [|exact I..].
    split; [reflexivity|]. split; [exact H1 | reflexivity].
  - split; [reflexivity|]. split; [exact H1 | exact H2].
Qed.

(** What [upsample] and [downsample] leave in the resampler. *)
Lemma upsample_inv r (input : list Z) output r' :
  upsample r input = Polyphase.Done (output, r') ->
  input <> [] ->
  r' = Polyphase.with_lastSample r (Polyphase.lastSample r')
  /\ last input = Some (Polyphase.lastSample r').
Proof.
  intros H HN.
  assert (HN' : 0 < Z.of_nat (length input)) by (destruct input; [congruence | cbn; lia]).
  revert H. unfold Polyphase.upsample. cbv zeta.
  destruct (Polyphase.to_int _) as [L| |]; cbn [Polyphase.bind];
    [|intros E; discriminate E..].
  destruct (Polyphase.makeslice L) as [o| |]; cbn [Polyphase.bind];
    [|intros E; discriminate E..].
  destruct (Polyphase.assign _ _ _ _) as [o'| |]; cbn [Polyphase.bind];
    [|intros E; discriminate E..].
  rewrite (proj2 (Z.ltb_lt _ _) HN').
  destruct (Polyphase.index _ _) as [x| |] eqn:Hx; cbn [Polyphase.bind];
    [|intros E; discriminate E..].
  intros E. injection E as <- <-.
  split; [reflexivity|]. apply last_index. exact Hx.
Qed.

Lemma downsample_inv r (input : list Z) output r' :
  Polyphase.filterLen r = 64 ->
  length (Polyphase.history r) = 64%nat ->
  downsample r input = Polyphase.Done (output, r') ->
  r' = Polyphase.with_history r
         (drop (length input) (Polyphase.history r ++ input)).
Proof.
  intros HfL Hh. unfold Polyphase.downsample. cbv zeta.
  destruct (Polyphase.to_int _) as [L| |]; cbn [Polyphase.bind];
    [|intros E; discriminate E..].
  destruct (Polyphase.makeslice L) as [o| |]; cbn [Polyphase.bind];
    [|intros E; discriminate E..].
  destruct (Polyphase.assign _ _ _ _) as [o'| |]; cbn [Polyphase.bind];
    [|intros E; discriminate E..].
  rewrite HfL.
  pose proof (history_window (Polyphase.history r) input Hh) as Hw.
  cbv zeta in Hw. revert Hw.
  destruct (Z.leb_spec 64 (Z.of_nat (length input))) as [Hge|Hlt];
    intros Hw.
  - rewrite reslice_Done by lia. cbn [Polyphase.bind].
    intros E. injection E as <- <-. rewrite <- Hw. reflexivity.
  - rewrite reslice_Done by lia. cbn [Polyphase.bind].
    rewrite reslice_Done by (rewrite length_copy; lia).
    cbn [Polyphase.bind].
    intros E. injection E as <- <-. rewrite <- Hw. reflexivity.
Qed.

(** X19.  For rates [fromRate <= toRate] (both below [2 ^ 53]) the
    polyphase resampler is the linear one: a [PolyphaseResampler] and a
    [Resampler] with the ratio of these rates and the same last sample end
    [Resample] the same way on every input (both return, both panic, or
    both leave the language's defined behaviour); when they return, the
    outputs are equal and the two resamplers again have the same ratio and
    the same last sample, so that they stay in step over a stream of
    chunks.  The filter and the history are not used. *)
Theorem Resample_upsampling_is_linear fromRate toRate r lr (input : list Z) :
  0 < fromRate < 2 ^ 53 -> 0 < toRate < 2 ^ 53 ->
  fromRate <= toRate ->
  Polyphase.ratio r
  = float64_div (float64_of_int toRate) (float64_of_int fromRate) ->
  Linear.ratio lr = Linear.ratio (Linear.NewResampler fromRate toRate) ->
  Linear.lastSample lr = Polyphase.lastSample r ->
  match Resample r input, LinearResample lr input with
  | Polyphase.Done (output, r'), Polyphase.Done (output', lr') =>
      output = output'
      /\ Linear.ratio lr' = Polyphase.ratio r'
      /\ Linear.lastSample lr' = Polyphase.lastSample r'
      /\ Polyphase.ratio r' = Polyphase.ratio r
      /\ Polyphase.history r' = Polyphase.history r
      /\ Polyphase.filter r' = Polyphase.filter r
  | Polyphase.Panic, Polyphase.Panic => True
  | Polyphase.Unspecified, Polyphase.Unspecified => True
  | _, _ => False
  end.
Proof.
  intros Hfrom Hto Hle Hr Hlr Hlast.
  assert (H1 : Linear.ratio lr = Polyphase.ratio r).
  { rewrite Hlr, Hr. reflexivity. }
  destruct (SFeqb (Polyphase.ratio r) float64_one) eqn:Hone.
  - unfold Polyphase.Resample, Linear.Resample. rewrite H1, Hone.
    repeat split; assumption.
  - destruct input as [|x input].
    + unfold Polyphase.Resample, Linear.Resample. rewrite H1, Hone.
      cbn [length Z.of_nat Z.eqb]. repeat split; assumption.
    + assert (Hlt : fromRate < toRate).
      { destruct (Z.eq_dec fromRate toRate) as [E|E]; [|lia].
        subst toRate. rewrite Hr, float64_div_self in Hone by assumption.
        discriminate Hone. }
      apply ratio_direction in Hlt; [|assumption..]. rewrite <- Hr in Hlt.
      pose proof (Linear_Resample_upsample lr r (x :: input) H1 Hlast Hone
                    ltac:(discriminate)) as Hs.
      assert (HR : Resample r (x :: input) = upsample r (x :: input)).
      { unfold Polyphase.Resample. rewrite Hone, Hlt. reflexivity. }
      rewrite HR.
      destruct (upsample r (x :: input)) as [[o r']| |] eqn:Hup;
        destruct (LinearResample lr (x :: input)) as [[o' lr']| |];
        try exact Hs.
      destruct Hs as (Ho & Hs1 & Hs2).
      apply upsample_inv in Hup as [Hr' _]; [|discriminate].
      split; [exact Ho|]. split; [exact Hs1|]. split; [exact Hs2|].
      rewrite Hr'. repeat split.
Qed.

(** X20.  [ResamplePolyphase] is one call of [Resample] on a new
    polyphase resampler, for all rates below [2 ^ 53] and every input:
    the comparison of the rates picks the path that the comparison of the
    ratio with [1.0] picks inside [Resample], and the linear resampler it
    calls for upsampling computes what [upsample] computes. *)
Theorem ResamplePolyphase_one_shot fromRate toRate (input : list Z) :
  0 < fromRate < 2 ^ 53 -> 0 < toRate < 2 ^ 53 ->
  ResamplePolyphase input fromRate toRate
  = Polyphase.bind (Resample (NewPolyphaseResampler fromRate toRate) input)
                   (fun p => Polyphase.Done p.1).
Proof.
  intros Hfrom Hto. unfold Resampling.ResamplePolyphase.
  destruct (Z.eqb_spec fromRate toRate) as [E|E].
  - subst toRate. unfold Polyphase.Resample.
    cbn [Polyphase.ratio Polyphase.NewPolyphaseResampler].
    rewrite float64_div_self by assumption. reflexivity.
  - destruct (Z.ltb_spec toRate fromRate) as [Hlt|Hge]; [reflexivity|].
    unfold Linear.ResampleInPlace.
    rewrite (proj2 (Z.eqb_neq _ _) E).
    set (r := NewPolyphaseResampler fromRate toRate).
    set (lr := Linear.NewResampler fromRate toRate).
    assert (Hup : fromRate < toRate) by lia.
    apply ratio_direction in Hup; [|assumption..].
    assert (Hone : SFeqb (Polyphase.ratio r) float64_one = false).
    { destruct (SFeqb (Polyphase.ratio r) float64_one) eqn:Hone;
        [|reflexivity].
      apply ratio_one_rates in Hone; [|assumption..]. lia. }
    destruct input as [|x input].
    + unfold Polyphase.Resample, Linear.Resample.
      change (Linear.ratio lr) with (Polyphase.ratio r).
      rewrite Hone. reflexivity.
    + pose proof (Linear_Resample_upsample lr r (x :: input)
                    eq_refl eq_refl Hone ltac:(discriminate)) as Hs.
      assert (HR : Resample r (x :: input) = upsample r (x :: input)).
      { unfold Polyphase.Resample. rewrite Hone.
        change (Polyphase.ratio r)
          with (float64_div (float64_of_int toRate)
                            (float64_of_int fromRate)).
        rewrite Hup. reflexivity. }
      rewrite HR.
      destruct (upsample r (x :: input)) as [[o r']| |];
        destruct (LinearResample lr (x :: input)) as [[o' lr']| |];
        try contradiction; try reflexivity.
      destruct Hs as (-> & _). reflexivity.
Qed.

(** X21.  [ResampleInPlace], for rates below [2 ^ 53] and an input of [N]
    samples such that the input and an output of
    [N * toRate / fromRate + 1] samples stay within the allocation limit:
    it returns without panic, whichever rate is the larger one, and the
    length of the output is the floor of [N * toRate / fromRate], give or
    take one.  With equal rates or an empty input the output is the input
    itself. *)
Theorem ResampleInPlace_length fromRate toRate (input : list Z) :
  0 < fromRate < 2 ^ 53 -> 0 < toRate < 2 ^ 53 ->
  4 * Z.of_nat (length input) <= Polyphase.maxAlloc ->
  4 * (Z.of_nat (length input) * toRate / fromRate + 1)
  <= Polyphase.maxAlloc ->
  exists output,
    ResampleInPlace input fromRate toRate = Polyphase.Done output
    /\ Z.of_nat (length input) * toRate / fromRate - 1
       <= Z.of_nat (length output)
       <= Z.of_nat (length input) * toRate / fromRate + 1
    /\ (fromRate = toRate \/ input = [] -> output = input).
Proof.
  intros Hfrom Hto HN HF. unfold Linear.ResampleInPlace.
  destruct (Z.eqb_spec fromRate toRate) as [E|E].
  - exists input. split; [reflexivity|]. subst toRate.
    rewrite Z.div_mul by lia. split; [lia|]. intros _. reflexivity.
  - set (r := NewPolyphaseResampler fromRate toRate).
    set (lr := Linear.NewResampler fromRate toRate).
    assert (Hone : SFeqb (Polyphase.ratio r) float64_one = false).
    { destruct (SFeqb (Polyphase.ratio r) float64_one) eqn:Hone;
        [|reflexivity].
      apply ratio_one_rates in Hone; [|assumption..]. lia. }
    destruct input as [|x input].
    + exists []. unfold Linear.Resample.
      change (Linear.ratio lr) with (Polyphase.ratio r).
      rewrite Hone. split; [reflexivity|].
      cbn [length Z.of_nat]. rewrite Z.mul_0_l, Z.div_0_l by lia.
      split; [lia|]. intros _. reflexivity.
    + pose proof (Linear_Resample_upsample lr r (x :: input)
                    eq_refl eq_refl Hone ltac:(discriminate)) as Hs.
      destruct (upsample_Done f32_add f32_sub f32_mul f32_div
                  float32_of_float64 windowedSinc fromRate toRate r
                  (x :: input))
        as (out & r' & Hup & _ & Hlen); try assumption.
      { cbn [length]. lia. }
      { apply state_of_New. }
      rewrite Hup in Hs.
      destruct (LinearResample lr (x :: input)) as [[o' lr']| |];
        try contradiction.
      destruct Hs as (<- & _). cbn [Polyphase.bind fst].
      exists out. split; [reflexivity|]. split; [exact Hlen|].
      intros [H|H]; [contradiction | discriminate H].
Qed.

(** X22.  Downsampling keeps a sliding window: for [toRate < fromRate]
    (both below [2 ^ 53]), a resampler built for these rates, in any
    state, and an input within the allocation limit, [Resample] returns
    and leaves as history the last 64 samples of the old history followed
    by the input, whether the input is longer or shorter than the filter;
    nothing else in the resampler changes.  With [fromRate < toRate] the
    history is untouched and the last sample of a non-empty input is
    recorded instead. *)
Theorem Resample_history_window fromRate toRate r (input : list Z) :
  0 < fromRate < 2 ^ 53 -> 0 < toRate < 2 ^ 53 ->
  fromRate <> toRate ->
  4 * Z.of_nat (length input) <= Polyphase.maxAlloc ->
  4 * (Z.of_nat (length input) * toRate / fromRate + 1)
  <= Polyphase.maxAlloc ->
  state_of fromRate toRate r ->
  exists output r',
    Resample r input = Polyphase.Done (output, r')
    /\ (toRate < fromRate ->
        r' = Polyphase.with_history r
               (drop (length input) (Polyphase.history r ++ input))
        /\ length (Polyphase.history r') = 64%nat)
    /\ (fromRate < toRate ->
        r' = Polyphase.with_lastSample r
               (default (Polyphase.lastSample r) (last input))).
Proof.
  intros Hfrom Hto Hne HN HF Hst.
  destruct (state_of_facts f32_add f32_div float32_of_float64 windowedSinc
              _ _ _ Hst) as (Hratio & HfL & Hfilter & Hhist).
  assert (Hone : SFeqb (Polyphase.ratio r) float64_one = false).
  { destruct (SFeqb (Polyphase.ratio r) float64_one) eqn:Hone;
      [|reflexivity].
    rewrite Hratio in Hone.
    apply ratio_one_rates in Hone; [|assumption..]. lia. }
  pose proof (ratio_direction fromRate toRate Hfrom Hto) as Hdir.
  rewrite <- Hratio in Hdir.
  unfold Polyphase.Resample. rewrite Hone.
  destruct input as [|x input].
  - exists [], r. split; [reflexivity|]. split.
    + intros _. rewrite app_nil_r, drop_0. split; [|exact Hhist].
      destruct r; reflexivity.
    + intros _. destruct r; reflexivity.
  - cbn [length]. rewrite (proj2 (Z.eqb_neq (Z.of_nat (S (length input))) 0))
      by lia.
    destruct (Z.lt_ge_cases fromRate toRate) as [Hup'|Hdn'].
    + rewrite (proj2 Hdir Hup').
      destruct (upsample_Done f32_add f32_sub f32_mul f32_div
                  float32_of_float64 windowedSinc fromRate toRate r
                  (x :: input))
        as (out & r' & Hup & _ & _); try assumption.
      { cbn [length]. lia. }
      exists out, r'. split; [exact Hup|]. split; [lia|]. intros _.
      apply upsample_inv in Hup as [Hr' Hl]; [|discriminate].
      rewrite Hl. exact Hr'.
    + assert (Hlt : SFltb float64_one (Polyphase.ratio r) = false).
      { destruct (SFltb float64_one (Polyphase.ratio r)); [|reflexivity].
        exfalso. assert (fromRate < toRate) by (apply Hdir; reflexivity).
        lia. }
      rewrite Hlt.
      destruct (downsample_Done f32_add f32_mul f32_div
                  float32_of_float64 windowedSinc fromRate toRate r
                  (x :: input))
        as (out & r' & Hdn & Hst' & _); try assumption.
      { cbn [length]. lia. }
      exists out, r'. split; [exact Hdn|]. split; [|lia]. intros _.
      split.
      * apply (downsample_inv r (x :: input) out r' HfL Hhist Hdn).
      * apply (state_of_facts f32_add f32_div float32_of_float64
                 windowedSinc _ _ _ Hst').
Qed.

End LinearFacts.

Lemma Resample_upsampling_is_linear_witness :
  match Polyphase.Resample Z.add Z.sub Z.mul (fun _ => 0)
          (Polyphase.NewPolyphaseResampler Z.add Z.quot (fun _ => 0)
             (fun _ _ _ => float64_zero) 16000 48000)
          [0; 0],
        Linear.Resample Z.add Z.sub Z.mul (fun _ => 0)
          (Linear.NewResampler 16000 48000) [0; 0] with
  | Polyphase.Done (output, r'), Polyphase.Done (output', lr') =>
      output = output'
      /\ Linear.ratio lr' = Polyphase.ratio r'
      /\ Linear.lastSample lr' = Polyphase.lastSample r'
      /\ Polyphase.ratio r'
         = Polyphase.ratio
             (Polyphase.NewPolyphaseResampler Z.add Z.quot (fun _ => 0)
                (fun _ _ _ => float64_zero) 16000 48000)
      /\ Polyphase.history r'
         = Polyphase.history
             (Polyphase.NewPolyphaseResampler Z.add Z.quot (fun _ => 0)
                (fun _ _ _ => float64_zero) 16000 48000)
      /\ Polyphase.filter r'
         = Polyphase.filter
             (Polyphase.NewPolyphaseResampler Z.add Z.quot (fun _ => 0)
                (fun _ _ _ => float64_zero) 16000 48000)
  | Polyphase.Panic, Polyphase.Panic => True
  | Polyphase.Unspecified, Polyphase.Unspecified => True
  | _, _ => False
  end.
Proof.
  apply (Resample_upsampling_is_linear Z.add Z.sub Z.mul (fun _ => 0)
           16000 48000).
  - lia.
  - lia.
  - lia.
  - reflexivity.
  - reflexivity.
  - reflexivity.
Defined.

Lemma ResamplePolyphase_one_shot_witness :
  Resampling.ResamplePolyphase Z.add Z.sub Z.mul Z.quot (fun _ => 0)
    (fun _ _ _ => float64_zero) [0; 0] 16000 48000
  = Polyphase.bind
      (Polyphase.Resample Z.add Z.sub Z.mul (fun _ => 0)
         (Polyphase.NewPolyphaseResampler Z.add Z.quot (fun _ => 0)
            (fun _ _ _ => float64_zero) 16000 48000)
         [0; 0])
      (fun p => Polyphase.Done p.1).
Proof.
  apply (ResamplePolyphase_one_shot Z.add Z.sub Z.mul Z.quot (fun _ => 0)
           (fun _ _ _ => float64_zero) 16000 48000); lia.
Defined.

Lemma ResampleInPlace_length_witness :
  exists output,
    Linear.ResampleInPlace Z.add Z.sub Z.mul (fun _ => 0)
      [0; 0; 0; 0; 0; 0] 48000 16000
    = Polyphase.Done output
    /\ Z.of_nat (length [0; 0; 0; 0; 0; 0]) * 16000 / 48000 - 1
       <= Z.of_nat (length output)
       <= Z.of_nat (length [0; 0; 0; 0; 0; 0]) * 16000 / 48000 + 1
    /\ (48000 = 16000 \/ [0; 0; 0; 0; 0; 0] = [] ->
        output = [0; 0; 0; 0; 0; 0]).
Proof.
  apply (ResampleInPlace_length Z.add Z.sub Z.mul Z.quot (fun _ => 0)
           (fun _ _ _ => float64_zero) 48000 16000).
  - lia.
  - lia.
  - vm_compute. discriminate.
  - vm_compute. discriminate.
Defined.

Lemma Resample_history_window_witness :
  exists output r',
    Polyphase.Resample Z.add Z.sub Z.mul (fun _ => 0)
      (Polyphase.NewPolyphaseResampler Z.add Z.quot (fun _ => 0)
         (fun _ _ _ => float64_zero) 48000 16000)
      [1; 2; 3; 4; 5; 6]
    = Polyphase.Done (output, r')
    /\ (16000 < 48000 ->
        r' = Polyphase.with_history
               (Polyphase.NewPolyphaseResampler Z.add Z.quot (fun _ => 0)
                  (fun _ _ _ => float64_zero) 48000 16000)
               (drop (length [1; 2; 3; 4; 5; 6])
                     (Polyphase.history
                        (Polyphase.NewPolyphaseResampler Z.add Z.quot
                           (fun _ => 0) (fun _ _ _ => float64_zero)
                           48000 16000)
                      ++ [1; 2; 3; 4; 5; 6]))
        /\ length (Polyphase.history r') = 64%nat)
    /\ (48000 < 16000 ->
        r' = Polyphase.with_lastSample
               (Polyphase.NewPolyphaseResampler Z.add Z.quot (fun _ => 0)
                  (fun _ _ _ => float64_zero) 48000 16000)
               (default
                  (Polyphase.lastSample
                     (Polyphase.NewPolyphaseResampler Z.add Z.quot
                        (fun _ => 0) (fun _ _ _ => float64_zero)
                        48000 16000))
                  (last [1; 2; 3; 4; 5; 6]))).
Proof.
  apply (Resample_history_window Z.add Z.sub Z.mul Z.quot (fun _ => 0)
           (fun _ _ _ => float64_zero) 48000 16000).
  - lia.
  - lia.
  - lia.
  - vm_compute. discriminate.
  - vm_compute. discriminate.
  - repeat split.
Defined.

(** ** Package main: the TTS loop *)

Section TtsLoopFacts.

Variable Generate : gostring -> Z -> Z -> option Synthesis.GeneratedAudio.
Variable interrupt : nat -> bool.
Variable playError : list Z -> Z -> option gostring.

Local Abbreviation sentenceLoop :=
  (TtsLoop.sentenceLoop Generate interrupt playError).
Local Abbreviation ttsProcessor_iteration :=
  (TtsLoop.ttsProcessor_iteration Generate interrupt playError).
Local Abbreviation chunks := (TtsLoop.chunks Generate).
Local Abbreviation plays := (TtsLoop.plays playError).

Lemma Synthesize_nil s : exists e, Synthesis.Synthesize Generate s [] = Err e.
Proof. eexists. reflexivity. Qed.

(** The loop over the sentences plays a prefix of the chunks, all of them
    unless it was cut, and it is cut by a set flag or a playback error
    only. *)
Lemma sentenceLoop_spec s cfg sentences : forall loads trace,
  exists played,
    (sentenceLoop s cfg sentences loads trace).2
    = trace ++ (TtsLoop.playing <$> played)
    /\ played `prefix_of` chunks s sentences
    /\ ((sentenceLoop s cfg sentences loads trace).1.1 = false ->
        played = chunks s sentences)
    /\ ((sentenceLoop s cfg sentences loads trace).1.1 = true ->
        (TtsLoop.InterruptMode cfg = InterruptMode.InterruptAlways
         /\ exists k, (loads <= k)%nat /\ interrupt k = true)
        \/ exists chunk, chunk ∈ chunks s sentences /\ ~ plays chunk)
    /\ (TtsLoop.InterruptMode cfg <> InterruptMode.InterruptAlways ->
        (sentenceLoop s cfg sentences loads trace).1.2 = loads).
Proof.
  induction sentences as [|sentence sentences IH]; intros loads trace.
  - exists []. cbn. rewrite app_nil_r.
    split; [reflexivity|]. split; [reflexivity|].
    split; [reflexivity|]. split; [intros H; discriminate H|].
    reflexivity.
  - destruct sentence as [|c sentence].
    { destruct (IH loads trace) as (played & H). exists played. exact H. }
    assert (Hloaded : (loads <= TtsLoop.loaded cfg loads)%nat).
    { unfold TtsLoop.loaded. destruct (_ =? _); lia. }
    assert (Hmode : forall l,
      TtsLoop.InterruptMode cfg <> InterruptMode.InterruptAlways ->
      TtsLoop.loaded cfg l = l).
    { intros l Hm. unfold TtsLoop.loaded.
      destruct (Z.eqb_spec (TtsLoop.InterruptMode cfg)
                           InterruptMode.InterruptAlways);
        [contradiction | reflexivity]. }
    assert (Hint : forall l,
      TtsLoop.interrupted interrupt cfg l = true ->
      TtsLoop.InterruptMode cfg = InterruptMode.InterruptAlways
      /\ interrupt l = true).
    { intros l Hl. unfold TtsLoop.interrupted in Hl.
      apply andb_true_iff in Hl as [Hl1 Hl2].
      apply Z.eqb_eq in Hl1. split; assumption. }
    cbn [TtsLoop.sentenceLoop]. cbv zeta. set (sent := c :: sentence).
    destruct (TtsLoop.interrupted interrupt cfg loads) eqn:Hi1.
    { exists []. cbn [fst snd fmap list_fmap]. rewrite app_nil_r.
      split; [reflexivity|]. split; [apply prefix_nil|].
      split; [intros H; discriminate H|].
      split; [|intros Hm; apply Hmode, Hm].
      intros _. left. destruct (Hint _ Hi1) as [Hm Hk].
      split; [exact Hm|]. exists loads. split; [lia | exact Hk]. }
    unfold TtsLoop.chunks. cbn [omap list_omap]. fold (chunks s sentences).
    destruct (Synthesis.Synthesize Generate s sent) as [chunk|e] eqn:Hsyn.
    2:{ cbv beta iota.
        destruct (IH (TtsLoop.loaded cfg loads) trace)
          as (played & H1 & H2 & H3 & H4 & H5).
        exists played. split; [exact H1|]. split; [exact H2|].
        split; [exact H3|]. split.
        - intros Hw. destruct (H4 Hw) as [(Hm & k & Hk & Hk')|H4'].
          + left. split; [exact Hm|]. exists k. split; [lia | exact Hk'].
          + right. exact H4'.
        - intros Hm. rewrite (H5 Hm). apply Hmode, Hm. }
    destruct (playError (Synthesis.Samples chunk)
                        (Synthesis.SampleRate chunk)) as [err|] eqn:Hplay.
    { exists [chunk]. cbn [fst snd fmap list_fmap].
      split; [reflexivity|].
      split; [apply prefix_cons, prefix_nil|].
      split; [intros H; discriminate H|].
      split; [|intros Hm; apply Hmode, Hm].
      intros _. right. exists chunk. split; [left|].
      unfold TtsLoop.plays. rewrite Hplay. discriminate. }
    destruct (TtsLoop.interrupted interrupt cfg (TtsLoop.loaded cfg loads))
      eqn:Hi2.
    { exists [chunk]. cbn [fst snd fmap list_fmap].
      split; [reflexivity|].
      split; [apply prefix_cons, prefix_nil|].
      split; [intros H; discriminate H|].
      split; [|intros Hm; rewrite !(Hmode _ Hm); reflexivity].
      intros _. left. destruct (Hint _ Hi2) as [Hm Hk].
      split; [exact Hm|]. exists (TtsLoop.loaded cfg loads).
      split; [lia | exact Hk]. }
    cbv beta iota.
    destruct (IH (TtsLoop.loaded cfg (TtsLoop.loaded cfg loads))
                 (trace ++ [TtsLoop.Play (Synthesis.Samples chunk)
                                         (Synthesis.SampleRate chunk)]))
      as (played & H1 & H2 & H3 & H4 & H5).
    exists (chunk :: played).
    split.
    { rewrite H1, <- app_assoc. reflexivity. }
    split; [apply prefix_cons, H2|].
    split; [intros Hw; rewrite (H3 Hw); reflexivity|].
    split.
    + intros Hw. destruct (H4 Hw) as [(Hm & k & Hk & Hk')|(ch & Hch & Hp)].
      * left. split; [exact Hm|]. exists k. split; [|exact Hk'].
        pose proof (Hloaded) as Hl1.
        assert ((TtsLoop.loaded cfg loads
                 <= TtsLoop.loaded cfg (TtsLoop.loaded cfg loads))%nat).
        { unfold TtsLoop.loaded. destruct (_ =? _); lia. }
        lia.
      * right. exists ch. split; [right; exact Hch | exact Hp].
    + intros Hm. rewrite (H5 Hm), !(Hmode _ Hm). reflexivity.
Qed.


(** X24.  In [always] mode an iteration of [ttsProcessor] never pauses or
    resumes the microphone and never sleeps.  With the flag set when the
    text arrives it plays nothing and drains the channel; otherwise it
    plays the chunks of the sentences that synthesize, in order, and
    either plays all of them and leaves the channel alone, or stops early
    and drains the channel; it stops early only if a load of the flag
    returned true or a playback failed. *)
Theorem ttsProcessor_always_mode s cfg text loads :
  TtsLoop.InterruptMode cfg = InterruptMode.InterruptAlways ->
  exists played (drained : bool),
    (ttsProcessor_iteration s cfg text loads).1
    = (TtsLoop.playing <$> played)
      ++ (if drained then [TtsLoop.Drain] else [])
    /\ played `prefix_of` chunks s (Tts.SplitSentences text)
    /\ (drained = false -> played = chunks s (Tts.SplitSentences text))
    /\ (interrupt loads = true -> played = [] /\ drained = true)
    /\ (drained = true ->
        (exists k, (loads <= k)%nat /\ interrupt k = true)
        \/ exists chunk,
             chunk ∈ chunks s (Tts.SplitSentences text) /\ ~ plays chunk).
Proof.
  intros Hm.
  unfold TtsLoop.ttsProcessor_iteration, TtsLoop.interrupted.
  rewrite Hm.
  change (InterruptMode.InterruptAlways =? InterruptMode.InterruptWait)
    with false.
  rewrite !Z.eqb_refl. cbn [andb]. cbv zeta.
  destruct (interrupt loads) eqn:Hi.
  { exists [], true. cbn [fst fmap list_fmap app].
    split; [reflexivity|]. split; [apply prefix_nil|].
    split; [intros H; discriminate H|].
    split; [intros _; split; reflexivity|].
    intros _. left. exists loads. split; [lia | exact Hi]. }
  destruct (length (Tts.SplitSentences text) =? 0)%nat eqn:Hlen.
  - apply Nat.eqb_eq in Hlen. apply length_zero_iff_nil in Hlen.
    rewrite Hlen. exists [], false. cbn [fst fmap list_fmap app].
    split; [reflexivity|]. split; [reflexivity|].
    split; [intros _; reflexivity|].
    split; [intros H; discriminate H|]. intros H; discriminate H.
  - destruct (sentenceLoop_spec s cfg (Tts.SplitSentences text)
                (TtsLoop.loaded cfg loads) [])
      as (played & H1 & H2 & H3 & H4 & _).
    destruct (sentenceLoop s cfg (Tts.SplitSentences text)
                (TtsLoop.loaded cfg loads) []) as [[w loads'] trace'].
    cbn [fst snd] in H1, H3, H4. subst trace'.
    cbv beta iota. exists played, w. cbn [fst]. rewrite andb_true_r.
    split.
    + rewrite app_nil_l. destruct w; [reflexivity|].
      rewrite app_nil_r. reflexivity.
    + split; [exact H2|]. split; [exact H3|].
      split; [intros H; discriminate H|].
      intros Hw. destruct (H4 Hw) as [(_ & k & Hk & Hk')|H4'].
      * left. exists k. split; [|exact Hk'].
        assert ((loads <= TtsLoop.loaded cfg loads)%nat).
        { unfold TtsLoop.loaded. destruct (_ =? _); lia. }
        lia.
      * right. exact H4'.
Qed.

End TtsLoopFacts.


Lemma ttsProcessor_always_mode_witness :
  exists played (drained : bool),
    (TtsLoop.ttsProcessor_iteration (fun _ _ _ => None) (fun _ => true)
       (fun _ _ => None) (Synthesis.mkSynthesizer 24000 0 0 false)
       (TtsLoop.mkConfig 0 300) (runes "Hi.") 0).1
    = (TtsLoop.playing <$> played)
      ++ (if drained then [TtsLoop.Drain] else [])
    /\ played `prefix_of`
         TtsLoop.chunks (fun _ _ _ => None)
           (Synthesis.mkSynthesizer 24000 0 0 false)
           (Tts.SplitSentences (runes "Hi."))
    /\ (drained = false ->
        played = TtsLoop.chunks (fun _ _ _ => None)
                   (Synthesis.mkSynthesizer 24000 0 0 false)
                   (Tts.SplitSentences (runes "Hi.")))
    /\ (true = true -> played = [] /\ drained = true)
    /\ (drained = true ->
        (exists k, (0 <= k)%nat /\ true = true)
        \/ exists chunk,
             chunk ∈ TtsLoop.chunks (fun _ _ _ => None)
                       (Synthesis.mkSynthesizer 24000 0 0 false)
                       (Tts.SplitSentences (runes "Hi."))
             /\ ~ TtsLoop.plays (fun _ _ => None) chunk).
Proof.
  apply (ttsProcessor_always_mode (fun _ _ _ => None) (fun _ => true)
           (fun _ _ => None) (Synthesis.mkSynthesizer 24000 0 0 false)
           (TtsLoop.mkConfig 0 300) (runes "Hi.") 0).
  reflexivity.
Defined.

(** ** Package audio: the capturer *)

Lemma copy_make (x : list Z) :
  (Capture.copy (Capture.make (Z.of_nat (length x))) x).1 = x.
Proof.
  unfold Capture.copy. cbn [fst]. rewrite length_make, Nat2Z.id.
  rewrite Nat.min_id, take_ge by lia.
  rewrite drop_ge by (rewrite length_make; lia).
  apply app_nil_r.
Qed.

Section CapturerFacts.

Variables f32_add f32_sub f32_mul : Z -> Z -> Z.
Variable float32_of_float64 : spec_float -> Z.

Local Abbreviation processLoop_round :=
  (Capturer.processLoop_round f32_add f32_sub f32_mul float32_of_float64).
Local Abbreviation processLoop_rounds :=
  (Capturer.processLoop_rounds f32_add f32_sub f32_mul float32_of_float64).

(** Whether a popped chunk is handed to the handler. *)
Local Abbreviation delivers c :=
  (Capturer.onSamples c && Capturer.running c).

(** A round that does not resample. *)
Lemma processLoop_round_eq c :
  (delivers c = true ->
   Capturer.resampler c = None
   /\ Capturer.deviceSampleRate c = Capturer.sampleRate c) ->
  processLoop_round c
  = Polyphase.Done
      (Capturer.with_ringBuf c (Capture.pop (Capturer.ringBuf c)).2,
       if delivers c then (Capture.pop (Capturer.ringBuf c)).1 else None).
Proof.
  intros H. unfold Capturer.processLoop_round.
  destruct (Capture.pop (Capturer.ringBuf c)) as [[x|] rb];
    cbn [fst snd]; cbv zeta.
  - cbn [Capturer.with_ringBuf Capturer.onSamples Capturer.running
         Capturer.resampler Capturer.deviceSampleRate Capturer.sampleRate].
    destruct (delivers c); [|reflexivity].
    destruct (H eq_refl) as [Hr He].
    rewrite Hr, He, Z.eqb_refl. cbn [negb]. rewrite copy_make.
    reflexivity.
  - destruct (Capturer.onSamples _ && Capturer.running _); reflexivity.
Qed.

(** As many rounds as there are unread chunks empty the ring, and hand
    over each chunk or none of them. *)
Lemma processLoop_rounds_unread : forall n c,
  (delivers c = true ->
   Capturer.resampler c = None
   /\ Capturer.deviceSampleRate c = Capturer.sampleRate c) ->
  Capture.wf (Capturer.ringBuf c) ->
  n = length (Capture.unread (Capturer.ringBuf c)) ->
  exists rb',
    processLoop_rounds n c
    = Polyphase.Done
        (Capturer.with_ringBuf c rb',
         (fun x => if delivers c then Some x else None)
           <$> Capture.unread (Capturer.ringBuf c))
    /\ Capture.unread rb' = []
    /\ Capture.pop rb' = (None, rb')
    /\ Capture.dropCount rb' = Capture.dropCount (Capturer.ringBuf c).
Proof.
  induction n as [|n IH]; intros c Hc Hwf Hn.
  - exists (Capturer.ringBuf c).
    destruct (Capture.unread (Capturer.ringBuf c)) eqn:Hu;
      [|discriminate Hn].
    split; [destruct c; reflexivity|]. split; [reflexivity|].
    split; [|reflexivity].
    destruct (pops_unread (Capturer.ringBuf c) Hwf) as (rb' & Hp & Hnone & _).
    rewrite Hu in Hp. cbn [length Capture.pops] in Hp.
    injection Hp as <-. exact Hnone.
  - assert (Hpos : 0 < Capture.occupancy (Capturer.ringBuf c)).
    { unfold Capture.unread in Hn. rewrite length_map, length_seq in Hn.
      lia. }
    destruct (pop_unread (Capturer.ringBuf c) Hwf Hpos)
      as (x & rb1 & Hpop & Hu & Hwf1 & _ & Hd1).
    rewrite Hu in Hn. cbn [length] in Hn. injection Hn as Hn.
    destruct (IH (Capturer.with_ringBuf c rb1) Hc Hwf1 Hn)
      as (rb' & Hrounds & Hempty & Hnone & Hd').
    exists rb'. cbn [Capturer.processLoop_rounds].
    rewrite (processLoop_round_eq c Hc), Hpop.
    cbn [Polyphase.bind fst snd].
    rewrite Hrounds. cbn [Polyphase.bind fst snd].
    rewrite Hu. cbn [fmap list_fmap].
    split; [reflexivity|]. split; [exact Hempty|].
    split; [exact Hnone|].
    rewrite Hd'. exact Hd1.
Qed.

(** X25.  After [Pause] the audio callback drops its input without
    touching the ring or the drop counter, and [processLoop] throws away
    what is queued: as many rounds as there are unread chunks pop them
    all and hand none of them to the handler, whatever the rates and the
    resampler, so that [Resume] finds an empty ring. *)
Theorem Capturer_pause_discards c pBuf data :
  Capture.wf (Capturer.ringBuf c) ->
  let p := Capturer.Pause c in
  Capturer.onRecvFrames p pBuf data = Returns p
  /\ exists rb',
       processLoop_rounds (length (Capture.unread (Capturer.ringBuf c))) p
       = Polyphase.Done
           (Capturer.with_ringBuf p rb',
            replicate (length (Capture.unread (Capturer.ringBuf c))) None)
       /\ Capture.unread rb' = []
       /\ Capture.pop rb' = (None, rb')
       /\ Capture.dropCount rb' = Capture.dropCount (Capturer.ringBuf c)
       /\ Capturer.ringBuf (Capturer.Resume (Capturer.with_ringBuf p rb'))
          = rb'.
Proof.
  intros Hwf p. split; [reflexivity|].
  assert (Hd : delivers p = false).
  { subst p. cbn. apply andb_false_r. }
  destruct (processLoop_rounds_unread
              (length (Capture.unread (Capturer.ringBuf c))) p)
    as (rb' & Hrounds & Hempty & Hnone & Hdrop).
  { rewrite Hd. intros H; discriminate H. }
  { exact Hwf. }
  { reflexivity. }
  exists rb'. rewrite Hrounds.
  split; [|repeat split; assumption].
  f_equal. f_equal. rewrite Hd.
  change (Capturer.ringBuf p) with (Capturer.ringBuf c).
  generalize (Capture.unread (Capturer.ringBuf c)).
  intros l. induction l as [|x l IHl]; [reflexivity|].
  cbn [fmap list_fmap length replicate]. f_equal. exact IHl.
Qed.

(** X26.  A running capturer whose device rate is the target rate (no
    resampler), with a handler and room in the ring: the audio callback
    queues the little-endian words of its input, cut at 2048 samples,
    behind the unread chunks, and as many rounds of [processLoop] as
    there are unread chunks hand these chunks to the handler unchanged,
    oldest first, and leave the ring empty. *)
Theorem Capturer_delivers c pBuf data :
  Capturer.running c = true -> Capturer.onSamples c = true ->
  Capturer.resampler c = None ->
  Capturer.deviceSampleRate c = Capturer.sampleRate c ->
  Capture.wf (Capturer.ringBuf c) ->
  Capture.occupancy (Capturer.ringBuf c) < Capture.ringBufferSize ->
  (4 <= length data)%nat ->
  exists c1 rb',
    Capturer.onRecvFrames c pBuf data = Returns c1
    /\ Capture.unread (Capturer.ringBuf c1)
       = Capture.unread (Capturer.ringBuf c)
         ++ [take (Z.to_nat Capture.maxSamplesPerChunk)
                  (SampleBytes.words data)]
    /\ processLoop_rounds (length (Capture.unread (Capturer.ringBuf c1))) c1
       = Polyphase.Done
           (Capturer.with_ringBuf c1 rb',
            Some <$> Capture.unread (Capturer.ringBuf c1))
    /\ Capture.unread rb' = []
    /\ Capture.pop rb' = (None, rb').
Proof.
  intros Hrun Hon Hres Hrate Hwf Hroom Hlen.
  unfold Capturer.onRecvFrames. rewrite Hrun. cbn [negb].
  destruct (bytesToFloat32_eq pBuf data) as [-> Hw].
  assert (Hpos : 0 < Z.of_nat (length (SampleBytes.words data))).
  { rewrite Hw. apply Z.div_str_pos. lia. }
  rewrite (proj2 (Z.ltb_lt _ _) Hpos).
  destruct (Capture_push_room (Capturer.ringBuf c) (SampleBytes.words data)
              Hwf Hroom)
    as (_ & _ & Hwf1 & _ & _ & _ & _ & _ & Hu).
  set (c1 := Capturer.with_ringBuf c
               (Capture.ring (Capture.push (Capturer.ringBuf c)
                                           (SampleBytes.words data)))).
  assert (Hd : delivers c1 = true).
  { subst c1. cbn [Capturer.with_ringBuf Capturer.onSamples
                   Capturer.running].
    rewrite Hon, Hrun. reflexivity. }
  destruct (processLoop_rounds_unread
              (length (Capture.unread (Capturer.ringBuf c1))) c1)
    as (rb' & Hrounds & Hempty & Hnone & _).
  { intros _. split; assumption. }
  { exact Hwf1. }
  { reflexivity. }
  exists c1, rb'. split; [reflexivity|]. split; [exact Hu|].
  split; [|split; assumption].
  rewrite Hrounds, Hd. reflexivity.
Qed.

End CapturerFacts.

Lemma Capturer_pause_discards_witness :
  let c := Capturer.mkCapturer 16000 48000 true true
             (Capture.ring (Capture.push Capture.newRingBuffer [1; 2; 3]))
             None in
  Capturer.onRecvFrames (Capturer.Pause c) [] [0; 0; 128; 63]
  = Returns (Capturer.Pause c).
Proof.
  intros c.
  apply (Capturer_pause_discards Z.add Z.sub Z.mul (fun _ => 0) c []
           [0; 0; 128; 63]).
  refine (bool_decide_unpack _ _). vm_compute. exact I.
Defined.

Lemma Capturer_delivers_witness :
  let c := Capturer.mkCapturer 16000 16000 true true Capture.newRingBuffer
             None in
  exists c1 rb',
    Capturer.onRecvFrames c [] [0; 0; 128; 63] = Returns c1
    /\ Capture.unread (Capturer.ringBuf c1)
       = Capture.unread (Capturer.ringBuf c)
         ++ [take (Z.to_nat Capture.maxSamplesPerChunk)
                  (SampleBytes.words [0; 0; 128; 63])]
    /\ Capturer.processLoop_rounds Z.add Z.sub Z.mul (fun _ => 0)
         (length (Capture.unread (Capturer.ringBuf c1))) c1
       = Polyphase.Done
           (Capturer.with_ringBuf c1 rb',
            Some <$> Capture.unread (Capturer.ringBuf c1))
    /\ Capture.unread rb' = []
    /\ Capture.pop rb' = (None, rb').
Proof.
  intros c.
  apply (Capturer_delivers Z.add Z.sub Z.mul (fun _ => 0) c []
           [0; 0; 128; 63]).
  - reflexivity.
  - reflexivity.
  - reflexivity.
  - reflexivity.
  - refine (bool_decide_unpack _ _). vm_compute. exact I.
  - vm_compute. reflexivity.
  - cbn. lia.
Defined.

(** ** Package llm: the bound at its limits *)

(** [int] arithmetic one wrap above the range. *)
Lemma wrap_int_high z :
  2 ^ 63 <= z < 2 ^ 63 + 2 ^ 64 -> wrap_int z = z - 2 ^ 64.
Proof.
  intros H. unfold wrap_int.
  replace (z + 2 ^ 63) with ((z - 2 ^ 64 + 2 ^ 63) + 1 * 2 ^ 64) by ring.
  rewrite Z_mod_plus_full, Z.mod_small by lia. lia.
Qed.

(** With a bound of [2 ^ 62] or more, [maxHistory * 2] overflows and
    [trimHistory] slices out of range on every history that is not
    empty. *)
Lemma trimHistory_overflow c :
  2 ^ 62 <= Llm.maxHistory c <= MaxInt ->
  Llm.history c <> [] ->
  Z.of_nat (length (Llm.history c)) < 2 ^ 62 ->
  Llm.trimHistory c = Panics.
Proof.
  unfold MaxInt. intros HM Hne Hlen. unfold Llm.trimHistory. cbv zeta.
  rewrite (wrap_int_high (Llm.maxHistory c * 2)) by lia.
  rewrite (wrap_int_small (1 + _)) by lia.
  assert (Hpos : 0 < Z.of_nat (length (Llm.history c))).
  { destruct (Llm.history c); [congruence | cbn [length]; lia]. }
  destruct (Z.gtb_spec (Z.of_nat (length (Llm.history c)))
                       (1 + (Llm.maxHistory c * 2 - 2 ^ 64))) as [_|H];
    [|lia].
  destruct (Llm.history c) as [|systemMsg rest] eqn:Hh; [reflexivity|].
  set (n := Z.of_nat (length (systemMsg :: rest))) in *.
  destruct (Z.lt_ge_cases (n - (Llm.maxHistory c * 2 - 2 ^ 64)) (2 ^ 63))
    as [Hfit|Hwrap].
  - rewrite (wrap_int_small (n - _)) by lia.
    rewrite (proj2 (Z.ltb_lt n _)) by lia.
    rewrite orb_true_r. reflexivity.
  - rewrite (wrap_int_high (n - _)) by lia.
    rewrite (proj2 (Z.ltb_lt _ 0)) by lia.
    reflexivity.
Qed.

(** An answered request on such a client: [Chat] panics. *)
Lemma Chat_overflow srv c userMessage content :
  2 ^ 62 <= Llm.maxHistory c <= MaxInt ->
  Z.of_nat (length (Llm.history c)) + 2 < 2 ^ 62 ->
  srv (Llm.mkChatRequest (Llm.model c)
         (Llm.history c ++ [Llm.mkMessage (runes "user") userMessage])
         false (Llm.temperature c) 150 1024) = Ok content ->
  Llm.Chat srv c userMessage = Panics.
Proof.
  intros HM Hlen Hsrv. unfold Llm.Chat. cbv zeta.
  cbn [Llm.model Llm.history Llm.temperature Llm.set_history].
  rewrite Hsrv.
  rewrite trimHistory_overflow; [reflexivity | exact HM | |].
  - cbn [Llm.set_history Llm.history].
    intros E. apply (f_equal length) in E.
    rewrite !length_app in E. cbn [length] in E. lia.
  - cbn [Llm.set_history Llm.history].
    rewrite !length_app. cbn [length]. lia.
Qed.

(** The history after calls of [Chat] that all failed. *)
Lemma failed_turns_length c userMessages c' :
  Conversation.failed_turns c userMessages c' ->
  length (Llm.history c')
  = (length (Llm.history c) + length userMessages)%nat.
Proof.
  induction 1 as [c|c srv m e c1 rest c2 HChat _ IH].
  - cbn [length]. lia.
  - apply Chat_Err_inv in HChat. subst c1. rewrite IH.
    cbn [Llm.set_history Llm.history length].
    rewrite length_app. cbn [length]. lia.
Qed.

Lemma failed_turns_run userMessages : forall c,
  exists c', Conversation.failed_turns c userMessages c'.
Proof.
  induction userMessages as [|m rest IH]; intros c.
  - exists c. constructor.
  - destruct (IH (Llm.set_history c
                    (Llm.history c ++ [Llm.mkMessage (runes "user") m])))
      as (c' & H).
    exists c'.
    eapply (Conversation.failed_chat c (fun _ => Err []) m);
      [reflexivity | exact H].
Qed.

Section LlmLimits.

Variable url_Parse : gostring -> result gostring gostring.

(** C1.  The claimed history holds for the bounds [M] up to [2 ^ 62 - 1]
    and fails beyond them.  On a freshly constructed client with
    [1 <= M] and [1 + 2 * M] an [int]: after [K] successful turns the
    history holds [min (1 + 2 * K) (1 + 2 * M)] turns with the system turn
    at index 0, [Chat] returns, and [trimHistory] and [ClearHistory]
    return and keep the turn at index 0.  With [2 ^ 62 <= M] (the flag
    [--max-history] accepts every [int]) [maxHistory * 2] overflows:
    [trimHistory] panics on the new client, every call of [Chat] whose
    request is answered panics, and so no turn is ever successful. *)
Theorem history_bound_overflow cfg c0 :
  1 <= Llm.MaxHistory cfg <= MaxInt ->
  Llm.NewClient url_Parse cfg = Ok c0 ->
  (1 + 2 * Llm.MaxHistory cfg <= MaxInt ->
   forall K c,
     Llm.successful_turns c0 K c ->
     Z.of_nat (length (Llm.history c))
     = Z.min (1 + 2 * Z.of_nat K) (1 + 2 * Llm.MaxHistory cfg)
     /\ Llm.history c !! 0%nat
        = Some (Llm.mkMessage (runes "system") (Llm.SystemPrompt cfg))
     /\ (forall srv userMessage,
           exists r c', Llm.Chat srv c userMessage = Returns (r, c'))
     /\ (exists c', Llm.trimHistory c = Returns c'
                    /\ Llm.history c' !! 0%nat = Llm.history c !! 0%nat)
     /\ (exists c', Llm.ClearHistory c = Returns c'
                    /\ Llm.history c' !! 0%nat = Llm.history c !! 0%nat))
  /\ (MaxInt < 1 + 2 * Llm.MaxHistory cfg ->
      Llm.trimHistory c0 = Panics
      /\ (forall srv userMessage content,
            srv (Llm.mkChatRequest (Llm.model c0)
                   (Llm.history c0
                    ++ [Llm.mkMessage (runes "user") userMessage])
                   false (Llm.temperature c0) 150 1024) = Ok content ->
            Llm.Chat srv c0 userMessage = Panics)
      /\ (forall K c, Llm.successful_turns c0 K c -> K = 0%nat /\ c = c0)).
Proof.
  intros HM HNew. split.
  - intros Hfit K c Hturns.
    destruct (history_after_successful_turns url_Parse cfg c0 K c)
      as (H1 & H2 & H3 & H4 & H5); try assumption; [lia|].
    split; [exact H1|]. split; [exact H2|]. split; [|split; assumption].
    intros srv userMessage.
    destruct (H3 srv userMessage) as (r & c' & HChat & _). eauto.
  - intros Hover.
    destruct (NewClient_Ok url_Parse cfg c0 HNew) as [Hmax Hhist].
    assert (HMc : 2 ^ 62 <= Llm.maxHistory c0 <= MaxInt).
    { rewrite Hmax. destruct (Z.leb_spec (Llm.MaxHistory cfg) 0); [lia|].
      unfold MaxInt in *. lia. }
    assert (Hlen : Z.of_nat (length (Llm.history c0)) = 1)
      by (rewrite Hhist; reflexivity).
    assert (HChat : forall srv userMessage content,
      srv (Llm.mkChatRequest (Llm.model c0)
             (Llm.history c0 ++ [Llm.mkMessage (runes "user") userMessage])
             false (Llm.temperature c0) 150 1024) = Ok content ->
      Llm.Chat srv c0 userMessage = Panics).
    { intros srv userMessage content Hsrv.
      apply (Chat_overflow srv c0 userMessage content HMc); [lia|exact Hsrv]. }
    split.
    { apply trimHistory_overflow; [exact HMc | | lia].
      rewrite Hhist. discriminate. }
    split; [exact HChat|].
    intros K c Hturns.
    destruct Hturns as [c|c srv userMessage reply c1 K c2 HOk _];
      [split; reflexivity|].
    exfalso. revert HOk. unfold Llm.Chat. cbv zeta.
    cbn [Llm.model Llm.history Llm.temperature Llm.set_history].
    destruct (srv _) as [content|e] eqn:Hsrv.
    + pose proof (HChat srv userMessage content Hsrv) as HP.
      unfold Llm.Chat in HP. cbv zeta in HP.
      cbn [Llm.model Llm.history Llm.temperature Llm.set_history] in HP.
      rewrite Hsrv in HP. rewrite HP. intros E; discriminate E.
    + intros E; discriminate E.
Qed.

(** C10.  [NewClient] replaces a [MaxHistory] of 0 or less by 10 and keeps
    a positive one, as claimed; the bound of 21 turns that is to follow
    holds over successful turns only.  A call of [Chat] whose request
    fails leaves its user turn in the history and nothing trims it: after
    [n] failing calls on the new client the history has [1 + n] turns, 22
    after 21 calls. *)
Theorem NewClient_default_bound_broken cfg u :
  url_Parse (TrimSuffix (Llm.Host cfg) (runes "/")) = Ok u ->
  exists c,
    Llm.NewClient url_Parse cfg = Ok c
    /\ (Llm.MaxHistory cfg <= 0 ->
        Llm.maxHistory c = 10
        /\ (forall K c', Llm.successful_turns c K c' ->
                         Z.of_nat (length (Llm.history c')) <= 1 + 2 * 10)
        /\ (forall userMessages,
              exists c', Conversation.failed_turns c userMessages c')
        /\ (forall userMessages c',
              Conversation.failed_turns c userMessages c' ->
              Z.of_nat (length (Llm.history c'))
              = 1 + Z.of_nat (length userMessages)
              /\ ((21 <= length userMessages)%nat ->
                  1 + 2 * 10 < Z.of_nat (length (Llm.history c')))))
    /\ (0 < Llm.MaxHistory cfg -> Llm.maxHistory c = Llm.MaxHistory cfg).
Proof.
  intros Hu.
  destruct (NewClient_effective_maxHistory url_Parse cfg u Hu)
    as (c & HNew & Hdefault & Hkept).
  exists c. split; [exact HNew|]. split; [|exact Hkept].
  intros Hle. destruct (Hdefault Hle) as [Hmax Hbound].
  split; [exact Hmax|]. split; [exact Hbound|].
  split; [intros userMessages; apply failed_turns_run|].
  intros userMessages c' Hfailed.
  destruct (NewClient_Ok url_Parse cfg c HNew) as [_ Hhist].
  pose proof (failed_turns_length c userMessages c' Hfailed) as Hl.
  rewrite Hhist in Hl. cbn [length] in Hl.
  split; lia.
Qed.

End LlmLimits.

Lemma history_bound_overflow_witness :
  let cfg := Llm.mkConfig (runes "http://localhost:11434") (runes "gemma3:1b")
               (runes "Be brief.") false (2 ^ 62) 0 in
  exists c0,
    Llm.NewClient Ok cfg = Ok c0
    /\ Llm.trimHistory c0 = Panics
    /\ Llm.Chat (fun _ => Ok (runes "Hello.")) c0 (runes "hi") = Panics.
Proof.
  intros cfg. eexists. split; [reflexivity|].
  destruct (history_bound_overflow Ok cfg _ ltac:(unfold MaxInt; cbn; lia)
              eq_refl) as [_ Hover].
  destruct (Hover ltac:(unfold MaxInt; cbn; lia)) as (Htrim & HChat & _).
  split; [exact Htrim|].
  apply (HChat (fun _ => Ok (runes "Hello.")) (runes "hi") (runes "Hello.")).
  reflexivity.
Defined.

Lemma NewClient_default_bound_broken_witness :
  exists c c',
    Llm.NewClient Ok
      (Llm.mkConfig (runes "http://localhost:11434/") (runes "gemma3:1b")
                    (runes "Be brief.") false 0 0) = Ok c
    /\ Llm.maxHistory c = 10
    /\ Conversation.failed_turns c (replicate 21 (runes "again")) c'
    /\ Z.of_nat (length (Llm.history c')) = 22.
Proof.
  destruct (NewClient_default_bound_broken Ok
              (Llm.mkConfig (runes "http://localhost:11434/")
                 (runes "gemma3:1b") (runes "Be brief.") false 0 0)
              (runes "http://localhost:11434") eq_refl)
    as (c & HNew & Hdefault & _).
  destruct (Hdefault ltac:(cbn; lia)) as (Hmax & _ & Hrun & Hlen).
  destruct (Hrun (replicate 21 (runes "again"))) as (c' & Hfailed).
  exists c, c'. split; [exact HNew|]. split; [exact Hmax|].
  split; [exact Hfailed|].
  destruct (Hlen _ c' Hfailed) as [Heq _]. rewrite Heq. reflexivity.
Defined.
